(** * Option pricers: binomial lattice, Monte Carlo engine, payoff expressions

    Shallow embedding of [binomial_option.py] and [monte_carlo_option.py],
    and of the two helpers of [web_option_server.py] that do not touch the
    web framework.

    Numeric model.  Python floats are modelled by the real numbers of the
    Standard Library: arithmetic is exact, [math.exp] and [math.sqrt] are
    the real functions, and what belongs to the float format (rounding,
    the finite range with its overflow, infinities, NaN) is outside the
    model.  What Python does *instead of* computing a value is kept: a
    division whose divisor is zero raises [ZeroDivisionError], an index
    out of range raises [IndexError], an undefined [math.log] raises
    [ValueError].  Integers that the code uses as counts ([steps],
    [paths]) are [Z].

    What this leaves out of the pricers: the [OverflowError] that
    [math.exp], a power or the conversion of a very large integer to a
    float raises, and every effect of rounding, such as [exp] of a tiny
    positive number being 1.  Left out as well is the interpreter's
    [RecursionError] on an expression nested some hundreds deep.  The
    evaluator of payoff expressions covers a part of Python only, and
    answers [Beyond] outside it.

    Layout: the embedding of the parts of the program and the
    vocabulary of the properties first, then the proofs, in modules for
    each part. *)

From Stdlib Require Import Reals Lra ZArith Lia.
From stdpp Require Import base list strings gmap.

Open Scope R_scope.

(** ** Exceptions and outcomes *)

(** The exceptions the modelled code can raise.  Every error the
    repository raises itself is a [ValueError] told apart by its message. *)
Inductive exn : Type :=
| ValueError (msg : string)
| ZeroDivisionError
| IndexError
| TypeError
| OverflowError
| NameError (id : string).

Inductive outcome (A : Type) : Type :=
| Returns (a : A)
| Raises (e : exn).
Arguments Returns {A} a.
Arguments Raises {A} e.

Definition outcome_bind {A B} (m : outcome A) (k : A -> outcome B) : outcome B :=
  match m with
  | Returns a => k a
  | Raises e => Raises e
  end.

(** Code that mutates objects while it may raise: a state in, the state
    at the point of return or of the raise out. *)
Definition M (S A : Type) : Type := S -> S * outcome A.

Definition ret {S A} (a : A) : M S A := fun s => (s, Returns a).
Definition raise {S A} (e : exn) : M S A := fun s => (s, Raises e).
Definition bind {S A B} (m : M S A) (k : A -> M S B) : M S B :=
  fun s => match m s with
           | (s', Returns a) => k a s'
           | (s', Raises e) => (s', Raises e)
           end.
Definition lift {S A} (o : outcome A) : M S A := fun s => (s, o).
Definition get {S} : M S S := fun s => (s, Returns s).
Definition modify {S} (f : S -> S) : M S unit := fun s => (f s, Returns tt).

Declare Scope py_scope.
Delimit Scope py_scope with py.
Notation "x <- m ;; k" := (bind m (fun x => k))
  (at level 100, m at next level, k at level 200, right associativity) : py_scope.
Notation "m ;; k" := (bind m (fun _ => k))
  (at level 100, k at level 200, right associativity) : py_scope.
Open Scope py_scope.

Declare Scope outcome_scope.
Delimit Scope outcome_scope with out.
Notation "m ;; k" := (outcome_bind m (fun _ => k))
  (at level 100, k at level 200, right associativity) : outcome_scope.

(** [for x in l: body x] *)
Fixpoint for_each {S A} (l : list A) (body : A -> M S unit) : M S unit :=
  match l with
  | [] => ret tt
  | x :: rest => body x ;; for_each rest body
  end.

(** A list built by appending one computed element per iteration. *)
Fixpoint collect {S A B} (l : list A) (body : A -> M S B) : M S (list B) :=
  match l with
  | [] => ret []
  | x :: rest => b <- body x ;; bs <- collect rest body ;; ret (b :: bs)
  end.

(** ** Python primitives *)

(** [x / y] on floats. *)
Definition py_div (x y : R) : outcome R :=
  if Req_dec_T y 0 then Raises ZeroDivisionError else Returns (x / y).

(** [max(a, b)]: the first argument unless the second is strictly larger. *)
Definition py_max (a b : R) : R := if Rlt_dec a b then b else a.

Definition Rleb (x y : R) : bool := if Rle_dec x y then true else false.
Definition Rltb (x y : R) : bool := if Rlt_dec x y then true else false.

(** [sum(l)]: the elements added to 0 from left to right. *)
Definition py_sum (l : list R) : R := fold_left Rplus l 0.

(** [range(n)] for an integer [n]. *)
Definition range (n : Z) : list nat := seq 0 (Z.to_nat n).

(** [l[i]] with Python's negative indices. *)
Definition py_index {A} (l : list A) (i : Z) : outcome A :=
  let n := Z.of_nat (length l) in
  let k := if (i <? 0)%Z then (i + n)%Z else i in
  if ((k <? 0) || (n <=? k))%Z then Raises IndexError
  else match l !! Z.to_nat k with
       | Some x => Returns x
       | None => Raises IndexError
       end.

(** [l[i] = v] with Python's negative indices. *)
Definition py_setitem {A} (l : list A) (i : Z) (v : A) : outcome (list A) :=
  let n := Z.of_nat (length l) in
  let k := if (i <? 0)%Z then (i + n)%Z else i in
  if ((k <? 0) || (n <=? k))%Z then Raises IndexError
  else Returns (<[Z.to_nat k := v]> l).

(** ** binomial_option.py *)

Module Binomial.

Definition _validate_parameters
    (spot strike maturity rate volatility : R) (steps : Z) : outcome unit :=
  if Rleb spot 0 then Raises (ValueError "Spot price must be positive.")
  else if Rleb strike 0 then Raises (ValueError "Strike price must be positive.")
  else if Rleb maturity 0 then Raises (ValueError "Maturity must be positive.")
  else if (steps <=? 0)%Z then Raises (ValueError "Steps must be a positive integer.")
  else if Rltb volatility 0 then Raises (ValueError "Volatility must be non-negative.")
  else Returns tt.

Record BinomialTreeResult : Type := {
  price : R;
  asset_prices : list (list R);
  option_values : list (list R)
}.

(** The two lists the function builds by mutation. *)
Record locals : Type := {
  l_asset_prices : list (list R);
  l_option_values : list (list R)
}.

Definition no_lattice : locals :=
  {| l_asset_prices := []; l_option_values := [] |}.

Definition set_asset_prices (v : list (list R)) : M locals unit :=
  modify (fun s => {| l_asset_prices := v; l_option_values := l_option_values s |}).
Definition set_option_values (v : list (list R)) : M locals unit :=
  modify (fun s => {| l_asset_prices := l_asset_prices s; l_option_values := v |}).
Definition get_asset_prices : M locals (list (list R)) :=
  s <- get ;; ret (l_asset_prices s).
Definition get_option_values : M locals (list (list R)) :=
  s <- get ;; ret (l_option_values s).

Definition arbitrage_message : string :=
  "Arbitrage detected: adjust parameters (N, sigma, or rate).".

(** [max(price - strike, 0)] for a call, [max(strike - price, 0)] otherwise. *)
Definition exercise_value (option_type : string) (strike price : R) : R :=
  if String.eqb option_type "call" then py_max (price - strike) 0
  else py_max (strike - price) 0.

(** Lines 85-89: the asset price lattice, one level appended per step. *)
Definition build_asset_lattice (spot up down : R) (steps : Z) : M locals unit :=
  set_asset_prices [] ;;
  for_each (range (steps + 1)) (fun step =>
    let level :=
      map (fun j => spot * up ^ j * down ^ (step - j)) (range (Z.of_nat step + 1)) in
    ap <- get_asset_prices ;;
    set_asset_prices (ap ++ [level])).

(** Lines 91-100: empty rows, then the payoffs of the last level. *)
Definition terminal_option_values
    (strike : R) (steps : Z) (option_type : string) : M locals unit :=
  set_option_values (map (fun _ => []) (range (steps + 1))) ;;
  ap <- get_asset_prices ;;
  last_level <- lift (py_index ap (-1)) ;;
  let terminal_values := map (exercise_value option_type strike) last_level in
  ov <- get_option_values ;;
  ov' <- lift (py_setitem ov (-1) terminal_values) ;;
  set_option_values ov'.

(** Lines 107-121: the value of one node of level [step]. *)
Definition node_value
    (strike discount probability : R) (option_type : string) (american : bool)
    (step node : nat) : M locals R :=
  ov <- get_option_values ;;
  next_up <- lift (py_index ov (Z.of_nat step + 1)) ;;
  v_up <- lift (py_index next_up (Z.of_nat node + 1)) ;;
  next_down <- lift (py_index ov (Z.of_nat step + 1)) ;;
  v_down <- lift (py_index next_down (Z.of_nat node)) ;;
  let continuation :=
    discount * (probability * v_up + (1 - probability) * v_down) in
  if american then
    ap <- get_asset_prices ;;
    level <- lift (py_index ap (Z.of_nat step)) ;;
    s <- lift (py_index level (Z.of_nat node)) ;;
    let intrinsic := exercise_value option_type strike s in
    ret (py_max continuation intrinsic)
  else ret continuation.

(** Lines 104-122: [for step in range(steps - 1, -1, -1)]. *)
Definition backward_induction
    (strike discount probability : R) (steps : Z)
    (option_type : string) (american : bool) : M locals unit :=
  for_each (rev (range steps)) (fun step =>
    current_values <-
      collect (range (Z.of_nat step + 1))
        (node_value strike discount probability option_type american step) ;;
    ov <- get_option_values ;;
    ov' <- lift (py_setitem ov (Z.of_nat step) current_values) ;;
    set_option_values ov').

Definition binomial_option_price
    (spot strike maturity rate volatility : R) (steps : Z)
    (option_type : string) (american : bool) (dividend : R)
    : M locals BinomialTreeResult :=
  lift (_validate_parameters spot strike maturity rate volatility steps) ;;
  (if String.eqb option_type "call" || String.eqb option_type "put" then ret tt
   else raise (ValueError "option_type must be 'call' or 'put'.")) ;;
  dt <- lift (py_div maturity (IZR steps)) ;;
  let up := exp (volatility * sqrt dt) in
  down <- lift (py_div 1 up) ;;
  let growth := exp ((rate - dividend) * dt) in
  probability <- lift (py_div (growth - down) (up - down)) ;;
  (if Rleb 0 probability && Rleb probability 1 then ret tt
   else raise (ValueError arbitrage_message)) ;;
  build_asset_lattice spot up down steps ;;
  terminal_option_values strike steps option_type ;;
  let discount := exp (- rate * dt) in
  backward_induction strike discount probability steps option_type american ;;
  ov <- get_option_values ;;
  root <- lift (py_index ov 0) ;;
  root_value <- lift (py_index root 0) ;;
  ap <- get_asset_prices ;;
  ret {| price := root_value; asset_prices := ap; option_values := ov |}.

(** The function called on its own: no list exists before the call. *)
Definition run_binomial
    (spot strike maturity rate volatility : R) (steps : Z)
    (option_type : string) (american : bool) (dividend : R)
    : locals * outcome BinomialTreeResult :=
  binomial_option_price spot strike maturity rate volatility steps
    option_type american dividend no_lattice.

(** The derived constants of lines 76-80 and 102 as closed formulas,
    for stating properties. *)
Section Crr.
Variables (maturity rate volatility dividend : R) (steps : Z).
Definition crr_dt : R := maturity / IZR steps.
Definition crr_up : R := exp (volatility * sqrt crr_dt).
Definition crr_down : R := 1 / crr_up.
Definition crr_growth : R := exp ((rate - dividend) * crr_dt).
Definition crr_probability : R := (crr_growth - crr_down) / (crr_up - crr_down).
Definition crr_discount : R := exp (- rate * crr_dt).
End Crr.

(** Entry [j] of row [s] of a triangular array. *)
Definition entry (rows : list (list R)) (s j : nat) : option R :=
  match rows !! s with
  | Some row => row !! j
  | None => None
  end.

(** *** Vocabulary of the properties *)

(** Level [step] of the asset lattice. *)
Definition lattice_level (spot up down : R) (step : nat) : list R :=
  map (fun j => spot * up ^ j * down ^ (step - j)) (seq 0 (S step)).

(** One node of the backward induction, read from the row below and
    the asset level of the node. *)
Definition node_formula
    (strike discount probability : R) (option_type : string) (american : bool)
    (next level : list R) (node : nat) : R :=
  let continuation :=
    discount * (probability * nth (S node) next 0
                + (1 - probability) * nth node next 0) in
  if american
  then py_max continuation (exercise_value option_type strike (nth node level 0))
  else continuation.

(** Rows [k..n] of the option values [V] are filled in, and every row in
    [k..n-1] is computed from the row below it. *)
Definition filled_from
    (strike discount probability : R) (option_type : string) (american : bool)
    (ap : list (list R)) (n k : nat) (V : list (list R)) : Prop :=
  length V = S n /\
  (forall s, (k <= s <= n)%nat ->
     exists row, V !! s = Some row /\ length row = S s) /\
  (forall s, (k <= s < n)%nat ->
     exists row next level,
       V !! s = Some row /\ V !! S s = Some next /\ ap !! s = Some level /\
       row = map (node_formula strike discount probability option_type american
                    next level) (seq 0 (S s))).

(** What makes the pricer return: valid parameters, a known option type,
    distinct up and down factors, a probability in [0, 1]. *)
Definition priced
    (spot strike maturity rate volatility : R) (steps : Z)
    (option_type : string) (dividend : R) : Prop :=
  _validate_parameters spot strike maturity rate volatility steps = Returns tt
  /\ (option_type = "call" \/ option_type = "put")
  /\ crr_up maturity volatility steps - crr_down maturity volatility steps <> 0
  /\ 0 <= crr_probability maturity rate volatility dividend steps <= 1.

End Binomial.

(** ** monte_carlo_option.py: the Monte Carlo engine *)

Module MonteCarlo.

Definition _validate_positive (name : string) (value : R) : outcome unit :=
  if Rleb value 0 then Raises (ValueError (name ++ " must be positive."))
  else Returns tt.

Definition _validate_inputs
    (spot maturity rate volatility : R) (steps paths : Z) : outcome unit :=
  (_validate_positive "spot" spot ;;
   _validate_positive "maturity" maturity ;;
   _validate_positive "steps" (IZR steps) ;;
   _validate_positive "paths" (IZR paths) ;;
   if Rltb volatility 0 then Raises (ValueError "volatility must be non-negative.")
   else Returns tt)%out.

Record MonteCarloResult : Type := {
  price : R;
  payoffs : list R;
  paths : list (list R)
}.

(** What the function mutates: the number of samples it has taken from
    the standard-normal source, the two result lists, and the running
    [prices] and [price] of the path being simulated. *)
Record locals : Type := {
  draws : nat;
  l_simulated_paths : list (list R);
  l_payoffs : list R;
  l_prices : list R;
  l_price : R
}.

Definition fresh : locals :=
  {| draws := 0; l_simulated_paths := []; l_payoffs := []; l_prices := []; l_price := 0 |}.

Definition set_simulated_paths (v : list (list R)) : M locals unit :=
  modify (fun s => {| draws := draws s; l_simulated_paths := v; l_payoffs := l_payoffs s;
                      l_prices := l_prices s; l_price := l_price s |}).
Definition set_payoffs (v : list R) : M locals unit :=
  modify (fun s => {| draws := draws s; l_simulated_paths := l_simulated_paths s;
                      l_payoffs := v; l_prices := l_prices s; l_price := l_price s |}).
Definition set_prices (v : list R) : M locals unit :=
  modify (fun s => {| draws := draws s; l_simulated_paths := l_simulated_paths s;
                      l_payoffs := l_payoffs s; l_prices := v; l_price := l_price s |}).
Definition set_price (v : R) : M locals unit :=
  modify (fun s => {| draws := draws s; l_simulated_paths := l_simulated_paths s;
                      l_payoffs := l_payoffs s; l_prices := l_prices s; l_price := v |}).

Section Engine.
(** The standard-normal source: [gauss k] is the sample that the
    [k]-th call of [gauss(0, 1)] delivers. *)
Variable gauss : nat -> R.

(** The payoff callable. *)
Variable payoff : R -> list R -> outcome R.

Definition draw : M locals R := fun s =>
  ({| draws := S (draws s); l_simulated_paths := l_simulated_paths s;
      l_payoffs := l_payoffs s; l_prices := l_prices s; l_price := l_price s |},
   Returns (gauss (draws s))).

(** Lines 157-160: one time step of one path. *)
Definition simulate_step (drift diffusion : R) : M locals unit :=
  z <- draw ;;
  let increment := drift + diffusion * z in
  s <- get ;;
  set_price (l_price s * exp increment) ;;
  s <- get ;;
  set_prices (l_prices s ++ [l_price s]).

(** Lines 155-162: one path and its payoff. *)
Definition simulate_path (spot drift diffusion : R) (steps : Z) : M locals unit :=
  set_prices [spot] ;;
  set_price spot ;;
  for_each (range steps) (fun _ => simulate_step drift diffusion) ;;
  s <- get ;;
  set_simulated_paths (l_simulated_paths s ++ [l_prices s]) ;;
  s <- get ;;
  v <- lift (payoff (l_price s) (l_prices s)) ;;
  s <- get ;;
  set_payoffs (l_payoffs s ++ [v]).

Definition monte_carlo_option_price
    (spot maturity rate volatility : R) (steps paths : Z)
    : M locals MonteCarloResult :=
  lift (_validate_inputs spot maturity rate volatility steps paths) ;;
  dt <- lift (py_div maturity (IZR steps)) ;;
  let drift := (rate - 0.5 * volatility * volatility) * dt in
  let diffusion := volatility * sqrt dt in
  set_simulated_paths [] ;;
  set_payoffs [] ;;
  for_each (range paths) (fun _ => simulate_path spot drift diffusion steps) ;;
  let discount_factor := exp (- rate * maturity) in
  s <- get ;;
  price_estimate <-
    lift (py_div (discount_factor * py_sum (l_payoffs s))
                 (INR (length (l_payoffs s)))) ;;
  ret {| price := price_estimate;
         payoffs := l_payoffs s;
         paths := l_simulated_paths s |}.

(** The function called on its own: no sample taken yet. *)
Definition run_monte_carlo
    (spot maturity rate volatility : R) (steps paths : Z)
    : locals * outcome MonteCarloResult :=
  monte_carlo_option_price spot maturity rate volatility steps paths fresh.
End Engine.

(** Arithmetic mean, for stating the aggregation. *)
Definition mean (l : list R) : R := fold_right Rplus 0 l / INR (length l).

(** The prices that follow [price] along the samples [zs]. *)
Fixpoint walk (drift diffusion price : R) (zs : list R) : list R :=
  match zs with
  | [] => []
  | z :: rest =>
      let next := price * exp (drift + diffusion * z) in
      next :: walk drift diffusion next rest
  end.

(** The price reached from [price] along the samples [zs]. *)
Definition walk_end (drift diffusion price : R) (zs : list R) : R :=
  fold_left (fun p z => p * exp (drift + diffusion * z)) zs price.

(** A simulated path and the payoff recorded for it. *)
Definition simulated
    (payoff : R -> list R -> outcome R) (spot drift diffusion : R)
    (steps : nat) (path : list R) (v : R) : Prop :=
  exists zs, length zs = steps
    /\ path = spot :: walk drift diffusion spot zs
    /\ payoff (walk_end drift diffusion spot zs) path = Returns v.

(** The call payoff with strike 100, as a callable that always returns. *)
Definition call_100 (price : R) (path : list R) : outcome R :=
  Returns (Rmax (price - 100) 0).

(** Path number [i] when [first] samples were taken before the loop: it is
    driven by the block of [steps] samples that starts at
    [first + i * steps]. *)
Definition block_path
    (gauss : nat -> R) (spot drift diffusion : R) (steps first i : nat) : list R :=
  spot :: walk drift diffusion spot (map gauss (seq (first + i * steps) steps)).

(** The running product: the prices that follow [price] when every step
    multiplies the last price by [factor]. *)
Fixpoint compound (factor price : R) (n : nat) : list R :=
  match n with
  | O => []
  | S n' => let next := price * factor in next :: compound factor next n'
  end.

End MonteCarlo.

(** ** monte_carlo_option.py: payoff expressions *)

(** Python's expression syntax trees, as [ast.parse(..., mode="eval")]
    builds them (Python 3.9 and later: a subscript holds its index
    expression directly).  Constructors carry the names and the field
    order of the classes of the [ast] module. *)
Module ast.

#[local] Set Warnings "-register-all".

Inductive expr_context : Type := Load | Store | Del.
Inductive boolop : Type := And | Or.
Inductive operator : Type :=
| Add | Sub | Mult | MatMult | Div | Mod | Pow
| LShift | RShift | BitOr | BitXor | BitAnd | FloorDiv.
Inductive unaryop : Type := Invert | Not | UAdd | USub.
Inductive cmpop : Type := Eq | NotEq | Lt | LtE | Gt | GtE | Is | IsNot | In | NotIn.

Inductive constant : Type :=
| CInt (z : Z)
| CFloat (x : R)
| CBool (b : bool)
| CStr (s : string)
| CNone
| CEllipsis
| CBytes (s : string)
| CComplex (imag : R).

(** Expression classes that the validator never looks into. *)
Inductive other_expr : Type :=
| NamedExpr | Lambda | Dict | Set_ | ListComp | SetComp | DictComp
| GeneratorExp | Await | Yield | YieldFrom | FormattedValue | JoinedStr | Starred.

Inductive expr : Type :=
| BoolOp (op : boolop) (values : list expr)
| BinOp (left : expr) (op : operator) (right : expr)
| UnaryOp (op : unaryop) (operand : expr)
| IfExp (test body orelse : expr)
| Compare (left : expr) (ops : list cmpop) (comparators : list expr)
| Call (func : expr) (args : list expr) (keywords : list keyword)
| Constant (value : constant)
| Attribute (value : expr) (attr : string) (ctx : expr_context)
| Subscript (value slice : expr) (ctx : expr_context)
| Name (id : string) (ctx : expr_context)
| List (elts : list expr) (ctx : expr_context)
| Tuple (elts : list expr) (ctx : expr_context)
| Slice (lower upper step : option expr)
| Other (class : other_expr)
with keyword : Type :=
| Keyword (arg : option string) (value : expr).

(** The root of a tree parsed in "eval" mode. *)
Inductive tree : Type := Expression (body : expr).

(** Any node that a visitor can be handed. *)
Inductive AST : Type :=
| OfTree (m : tree)
| OfExpr (e : expr)
| OfContext (c : expr_context)
| OfBoolop (o : boolop)
| OfOperator (o : operator)
| OfUnaryop (o : unaryop)
| OfCmpop (o : cmpop)
| OfKeyword (k : keyword).

(** [node.__class__.__name__] *)
Definition class_name (node : AST) : string :=
  match node with
  | OfTree (Expression _) => "Expression"
  | OfExpr e =>
      match e with
      | BoolOp _ _ => "BoolOp"
      | BinOp _ _ _ => "BinOp"
      | UnaryOp _ _ => "UnaryOp"
      | IfExp _ _ _ => "IfExp"
      | Compare _ _ _ => "Compare"
      | Call _ _ _ => "Call"
      | Constant _ => "Constant"
      | Attribute _ _ _ => "Attribute"
      | Subscript _ _ _ => "Subscript"
      | Name _ _ => "Name"
      | List _ _ => "List"
      | Tuple _ _ => "Tuple"
      | Slice _ _ _ => "Slice"
      | Other NamedExpr => "NamedExpr"
      | Other Lambda => "Lambda"
      | Other Dict => "Dict"
      | Other Set_ => "Set"
      | Other ListComp => "ListComp"
      | Other SetComp => "SetComp"
      | Other DictComp => "DictComp"
      | Other GeneratorExp => "GeneratorExp"
      | Other Await => "Await"
      | Other Yield => "Yield"
      | Other YieldFrom => "YieldFrom"
      | Other FormattedValue => "FormattedValue"
      | Other JoinedStr => "JoinedStr"
      | Other Starred => "Starred"
      end
  | OfContext Load => "Load"
  | OfContext Store => "Store"
  | OfContext Del => "Del"
  | OfBoolop And => "And"
  | OfBoolop Or => "Or"
  | OfOperator o =>
      match o with
      | Add => "Add" | Sub => "Sub" | Mult => "Mult" | MatMult => "MatMult"
      | Div => "Div" | Mod => "Mod" | Pow => "Pow" | LShift => "LShift"
      | RShift => "RShift" | BitOr => "BitOr" | BitXor => "BitXor"
      | BitAnd => "BitAnd" | FloorDiv => "FloorDiv"
      end
  | OfUnaryop o =>
      match o with
      | Invert => "Invert" | Not => "Not" | UAdd => "UAdd" | USub => "USub"
      end
  | OfCmpop o =>
      match o with
      | Eq => "Eq" | NotEq => "NotEq" | Lt => "Lt" | LtE => "LtE" | Gt => "Gt"
      | GtE => "GtE" | Is => "Is" | IsNot => "IsNot" | In => "In" | NotIn => "NotIn"
      end
  | OfKeyword _ => "keyword"
  end.

End ast.

Module Payoff.

#[local] Set Warnings "-register-all".

(** ** Values and the evaluation of expressions *)

(** Runtime values.  [VObject] stands for objects that the model does not
    describe further: the [math] module, the empty builtins dictionary, and
    the floats [inf] and [nan], which are no real numbers. *)
Inductive value : Type :=
| VInt (z : Z)
| VFloat (x : R)
| VBool (b : bool)
| VStr (s : string)
| VNone
| VList (items : list value)
| VTuple (items : list value)
| VFunction (module name : string)
| VType (name : string)
| VObject (description : string).

(** What evaluating an expression does.  [Beyond] marks behaviour that
    Python defines and this model leaves out; it is neither a value nor
    an exception. *)
Inductive evaluation (A : Type) : Type :=
| Yields (a : A)
| Throws (e : exn)
| Beyond.
Arguments Yields {A} a.
Arguments Throws {A} e.
Arguments Beyond {A}.

Definition ev_bind {A B} (m : evaluation A) (k : A -> evaluation B) : evaluation B :=
  match m with
  | Yields a => k a
  | Throws e => Throws e
  | Beyond => Beyond
  end.

Declare Scope ev_scope.
Delimit Scope ev_scope with ev.
Notation "x <- m ;; k" := (ev_bind m (fun x => k))
  (at level 100, m at next level, k at level 200, right associativity) : ev_scope.

(** Integers at or above this magnitude do not convert to a float. *)
Definition float_int_bound : Z := (2 ^ 1024 - 2 ^ 970)%Z.

(** Conversion of an [int] operand to [float]. *)
Definition int_to_float (z : Z) : evaluation R :=
  if (Z.abs z <? float_int_bound)%Z then Yields (IZR z) else Throws OverflowError.

(** Numbers: [int], [float] and [bool], with their real value. *)
Definition number (v : value) : option R :=
  match v with
  | VInt z => Some (IZR z)
  | VFloat x => Some x
  | VBool b => Some (if b then 1 else 0)
  | _ => None
  end.

(** The integer behind an [int] or a [bool]. *)
Definition integer (v : value) : option Z :=
  match v with
  | VInt z => Some z
  | VBool b => Some (if b then 1%Z else 0%Z)
  | _ => None
  end.

(** A numeric operand as a float, for mixed arithmetic. *)
Definition as_float (v : value) : evaluation R :=
  match v with
  | VFloat x => Yields x
  | _ => match integer v with
         | Some z => int_to_float z
         | None => Beyond
         end
  end.

Definition Reqb (x y : R) : bool := if Req_dec_T x y then true else false.

(** [left op right] on numbers.  Two integers are combined exactly; as
    soon as one operand is a float, both are converted to floats first.
    Sequences and other operands are beyond the model, and so are powers,
    the quotient of integers too large for a float, and float floor
    division and modulo by a non-zero divisor. *)
Definition binop (op : ast.operator) (l r : value) : evaluation value :=
  match number l, number r with
  | Some _, Some _ =>
      match op with
      | ast.Add | ast.Sub | ast.Mult =>
          let on_int := match op with
                        | ast.Add => Z.add | ast.Sub => Z.sub | _ => Z.mul
                        end in
          let on_float := match op with
                          | ast.Add => Rplus | ast.Sub => Rminus | _ => Rmult
                          end in
          match integer l, integer r with
          | Some a, Some b => Yields (VInt (on_int a b))
          | _, _ =>
              (x <- as_float l ;; y <- as_float r ;; Yields (VFloat (on_float x y)))%ev
          end
      | ast.Div =>
          match integer l, integer r with
          | Some a, Some b =>
              if (b =? 0)%Z then Throws ZeroDivisionError
              else if ((Z.abs a <? float_int_bound) && (Z.abs b <? float_int_bound))%Z
                   then Yields (VFloat (IZR a / IZR b))
                   else Beyond
          | _, _ =>
              (x <- as_float l ;; y <- as_float r ;;
               if Reqb y 0 then Throws ZeroDivisionError else Yields (VFloat (x / y)))%ev
          end
      | ast.FloorDiv | ast.Mod =>
          match integer l, integer r with
          | Some a, Some b =>
              if (b =? 0)%Z then Throws ZeroDivisionError
              else Yields (VInt (match op with
                                 | ast.FloorDiv => Z.div a b
                                 | _ => Z.modulo a b
                                 end))
          | _, _ =>
              (x <- as_float l ;; y <- as_float r ;;
               if Reqb y 0 then Throws ZeroDivisionError else Beyond)%ev
          end
      | _ => Beyond
      end
  | _, _ => Beyond
  end.

(** [+operand] and [-operand] on numbers. *)
Definition unaryop (op : ast.unaryop) (v : value) : evaluation value :=
  match op, v with
  | ast.USub, VFloat x => Yields (VFloat (- x))
  | ast.UAdd, VFloat x => Yields (VFloat x)
  | ast.USub, _ => match integer v with
                   | Some z => Yields (VInt (- z))
                   | None => Beyond
                   end
  | ast.UAdd, _ => match integer v with
                   | Some z => Yields (VInt z)
                   | None => Beyond
                   end
  | _, _ => Beyond
  end.

(** One comparison of a chain, on numbers. *)
Definition compare (op : ast.cmpop) (l r : value) : evaluation bool :=
  match number l, number r with
  | Some x, Some y =>
      match op with
      | ast.Eq => Yields (Reqb x y)
      | ast.NotEq => Yields (negb (Reqb x y))
      | ast.Lt => Yields (Rltb x y)
      | ast.LtE => Yields (Rleb x y)
      | ast.Gt => Yields (Rltb y x)
      | ast.GtE => Yields (Rleb y x)
      | _ => Beyond
      end
  | _, _ => Beyond
  end.

(** Truth value of an object. *)
Definition truthy (v : value) : evaluation bool :=
  match v with
  | VInt z => Yields (negb (z =? 0)%Z)
  | VFloat x => Yields (negb (Reqb x 0))
  | VBool b => Yields b
  | VStr s => Yields (negb (String.eqb s ""))
  | VNone => Yields false
  | VList items | VTuple items => Yields (match items with [] => false | _ => true end)
  | VFunction _ _ | VType _ => Yields true
  | VObject _ => Beyond
  end.

(** [max] or [min] over items: the first item is kept until a later one
    compares strictly beyond it. *)
Fixpoint extremum (larger : bool) (best : value) (items : list value) : evaluation value :=
  match items with
  | [] => Yields best
  | item :: rest =>
      match number item, number best with
      | Some x, Some b =>
          let better := if larger then Rltb b x else Rltb x b in
          extremum larger (if better then item else best) rest
      | _, _ => Beyond
      end
  end.

Definition call_extremum (larger : bool) (args : list value) : evaluation value :=
  match args with
  | [] => Throws TypeError
  | [VList (first :: rest)] | [VTuple (first :: rest)] =>
      match number first with
      | Some _ => extremum larger first rest
      | None => Beyond
      end
  | [_] => Beyond
  | first :: rest =>
      match number first with
      | Some _ => extremum larger first rest
      | None => Beyond
      end
  end.

Definition domain_error : exn := ValueError "math domain error".

(** The functions of [math] that the model describes, on one numeric
    argument.  [exp], [sqrt] and [fabs] convert their argument to a float;
    [log] also takes integers of any size.  [exp] of an argument above 709
    is left out: there the float result overflows.  The text of the domain
    error is that of CPython up to 3.13. *)
Definition call_math (name : string) (args : list value) : evaluation value :=
  match args with
  | [v] =>
      match number v with
      | None => Beyond
      | Some r =>
          if String.eqb name "log" then
            if Rleb r 0 then Throws domain_error else Yields (VFloat (ln r))
          else
            (x <- as_float v ;;
             if String.eqb name "exp" then
               if Rleb x 709 then Yields (VFloat (exp x)) else Beyond
             else if String.eqb name "sqrt" then
               if Rltb x 0 then Throws domain_error else Yields (VFloat (sqrt x))
             else if String.eqb name "fabs" then Yields (VFloat (Rabs x))
             else Beyond)%ev
      end
  | _ => Beyond
  end.

(** A call of [callee] with positional arguments. *)
Definition call (callee : value) (args : list value) : evaluation value :=
  match callee with
  | VFunction "builtins" "max" => call_extremum true args
  | VFunction "builtins" "min" => call_extremum false args
  | VFunction "math" name => call_math name args
  | VInt _ | VFloat _ | VBool _ | VStr _ | VNone | VList _ | VTuple _ => Throws TypeError
  | _ => Beyond
  end.

(** [container[index]] for an integer index into a list or tuple. *)
Definition subscript (container index : value) : evaluation value :=
  match container with
  | VList items | VTuple items =>
      match index with
      | VFloat _ | VStr _ | VNone => Throws TypeError
      | _ => match integer index with
             | Some i => match py_index items i with
                         | Returns v => Yields v
                         | Raises e => Throws e
                         end
             | None => Beyond
             end
      end
  | VInt _ | VFloat _ | VBool _ | VNone => Throws TypeError
  | _ => Beyond
  end.

(** [type(v).__name__] *)
Definition type_name (v : value) : option string :=
  match v with
  | VInt _ => Some "int"
  | VFloat _ => Some "float"
  | VBool _ => Some "bool"
  | VStr _ => Some "str"
  | VNone => Some "NoneType"
  | VList _ => Some "list"
  | VTuple _ => Some "tuple"
  | VFunction _ _ => Some "builtin_function_or_method"
  | VType _ => Some "type"
  | VObject _ => None
  end.

(** [object.attr]: only [__class__] is described. *)
Definition getattr (v : value) (attr : string) : evaluation value :=
  if String.eqb attr "__class__" then
    match type_name v with
    | Some name => Yields (VType name)
    | None => Beyond
    end
  else Beyond.

Definition constant_value (c : ast.constant) : evaluation value :=
  match c with
  | ast.CInt z => Yields (VInt z)
  | ast.CFloat x => Yields (VFloat x)
  | ast.CBool b => Yields (VBool b)
  | ast.CStr s => Yields (VStr s)
  | ast.CNone => Yields VNone
  | _ => Beyond
  end.

(** [float(v)] *)
Definition to_float (v : value) : evaluation R :=
  match v with
  | VFloat x => Yields x
  | VInt _ | VBool _ => as_float v
  | VStr _ | VObject _ => Beyond
  | VNone | VList _ | VTuple _ | VFunction _ _ | VType _ => Throws TypeError
  end.

Section Eval.
(** [eval(compiled, globals, locals)]; a name is looked up in the
    locals, then in the globals, then in the builtins, which are empty. *)
Variables (globals locals : gmap string value).

Definition lookup_name (id : string) : evaluation value :=
  match locals !! id with
  | Some v => Yields v
  | None => match globals !! id with
            | Some v => Yields v
            | None => Throws (NameError id)
            end
  end.

Fixpoint eval (e : ast.expr) : evaluation value :=
  let eval_all := fix eval_all (es : list ast.expr) : evaluation (list value) :=
    match es with
    | [] => Yields []
    | x :: rest => (v <- eval x ;; vs <- eval_all rest ;; Yields (v :: vs))%ev
    end in
  match e with
  | ast.Constant c => constant_value c
  | ast.Name id _ => lookup_name id
  | ast.BinOp l op r => (vl <- eval l ;; vr <- eval r ;; binop op vl vr)%ev
  | ast.UnaryOp op operand => (v <- eval operand ;; unaryop op v)%ev
  | ast.BoolOp op values =>
      (fix chain (es : list ast.expr) : evaluation value :=
         match es with
         | [] => Beyond
         | x :: rest =>
             match rest with
             | [] => eval x
             | _ :: _ =>
                 (v <- eval x ;;
                  t <- truthy v ;;
                  let stop := match op with ast.And => negb t | ast.Or => t end in
                  if stop then Yields v else chain rest)%ev
             end
         end) values
  | ast.Compare l ops comparators =>
      (vl <- eval l ;;
       (fix chain (lhs : value) (ops : list ast.cmpop) (es : list ast.expr)
          {struct es} : evaluation value :=
          match es, ops with
          | x :: rest, op :: ops' =>
              (v <- eval x ;;
               b <- compare op lhs v ;;
               if b then match rest with
                         | [] => Yields (VBool true)
                         | _ :: _ => chain v ops' rest
                         end
               else Yields (VBool false))%ev
          | _, _ => Beyond
          end) vl ops comparators)%ev
  | ast.IfExp test body orelse =>
      (c <- eval test ;; t <- truthy c ;; if t then eval body else eval orelse)%ev
  | ast.Call func args keywords =>
      match keywords with
      | [] => (callee <- eval func ;; vs <- eval_all args ;; call callee vs)%ev
      | _ :: _ => Beyond
      end
  | ast.Attribute v attr _ => (o <- eval v ;; getattr o attr)%ev
  | ast.Subscript v index _ =>
      match index with
      | ast.Slice _ _ _ => Beyond
      | _ => (container <- eval v ;; i <- eval index ;; subscript container i)%ev
      end
  | ast.List elts _ => (vs <- eval_all elts ;; Yields (VList vs))%ev
  | ast.Tuple elts _ => (vs <- eval_all elts ;; Yields (VTuple vs))%ev
  | ast.Slice _ _ _ => Beyond
  | ast.Other _ => Beyond
  end.
End Eval.


(** ** The validator and the compiler *)

Section Host.
(** The host library, which the module calls and does not define:
    [ast.parse(expression, mode="eval")], giving a tree or the text of
    the [SyntaxError]; [ast.dump]; and [dir(math)]. *)
Variable ast_parse : string -> string + ast.tree.
Variable ast_dump : ast.AST -> string.
Variable dir_math : list string.

Definition _allowed_nodes : list string :=
  [ "Expression"; "BinOp"; "UnaryOp"; "BoolOp"; "Compare"; "IfExp"; "Call";
    "Name"; "Load"; "Constant"; "List"; "Tuple"; "Subscript"; "Slice"; "Index";
    "Attribute"; "And"; "Or"; "Eq"; "NotEq"; "Lt"; "LtE"; "Gt"; "GtE";
    "Add"; "Sub"; "Mult"; "Div"; "Pow"; "FloorDiv"; "Mod"; "USub"; "UAdd" ].

Definition _allowed_names : gset string := {[ "price"; "path" ]}.
Definition _helper_functions : list string := [ "max"; "min" ].
Definition _allowed_functions : gset string :=
  list_to_set (filter (fun name => String.prefix "__" name = false) dir_math)
  ∪ list_to_set _helper_functions.

Definition isinstance (node : ast.AST) (classes : list string) : bool :=
  bool_decide (ast.class_name node ∈ classes).

Definition unsupported (node : ast.AST) : outcome unit :=
  Raises (ValueError ("Unsupported expression: " ++ ast_dump node)).

(** [visit] on a node without child nodes: a context or an operator. *)
Definition visit_leaf (node : ast.AST) : outcome unit :=
  if isinstance node _allowed_nodes then Returns tt else unsupported node.

Definition visit_Name (id : string) : outcome unit :=
  if bool_decide (id ∉ _allowed_names) && bool_decide (id ∉ _allowed_functions)
  then Raises (ValueError ("Unknown name in payoff expression: " ++ id))
  else Returns tt.

(** Lines 82-93: the test of [visit_Call] on the callee. *)
Definition check_callee (func : ast.expr) : outcome unit :=
  match func with
  | ast.Attribute receiver attr _ =>
      let ok := match receiver with
                | ast.Name id _ =>
                    String.eqb id "math" && bool_decide (attr ∈ _allowed_functions)
                | _ => false
                end in
      if ok then Returns tt
      else Raises (ValueError "Only math module functions are allowed in calls.")
  | ast.Name id _ =>
      if bool_decide (id ∈ _allowed_functions) then Returns tt
      else Raises (ValueError ("Function " ++ id ++ " is not allowed."))
  | _ => Raises (ValueError "Invalid function call in expression.")
  end.

(** [visit]: the class test, then [visit_Name], [visit_Call] or
    [generic_visit], which visits the child nodes in field order.  The
    classes of [ast.Other] never pass the class test, so that their
    branch is never taken. *)
Fixpoint visit (e : ast.expr) : outcome unit :=
  let visit_all := fix visit_all (es : list ast.expr) : outcome unit :=
    match es with
    | [] => Returns tt
    | x :: rest => (visit x ;; visit_all rest)%out
    end in
  let visit_keywords := fix visit_keywords (ks : list ast.keyword) : outcome unit :=
    match ks with
    | [] => Returns tt
    | k :: rest =>
        ((if isinstance (ast.OfKeyword k) _allowed_nodes
          then match k with ast.Keyword _ v => visit v end
          else unsupported (ast.OfKeyword k)) ;;
         visit_keywords rest)%out
    end in
  let visit_option := fun (o : option ast.expr) =>
    match o with
    | Some x => visit x
    | None => Returns tt
    end in
  if isinstance (ast.OfExpr e) _allowed_nodes then
    match e with
    | ast.Name id _ => visit_Name id
    | ast.Call func args keywords =>
        (check_callee func ;;
         visit func ;; visit_all args ;; visit_keywords keywords)%out
    | ast.BoolOp op values =>
        (visit_leaf (ast.OfBoolop op) ;; visit_all values)%out
    | ast.BinOp l op r =>
        (visit l ;; visit_leaf (ast.OfOperator op) ;; visit r)%out
    | ast.UnaryOp op operand =>
        (visit_leaf (ast.OfUnaryop op) ;; visit operand)%out
    | ast.IfExp test body orelse =>
        (visit test ;; visit body ;; visit orelse)%out
    | ast.Compare l ops comparators =>
        (visit l ;;
         (fix visit_ops (os : list ast.cmpop) : outcome unit :=
            match os with
            | [] => Returns tt
            | o :: rest => (visit_leaf (ast.OfCmpop o) ;; visit_ops rest)%out
            end) ops ;;
         visit_all comparators)%out
    | ast.Constant _ => Returns tt
    | ast.Attribute v _ ctx => (visit v ;; visit_leaf (ast.OfContext ctx))%out
    | ast.Subscript v index ctx =>
        (visit v ;; visit index ;; visit_leaf (ast.OfContext ctx))%out
    | ast.List elts ctx | ast.Tuple elts ctx =>
        (visit_all elts ;; visit_leaf (ast.OfContext ctx))%out
    | ast.Slice lower upper step =>
        (visit_option lower ;; visit_option upper ;; visit_option step)%out
    | ast.Other _ => Returns tt
    end
  else unsupported (ast.OfExpr e).

Definition visit_tree (t : ast.tree) : outcome unit :=
  if isinstance (ast.OfTree t) _allowed_nodes
  then match t with ast.Expression body => visit body end
  else unsupported (ast.OfTree t).

(** [getattr(math, name)]: the constants that are real numbers, and
    functions. *)
Definition math_getattr (name : string) : value :=
  if String.eqb name "pi" then VFloat PI
  else if String.eqb name "e" then VFloat (exp 1)
  else if String.eqb name "tau" then VFloat (2 * PI)
  else if String.eqb name "inf" || String.eqb name "nan"
  then VObject "float that is no real number"
  else VFunction "math" name.

(** Lines 116-118. *)
Definition allowed_globals : gmap string value :=
  let from_math : gmap string value :=
    list_to_map
      (map (fun name => (name, math_getattr name))
           (filter (fun name => name ∈ _allowed_functions) dir_math)) in
  let with_helpers :=
    foldl (fun g func => <[func := VFunction "builtins" func]> g)
          from_math _helper_functions in
  <["__builtins__" := VObject "empty dict"]>
    (<["math" := VObject "module math"]> with_helpers).

(** Lines 120-121: the closure that the compiler returns. *)
Definition payoff (body : ast.expr) (price : R) (path : list R) : evaluation R :=
  let locals : gmap string value :=
    <["price" := VFloat price]> (<["path" := VList (map VFloat path)]> ∅) in
  (v <- eval allowed_globals locals body ;; to_float v)%ev.

Definition payoff_from_expression (expression : string)
    : outcome (R -> list R -> evaluation R) :=
  match ast_parse expression with
  | inl exc => Raises (ValueError ("Invalid payoff expression: " ++ exc))
  | inr syntax_tree =>
      (visit_tree syntax_tree ;;
       match syntax_tree with
       | ast.Expression body => Returns (payoff body)
       end)%out
  end.
End Host.

(** *** Vocabulary of the properties *)

Section ValidatorLoops.
Variable ast_dump : ast.AST -> string.
Variable dir_math : list string.

#[local] Abbreviation visit := (visit ast_dump dir_math).

(** The loops of [generic_visit], named. *)
Definition visit_all : list ast.expr -> outcome unit :=
  fix visit_all (es : list ast.expr) : outcome unit :=
    match es with
    | [] => Returns tt
    | x :: rest => (visit x ;; visit_all rest)%out
    end.

Definition visit_keywords : list ast.keyword -> outcome unit :=
  fix visit_keywords (ks : list ast.keyword) : outcome unit :=
    match ks with
    | [] => Returns tt
    | k :: rest =>
        ((if isinstance (ast.OfKeyword k) _allowed_nodes
          then match k with ast.Keyword _ v => visit v end
          else unsupported ast_dump (ast.OfKeyword k)) ;;
         visit_keywords rest)%out
    end.

Definition visit_ops : list ast.cmpop -> outcome unit :=
  fix visit_ops (os : list ast.cmpop) : outcome unit :=
    match os with
    | [] => Returns tt
    | o :: rest => (visit_leaf ast_dump (ast.OfCmpop o) ;; visit_ops rest)%out
    end.

Definition visit_option (o : option ast.expr) : outcome unit :=
  match o with
  | Some x => visit x
  | None => Returns tt
  end.

Definition visit_children (e : ast.expr) : outcome unit :=
  match e with
  | ast.Name id _ => visit_Name dir_math id
  | ast.Call func args keywords =>
      (check_callee dir_math func ;;
       visit func ;; visit_all args ;; visit_keywords keywords)%out
  | ast.BoolOp op values =>
      (visit_leaf ast_dump (ast.OfBoolop op) ;; visit_all values)%out
  | ast.BinOp l op r =>
      (visit l ;; visit_leaf ast_dump (ast.OfOperator op) ;; visit r)%out
  | ast.UnaryOp op operand =>
      (visit_leaf ast_dump (ast.OfUnaryop op) ;; visit operand)%out
  | ast.IfExp test body orelse =>
      (visit test ;; visit body ;; visit orelse)%out
  | ast.Compare l ops comparators =>
      (visit l ;; visit_ops ops ;; visit_all comparators)%out
  | ast.Constant _ => Returns tt
  | ast.Attribute v _ ctx =>
      (visit v ;; visit_leaf ast_dump (ast.OfContext ctx))%out
  | ast.Subscript v index ctx =>
      (visit v ;; visit index ;; visit_leaf ast_dump (ast.OfContext ctx))%out
  | ast.List elts ctx | ast.Tuple elts ctx =>
      (visit_all elts ;; visit_leaf ast_dump (ast.OfContext ctx))%out
  | ast.Slice lower upper step =>
      (visit_option lower ;; visit_option upper ;; visit_option step)%out
  | ast.Other _ => Returns tt
  end.
End ValidatorLoops.

Section EvaluatorLoops.
Variables (globals locals : gmap string value).

#[local] Abbreviation eval := (eval globals locals).

(** The loops of the evaluator, named. *)
Definition eval_all : list ast.expr -> evaluation (list value) :=
  fix eval_all (es : list ast.expr) : evaluation (list value) :=
    match es with
    | [] => Yields []
    | x :: rest => (v <- eval x ;; vs <- eval_all rest ;; Yields (v :: vs))%ev
    end.

Definition bool_chain (op : ast.boolop) : list ast.expr -> evaluation value :=
  fix chain (es : list ast.expr) : evaluation value :=
    match es with
    | [] => Beyond
    | x :: rest =>
        match rest with
        | [] => eval x
        | _ :: _ =>
            (v <- eval x ;;
             t <- truthy v ;;
             let stop := match op with ast.And => negb t | ast.Or => t end in
             if stop then Yields v else chain rest)%ev
        end
    end.

Definition compare_chain
    : value -> list ast.cmpop -> list ast.expr -> evaluation value :=
  fix chain (lhs : value) (ops : list ast.cmpop) (es : list ast.expr)
      {struct es} : evaluation value :=
    match es, ops with
    | x :: rest, op :: ops' =>
        (v <- eval x ;;
         b <- compare op lhs v ;;
         if b then match rest with
                   | [] => Yields (VBool true)
                   | _ :: _ => chain v ops' rest
                   end
         else Yields (VBool false))%ev
    | _, _ => Beyond
    end.

Definition eval_node (e : ast.expr) : evaluation value :=
  match e with
  | ast.Constant c => constant_value c
  | ast.Name id _ => lookup_name globals locals id
  | ast.BinOp l op r => (vl <- eval l ;; vr <- eval r ;; binop op vl vr)%ev
  | ast.UnaryOp op operand => (v <- eval operand ;; unaryop op v)%ev
  | ast.BoolOp op values => bool_chain op values
  | ast.Compare l ops comparators =>
      (vl <- eval l ;; compare_chain vl ops comparators)%ev
  | ast.IfExp test body orelse =>
      (c <- eval test ;; t <- truthy c ;; if t then eval body else eval orelse)%ev
  | ast.Call func args keywords =>
      match keywords with
      | [] => (callee <- eval func ;; vs <- eval_all args ;; call callee vs)%ev
      | _ :: _ => Beyond
      end
  | ast.Attribute v attr _ => (o <- eval v ;; getattr o attr)%ev
  | ast.Subscript v index _ =>
      match index with
      | ast.Slice _ _ _ => Beyond
      | _ => (container <- eval v ;; i <- eval index ;; subscript container i)%ev
      end
  | ast.List elts _ => (vs <- eval_all elts ;; Yields (VList vs))%ev
  | ast.Tuple elts _ => (vs <- eval_all elts ;; Yields (VTuple vs))%ev
  | ast.Slice _ _ _ => Beyond
  | ast.Other _ => Beyond
  end.
End EvaluatorLoops.

(** The locals of a call of the compiled payoff. *)
Definition payoff_locals (price : R) (path : list R) : gmap string value :=
  <["price" := VFloat price]> (<["path" := VList (map VFloat path)]> ∅).

(** The errors that evaluating an operation can raise by itself. *)
Definition runtime_error (e : exn) : Prop :=
  e = ZeroDivisionError \/ e = domain_error \/ e = IndexError
  \/ e = TypeError \/ e = OverflowError.

(** An evaluation that throws nothing but such errors. *)
Definition safe {A} (m : evaluation A) : Prop :=
  forall ex, m = Throws ex -> runtime_error ex.

(** Induction on expressions, with the hypothesis on every element of
    the lists that evaluation descends into. *)
Section ExprInduction.
Variable P : ast.expr -> Prop.
Hypothesis P_BoolOp : forall op values, Forall P values -> P (ast.BoolOp op values).
Hypothesis P_BinOp : forall l op r, P l -> P r -> P (ast.BinOp l op r).
Hypothesis P_UnaryOp : forall op operand, P operand -> P (ast.UnaryOp op operand).
Hypothesis P_IfExp :
  forall test body orelse, P test -> P body -> P orelse -> P (ast.IfExp test body orelse).
Hypothesis P_Compare :
  forall l ops comparators, P l -> Forall P comparators -> P (ast.Compare l ops comparators).
Hypothesis P_Call :
  forall func args keywords, P func -> Forall P args -> P (ast.Call func args keywords).
Hypothesis P_Constant : forall c, P (ast.Constant c).
Hypothesis P_Attribute : forall v attr ctx, P v -> P (ast.Attribute v attr ctx).
Hypothesis P_Subscript :
  forall v index ctx, P v -> P index -> P (ast.Subscript v index ctx).
Hypothesis P_Name : forall id ctx, P (ast.Name id ctx).
Hypothesis P_List : forall elts ctx, Forall P elts -> P (ast.List elts ctx).
Hypothesis P_Tuple : forall elts ctx, Forall P elts -> P (ast.Tuple elts ctx).
Hypothesis P_Slice : forall lower upper step, P (ast.Slice lower upper step).
Hypothesis P_Other : forall class, P (ast.Other class).

Fixpoint expr_induction (e : ast.expr) : P e :=
  let all := fix all (es : list ast.expr) : Forall P es :=
    match es with
    | [] => @List.Forall_nil _ P
    | x :: rest => @List.Forall_cons _ P x rest (expr_induction x) (all rest)
    end in
  match e with
  | ast.BoolOp op values => P_BoolOp op values (all values)
  | ast.BinOp l op r => P_BinOp l op r (expr_induction l) (expr_induction r)
  | ast.UnaryOp op operand => P_UnaryOp op operand (expr_induction operand)
  | ast.IfExp test body orelse =>
      P_IfExp test body orelse
        (expr_induction test) (expr_induction body) (expr_induction orelse)
  | ast.Compare l ops comparators =>
      P_Compare l ops comparators (expr_induction l) (all comparators)
  | ast.Call func args keywords =>
      P_Call func args keywords (expr_induction func) (all args)
  | ast.Constant c => P_Constant c
  | ast.Attribute v attr ctx => P_Attribute v attr ctx (expr_induction v)
  | ast.Subscript v index ctx =>
      P_Subscript v index ctx (expr_induction v) (expr_induction index)
  | ast.Name id ctx => P_Name id ctx
  | ast.List elts ctx => P_List elts ctx (all elts)
  | ast.Tuple elts ctx => P_Tuple elts ctx (all elts)
  | ast.Slice lower upper step => P_Slice lower upper step
  | ast.Other class => P_Other class
  end.
End ExprInduction.

(** [dir(math)] of CPython 3.11. *)
Definition cpython_dir_math : list string :=
  [ "__doc__"; "__loader__"; "__name__"; "__package__"; "__spec__";
    "acos"; "acosh"; "asin"; "asinh"; "atan"; "atan2"; "atanh"; "cbrt"; "ceil";
    "comb"; "copysign"; "cos"; "cosh"; "degrees"; "dist"; "e"; "erf"; "erfc";
    "exp"; "exp2"; "expm1"; "fabs"; "factorial"; "floor"; "fmod"; "frexp";
    "fsum"; "gamma"; "gcd"; "hypot"; "inf"; "isclose"; "isfinite"; "isinf";
    "isnan"; "isqrt"; "lcm"; "ldexp"; "lgamma"; "log"; "log10"; "log1p"; "log2";
    "modf"; "nan"; "nextafter"; "perm"; "pi"; "pow"; "prod"; "radians";
    "remainder"; "sin"; "sinh"; "sqrt"; "tan"; "tanh"; "tau"; "trunc"; "ulp" ].

(** The four expressions of the specification, as CPython parses them. *)
Definition tree_import : ast.tree :=
  ast.Expression
    (ast.Call (ast.Name "__import__" ast.Load) [ast.Constant (ast.CStr "os")] []).
Definition tree_class : ast.tree :=
  ast.Expression (ast.Attribute (ast.Name "price" ast.Load) "__class__" ast.Load).
Definition tree_call_100 : ast.tree :=
  ast.Expression
    (ast.Call (ast.Name "max" ast.Load)
       [ast.BinOp (ast.Name "price" ast.Load) ast.Sub (ast.Constant (ast.CInt 100));
        ast.Constant (ast.CInt 0)] []).

Definition tree_quotient : ast.tree :=
  ast.Expression
    (ast.BinOp (ast.Name "price" ast.Load) ast.Div (ast.Constant (ast.CInt 0))).
Definition tree_log : ast.tree :=
  ast.Expression
    (ast.Call (ast.Name "log" ast.Load)
       [ast.BinOp (ast.Name "price" ast.Load) ast.Sub (ast.Constant (ast.CInt 200))]
       []).

Definition cpython_parse (expression : string) : string + ast.tree :=
  if String.eqb expression "import os" then inl "invalid syntax (<unknown>, line 1)"
  else if String.eqb expression "__import__('os')" then inr tree_import
  else if String.eqb expression "price.__class__" then inr tree_class
  else if String.eqb expression "max(price - 100, 0)" then inr tree_call_100
  else if String.eqb expression "price / 0" then inr tree_quotient
  else if String.eqb expression "log(price - 200)" then inr tree_log
  else inl "not tabulated".

End Payoff.

(** ** Syntax trees: the nodes, names and calls of an expression *)

Module Trees.

#[local] Set Warnings "-register-all".

(** The nodes of the tree of an expression, in the order in which a
    generic visitor reaches them: the expression itself, then its fields.
    The context of a [Name] is left out: [visit_Name] does not descend
    into a name. *)
Fixpoint nodes (e : ast.expr) : list ast.AST :=
  let nodes_all := fix nodes_all (es : list ast.expr) : list ast.AST :=
    match es with
    | [] => []
    | x :: rest => nodes x ++ nodes_all rest
    end in
  let nodes_keywords := fix nodes_keywords (ks : list ast.keyword) : list ast.AST :=
    match ks with
    | [] => []
    | k :: rest =>
        (ast.OfKeyword k :: match k with ast.Keyword _ v => nodes v end)
        ++ nodes_keywords rest
    end in
  let nodes_option := fun (o : option ast.expr) =>
    match o with
    | Some x => nodes x
    | None => []
    end in
  ast.OfExpr e ::
  match e with
  | ast.BoolOp op values => ast.OfBoolop op :: nodes_all values
  | ast.BinOp l op r => nodes l ++ ast.OfOperator op :: nodes r
  | ast.UnaryOp op operand => ast.OfUnaryop op :: nodes operand
  | ast.IfExp test body orelse => nodes test ++ nodes body ++ nodes orelse
  | ast.Compare l ops comparators =>
      nodes l ++ map ast.OfCmpop ops ++ nodes_all comparators
  | ast.Call func args keywords =>
      nodes func ++ nodes_all args ++ nodes_keywords keywords
  | ast.Constant _ => []
  | ast.Attribute v _ ctx => nodes v ++ [ast.OfContext ctx]
  | ast.Subscript v index ctx => nodes v ++ nodes index ++ [ast.OfContext ctx]
  | ast.Name _ _ => []
  | ast.List elts ctx | ast.Tuple elts ctx => nodes_all elts ++ [ast.OfContext ctx]
  | ast.Slice lower upper step =>
      nodes_option lower ++ nodes_option upper ++ nodes_option step
  | ast.Other _ => []
  end.

(** The identifier of a [Name] node. *)
Definition name_of (node : ast.AST) : option string :=
  match node with
  | ast.OfExpr (ast.Name id _) => Some id
  | _ => None
  end.

(** The callee and the number of keyword arguments of a [Call] node. *)
Definition call_of (node : ast.AST) : option (ast.expr * nat) :=
  match node with
  | ast.OfExpr (ast.Call func _ keywords) => Some (func, length keywords)
  | _ => None
  end.

(** Induction on expressions with the hypothesis on every child
    expression, the bounds of a slice included; the values of keyword
    arguments are left out. *)
Section DeepInduction.
Variable P : ast.expr -> Prop.

Definition on_option (o : option ast.expr) : Prop :=
  match o with
  | Some x => P x
  | None => True
  end.

Hypothesis P_BoolOp : forall op values, Forall P values -> P (ast.BoolOp op values).
Hypothesis P_BinOp : forall l op r, P l -> P r -> P (ast.BinOp l op r).
Hypothesis P_UnaryOp : forall op operand, P operand -> P (ast.UnaryOp op operand).
Hypothesis P_IfExp :
  forall test body orelse, P test -> P body -> P orelse -> P (ast.IfExp test body orelse).
Hypothesis P_Compare :
  forall l ops comparators, P l -> Forall P comparators -> P (ast.Compare l ops comparators).
Hypothesis P_Call :
  forall func args keywords, P func -> Forall P args -> P (ast.Call func args keywords).
Hypothesis P_Constant : forall c, P (ast.Constant c).
Hypothesis P_Attribute : forall v attr ctx, P v -> P (ast.Attribute v attr ctx).
Hypothesis P_Subscript :
  forall v index ctx, P v -> P index -> P (ast.Subscript v index ctx).
Hypothesis P_Name : forall id ctx, P (ast.Name id ctx).
Hypothesis P_List : forall elts ctx, Forall P elts -> P (ast.List elts ctx).
Hypothesis P_Tuple : forall elts ctx, Forall P elts -> P (ast.Tuple elts ctx).
Hypothesis P_Slice :
  forall lower upper step,
    on_option lower -> on_option upper -> on_option step ->
    P (ast.Slice lower upper step).
Hypothesis P_Other : forall class, P (ast.Other class).

Fixpoint deep_induction (e : ast.expr) : P e :=
  let all := fix all (es : list ast.expr) : Forall P es :=
    match es with
    | [] => @List.Forall_nil _ P
    | x :: rest => @List.Forall_cons _ P x rest (deep_induction x) (all rest)
    end in
  let opt := fun (o : option ast.expr) =>
    match o return on_option o with
    | Some x => deep_induction x
    | None => I
    end in
  match e with
  | ast.BoolOp op values => P_BoolOp op values (all values)
  | ast.BinOp l op r => P_BinOp l op r (deep_induction l) (deep_induction r)
  | ast.UnaryOp op operand => P_UnaryOp op operand (deep_induction operand)
  | ast.IfExp test body orelse =>
      P_IfExp test body orelse
        (deep_induction test) (deep_induction body) (deep_induction orelse)
  | ast.Compare l ops comparators =>
      P_Compare l ops comparators (deep_induction l) (all comparators)
  | ast.Call func args keywords =>
      P_Call func args keywords (deep_induction func) (all args)
  | ast.Constant c => P_Constant c
  | ast.Attribute v attr ctx => P_Attribute v attr ctx (deep_induction v)
  | ast.Subscript v index ctx =>
      P_Subscript v index ctx (deep_induction v) (deep_induction index)
  | ast.Name id ctx => P_Name id ctx
  | ast.List elts ctx => P_List elts ctx (all elts)
  | ast.Tuple elts ctx => P_Tuple elts ctx (all elts)
  | ast.Slice lower upper step =>
      P_Slice lower upper step (opt lower) (opt upper) (opt step)
  | ast.Other class => P_Other class
  end.
End DeepInduction.

(** The loops of [nodes], named. *)
Definition nodes_all : list ast.expr -> list ast.AST :=
  fix nodes_all (es : list ast.expr) : list ast.AST :=
    match es with
    | [] => []
    | x :: rest => nodes x ++ nodes_all rest
    end.

Definition nodes_keywords : list ast.keyword -> list ast.AST :=
  fix nodes_keywords (ks : list ast.keyword) : list ast.AST :=
    match ks with
    | [] => []
    | k :: rest =>
        (ast.OfKeyword k :: match k with ast.Keyword _ v => nodes v end)
        ++ nodes_keywords rest
    end.

Definition nodes_option (o : option ast.expr) : list ast.AST :=
  match o with
  | Some x => nodes x
  | None => []
  end.

Definition nodes_below (e : ast.expr) : list ast.AST :=
  match e with
  | ast.BoolOp op values => ast.OfBoolop op :: nodes_all values
  | ast.BinOp l op r => nodes l ++ ast.OfOperator op :: nodes r
  | ast.UnaryOp op operand => ast.OfUnaryop op :: nodes operand
  | ast.IfExp test body orelse => nodes test ++ nodes body ++ nodes orelse
  | ast.Compare l ops comparators =>
      nodes l ++ map ast.OfCmpop ops ++ nodes_all comparators
  | ast.Call func args keywords =>
      nodes func ++ nodes_all args ++ nodes_keywords keywords
  | ast.Constant _ => []
  | ast.Attribute v _ ctx => nodes v ++ [ast.OfContext ctx]
  | ast.Subscript v index ctx => nodes v ++ nodes index ++ [ast.OfContext ctx]
  | ast.Name _ _ => []
  | ast.List elts ctx | ast.Tuple elts ctx => nodes_all elts ++ [ast.OfContext ctx]
  | ast.Slice lower upper step =>
      nodes_option lower ++ nodes_option upper ++ nodes_option step
  | ast.Other _ => []
  end.

(** What the validator lets through, node by node: a whitelisted class; for
    a name, one of the two inputs or a registered function; for a call, no
    keyword argument and a callee that is either the bare name of a
    registered function or [math.<name>] for a registered name. *)
Definition accepted_node (dir_math : list string) (node : ast.AST) : Prop :=
  ast.class_name node ∈ Payoff._allowed_nodes
  /\ (forall id, name_of node = Some id ->
        id ∈ Payoff._allowed_names \/ id ∈ Payoff._allowed_functions dir_math)
  /\ (forall func keywords, call_of node = Some (func, keywords) ->
        keywords = 0%nat
        /\ ((exists id ctx, func = ast.Name id ctx
                            /\ id ∈ Payoff._allowed_functions dir_math)
            \/ (exists attr ctx ctx',
                  func = ast.Attribute (ast.Name "math" ctx) attr ctx'
                  /\ attr ∈ Payoff._allowed_functions dir_math))).

(** What the validator has done at a node that it passed: [visit] returned
    on an expression, the class test passed on a context or operator. *)
Definition visited (ast_dump : ast.AST -> string) (dir_math : list string)
    (node : ast.AST) : Prop :=
  match node with
  | ast.OfExpr e => Payoff.visit ast_dump dir_math e = Returns tt
  | _ => Payoff.visit_leaf ast_dump node = Returns tt
  end.

(** An outcome whose only errors are [ValueError]s. *)
Definition value_errors (o : outcome unit) : Prop :=
  forall ex, o = Raises ex -> exists message, ex = ValueError message.

End Trees.

(** ** web_option_server.py: input parsing and result formatting

    The two helpers of the server that do not touch the web framework.
    The route handlers [index] and [api_price] are not modelled. *)

Module WebServer.

#[local] Set Warnings "-register-all".

(** The values of the mapping handed to [_parse_inputs]: the strings of a
    submitted form, or whatever a JSON body decodes to.  A [DFloat] is a
    real number, as everywhere in this file. *)
Inductive datum : Type :=
| DNone
| DBool (b : bool)
| DInt (z : Z)
| DFloat (x : R)
| DStr (s : string)
| DList (items : list datum)
| DDict (items : list (string * datum)).

(** [type(v).__name__]. *)
Definition type_name (v : datum) : string :=
  match v with
  | DNone => "NoneType"
  | DBool _ => "bool"
  | DInt _ => "int"
  | DFloat _ => "float"
  | DStr _ => "str"
  | DList _ => "list"
  | DDict _ => "dict"
  end.

(** [bool(v)]. *)
Definition truth (v : datum) : bool :=
  match v with
  | DNone => false
  | DBool b => b
  | DInt z => negb (z =? 0)%Z
  | DFloat x => negb (Payoff.Reqb x 0)
  | DStr s => negb (String.eqb s "")
  | DList items => match items with [] => false | _ => true end
  | DDict items => match items with [] => false | _ => true end
  end.

(** The errors of the parser: the exceptions of the pricers, and
    [AttributeError]. *)
Inductive error : Type :=
| Builtin (e : exn)
| AttributeError (message : string).

Inductive attempt (A : Type) : Type :=
| Done (a : A)
| Failed (e : error).
Arguments Done {A} a.
Arguments Failed {A} e.

Definition attempt_bind {A B} (m : attempt A) (k : A -> attempt B) : attempt B :=
  match m with
  | Done a => k a
  | Failed e => Failed e
  end.

Declare Scope try_scope.
Delimit Scope try_scope with try.
Notation "x <- m ;; k" := (attempt_bind m (fun x => k))
  (at level 100, m at next level, k at level 200, right associativity) : try_scope.

(** [int(x)] on a float: rounding towards zero. *)
Definition truncate (x : R) : Z :=
  if Rle_dec 0 x then Int_part x else (- Int_part (- x))%Z.

(** The parameters that [_parse_inputs] returns, a dictionary with these
    six keys. *)
Record params : Type := {
  spot : R;
  maturity : R;
  rate : R;
  volatility : R;
  steps : Z;
  paths : Z
}.

Section Parser.
(** The host library: [float(s)] and [int(s)] on a string, [None] where
    Python raises [ValueError]; and [s.strip()]. *)
Variable float_of_str : string -> option R.
Variable int_of_str : string -> option Z.
Variable strip : string -> string.

(** [float(value)]. *)
Definition float (value : datum) : attempt R :=
  match value with
  | DFloat x => Done x
  | DInt z =>
      if (Z.abs z <? Payoff.float_int_bound)%Z then Done (IZR z)
      else Failed (Builtin OverflowError)
  | DBool b => Done (if b then 1 else 0)
  | DStr s =>
      match float_of_str s with
      | Some x => Done x
      | None => Failed (Builtin (ValueError ("could not convert string to float: " ++ s)))
      end
  | DNone | DList _ | DDict _ => Failed (Builtin TypeError)
  end.

(** [int(value)]. *)
Definition int (value : datum) : attempt Z :=
  match value with
  | DInt z => Done z
  | DBool b => Done (if b then 1 else 0)%Z
  | DFloat x => Done (truncate x)
  | DStr s =>
      match int_of_str s with
      | Some z => Done z
      | None => Failed (Builtin (ValueError ("invalid literal for int(): " ++ s)))
      end
  | DNone | DList _ | DDict _ => Failed (Builtin TypeError)
  end.

(** [data.get(name, default)]. *)
Definition get (data : gmap string datum) (name : string) (default : datum) : datum :=
  match data !! name with
  | Some v => v
  | None => default
  end.

(** Lines 27-32. *)
Definition as_float (data : gmap string datum) (name : string) : attempt R :=
  match float (get data name (DStr "")) with
  | Done x => Done x
  | Failed (Builtin TypeError) | Failed (Builtin (ValueError _)) =>
      Failed (Builtin (ValueError (name ++ " must be a number.")))
  | Failed e => Failed e
  end.

(** Lines 34-42. *)
Definition as_int (data : gmap string datum) (name : string) : attempt Z :=
  match int (get data name (DStr "")) with
  | Done int_value =>
      if (int_value <=? 0)%Z
      then Failed (Builtin (ValueError (name ++ " must be positive.")))
      else Done int_value
  | Failed (Builtin TypeError) | Failed (Builtin (ValueError _)) =>
      Failed (Builtin (ValueError (name ++ " must be an integer.")))
  | Failed e => Failed e
  end.

(** [value.strip()]: only a string has the method. *)
Definition call_strip (value : datum) : attempt string :=
  match value with
  | DStr s => Done (strip s)
  | _ => Failed (AttributeError
                   ("'" ++ type_name value ++ "' object has no attribute 'strip'"))
  end.

Definition _parse_inputs (data : gmap string datum) : attempt (params * string) :=
  (payoff_expression <-
     (let value := get data "payoff" DNone in
      call_strip (if truth value then value else DStr "")) ;;
   if String.eqb payoff_expression ""
   then Failed (Builtin (ValueError "payoff expression is required."))
   else
     spot <- as_float data "spot" ;;
     maturity <- as_float data "maturity" ;;
     rate <- as_float data "rate" ;;
     volatility <- as_float data "volatility" ;;
     steps <- as_int data "steps" ;;
     paths <- as_int data "paths" ;;
     Done ({| spot := spot; maturity := maturity; rate := rate;
              volatility := volatility; steps := steps; paths := paths |},
           payoff_expression))%try.
End Parser.

(** The view of a result that [_format_result] returns, a dictionary with
    these five keys. *)
Record view : Type := {
  view_price : R;
  sample_payoffs : list R;
  sample_paths : list (list R);
  path_count : Z;
  view_steps : Z
}.

Definition _format_result (result : MonteCarlo.MonteCarloResult) : outcome view :=
  let sample_paths := take 3 (MonteCarlo.paths result) in
  let sample_payoffs := take 5 (MonteCarlo.payoffs result) in
  outcome_bind
    (match MonteCarlo.paths result with
     | _ :: _ =>
         outcome_bind (py_index (MonteCarlo.paths result) 0)
           (fun first => Returns (Z.of_nat (length first) - 1)%Z)
     | [] => Returns 0%Z
     end)
    (fun steps =>
       Returns {| view_price := MonteCarlo.price result;
                  sample_payoffs := sample_payoffs;
                  sample_paths := sample_paths;
                  path_count := Z.of_nat (length (MonteCarlo.paths result));
                  view_steps := steps |}).

(** Host functions for examples: decimal digits, and a [strip] on strings
    that have no white space at their ends. *)
Definition digits_value (s : string) : option Z :=
  if String.eqb s "" then None
  else
    fold_left (fun acc c =>
                 match acc with
                 | Some n =>
                     let d := (Z.of_N (Ascii.N_of_ascii c) - 48)%Z in
                     if ((0 <=? d) && (d <=? 9))%Z then Some (10 * n + d)%Z else None
                 | None => None
                 end)
              (String.list_ascii_of_string s) (Some 0%Z).

Definition digits_float (s : string) : option R :=
  match digits_value s with
  | Some z => Some (IZR z)
  | None => None
  end.

End WebServer.
(** ** Running monadic code *)

Section Run.
Context {S : Type}.

Lemma bind_returns {A B} (m : M S A) (k : A -> M S B) s s' a :
  m s = (s', Returns a) -> bind m k s = k a s'.
Proof. intros H. unfold bind. now rewrite H. Qed.

Lemma bind_raises {A B} (m : M S A) (k : A -> M S B) s s' e :
  m s = (s', Raises e) -> bind m k s = (s', Raises e).
Proof. intros H. unfold bind. now rewrite H. Qed.

Lemma for_each_app {A} (l1 l2 : list A) (body : A -> M S unit) s :
  for_each (l1 ++ l2) body s = (for_each l1 body ;; for_each l2 body) s.
Proof.
  revert s. induction l1 as [|x l1 IH]; intros s; simpl.
  - reflexivity.
  - unfold bind. destruct (body x s) as [s1 [[]|e]]; [|reflexivity].
    rewrite IH. reflexivity.
Qed.

Lemma for_each_ext {A} (l : list A) (body body' : A -> M S unit) s :
  (forall x s, x ∈ l -> body x s = body' x s) ->
  for_each l body s = for_each l body' s.
Proof.
  revert s. induction l as [|x l IH]; intros s Hb; simpl; [reflexivity|].
  unfold bind. rewrite Hb by left.
  destruct (body' x s) as [s1 [[]|e]]; [|reflexivity].
  apply IH. intros y s2 Hy. apply Hb. now right.
Qed.

(** A loop body that leaves the state alone and returns [g x]
    collects [map g l]. *)
Lemma collect_pure {A B} (l : list A) (body : A -> M S B) (g : A -> B) s :
  (forall x, x ∈ l -> body x s = (s, Returns (g x))) ->
  collect l body s = (s, Returns (map g l)).
Proof.
  induction l as [|x l IH]; intros Hb; simpl; [reflexivity|].
  rewrite (bind_returns _ _ s s (g x)) by (apply Hb; left).
  rewrite (bind_returns _ _ s s (map g l)); [reflexivity|].
  apply IH. intros y Hy. apply Hb. now right.
Qed.
End Run.

Lemma py_index_lookup {A} (l : list A) (i : Z) x :
  (0 <= i)%Z -> l !! Z.to_nat i = Some x -> py_index l i = Returns x.
Proof.
  intros Hi Hx. unfold py_index.
  apply lookup_lt_Some in Hx as Hlt.
  destruct (Z.ltb_spec i 0); [lia|].
  destruct (Z.ltb_spec i 0); [lia|].
  destruct (Z.leb_spec (Z.of_nat (length l)) i); [lia|]. simpl.
  now rewrite Hx.
Qed.

Lemma py_index_last {A} (l : list A) x :
  l !! (length l - 1)%nat = Some x -> py_index l (-1) = Returns x.
Proof.
  intros Hx. unfold py_index.
  apply lookup_lt_Some in Hx as Hlt.
  change (-1 <? 0)%Z with true. cbv iota.
  destruct (Z.ltb_spec (-1 + Z.of_nat (length l)) 0); [lia|].
  destruct (Z.leb_spec (Z.of_nat (length l)) (-1 + Z.of_nat (length l))); [lia|]. simpl.
  replace (Z.to_nat (-1 + Z.of_nat (length l))) with (length l - 1)%nat by lia.
  now rewrite Hx.
Qed.

Lemma py_setitem_nat {A} (l : list A) (i : Z) v :
  (0 <= i < Z.of_nat (length l))%Z ->
  py_setitem l i v = Returns (<[Z.to_nat i := v]> l).
Proof.
  intros Hi. unfold py_setitem.
  destruct (Z.ltb_spec i 0); [lia|].
  destruct (Z.ltb_spec i 0); [lia|].
  destruct (Z.leb_spec (Z.of_nat (length l)) i); [lia|]. reflexivity.
Qed.

Lemma py_setitem_last {A} (l : list A) v :
  (0 < length l)%nat ->
  py_setitem l (-1) v = Returns (<[(length l - 1)%nat := v]> l).
Proof.
  intros Hl. unfold py_setitem.
  change (-1 <? 0)%Z with true. cbv iota.
  destruct (Z.ltb_spec (-1 + Z.of_nat (length l)) 0); [lia|].
  destruct (Z.leb_spec (Z.of_nat (length l)) (-1 + Z.of_nat (length l))); [lia|]. simpl.
  now replace (Z.to_nat (-1 + Z.of_nat (length l))) with (length l - 1)%nat by lia.
Qed.

Lemma Rleb_true x y : Rleb x y = true <-> x <= y.
Proof. unfold Rleb. destruct (Rle_dec x y); split; intros; try easy. Qed.

Lemma Rltb_true x y : Rltb x y = true <-> x < y.
Proof. unfold Rltb. destruct (Rlt_dec x y); split; intros; try easy. Qed.

Lemma Rleb_false x y : Rleb x y = false <-> y < x.
Proof. unfold Rleb. destruct (Rle_dec x y); split; intros; try easy; lra. Qed.

Lemma Rltb_false x y : Rltb x y = false <-> y <= x.
Proof. unfold Rltb. destruct (Rlt_dec x y); split; intros; try easy; lra. Qed.

Lemma py_div_nonzero x y : y <> 0 -> py_div x y = Returns (x / y).
Proof. intros H. unfold py_div. now destruct (Req_dec_T y 0). Qed.

Lemma py_div_zero x : py_div x 0 = Raises ZeroDivisionError.
Proof. unfold py_div. now destruct (Req_dec_T 0 0). Qed.

Lemma py_max_Rmax a b : py_max a b = Rmax a b.
Proof.
  unfold py_max, Rmax. destruct (Rlt_dec a b), (Rle_dec a b); try reflexivity; lra.
Qed.

Lemma exp_pow_nat (x : R) (n : nat) : exp x ^ n = exp (INR n * x).
Proof.
  induction n as [|n IH].
  - simpl. now rewrite Rmult_0_l, exp_0.
  - rewrite S_INR. simpl pow. rewrite IH, <- exp_plus. f_equal. ring.
Qed.

(** ** The binomial lattice pricer *)

Module BinomialProofs.
Import Binomial.

Lemma range_succ (n : nat) : range (Z.of_nat n + 1) = seq 0 (S n).
Proof. unfold range. f_equal. lia. Qed.

Lemma rev_range_succ (n : nat) : rev (seq 0 (S n)) = n :: rev (seq 0 n).
Proof. rewrite seq_S. simpl. apply rev_unit. Qed.

Lemma lattice_level_length spot up down step :
  length (lattice_level spot up down step) = S step.
Proof. unfold lattice_level. now rewrite length_map, length_seq. Qed.

Lemma asset_levels_loop (f : nat -> list R) (l : list nat) (s : locals) :
  for_each l (fun step => ap <- get_asset_prices ;; set_asset_prices (ap ++ [f step])) s
  = ({| l_asset_prices := l_asset_prices s ++ map f l;
        l_option_values := l_option_values s |}, Returns tt).
Proof.
  revert s. induction l as [|x l IH]; intros [ap ov]; simpl.
  - now rewrite app_nil_r.
  - unfold bind at 1. cbn. rewrite IH. cbn. now rewrite <- app_assoc.
Qed.

Lemma build_asset_lattice_run spot up down steps s :
  build_asset_lattice spot up down steps s
  = ({| l_asset_prices := map (lattice_level spot up down) (range (steps + 1));
        l_option_values := l_option_values s |}, Returns tt).
Proof.
  unfold build_asset_lattice. unfold bind at 1. cbn.
  rewrite (for_each_ext _ _
    (fun step => ap <- get_asset_prices ;;
                 set_asset_prices (ap ++ [lattice_level spot up down step]))).
  - now rewrite asset_levels_loop.
  - intros step s' _. cbv zeta. now rewrite range_succ.
Qed.

Lemma lattice_lookup spot up down (n s : nat) :
  (s <= n)%nat ->
  map (lattice_level spot up down) (seq 0 (S n)) !! s
  = Some (lattice_level spot up down s).
Proof.
  intros Hs. rewrite list_lookup_fmap, lookup_seq_lt by lia. reflexivity.
Qed.

Lemma terminal_option_values_run spot up down strike steps option_type s (n : nat) :
  steps = Z.of_nat n ->
  l_asset_prices s = map (lattice_level spot up down) (seq 0 (S n)) ->
  terminal_option_values strike steps option_type s
  = ({| l_asset_prices := l_asset_prices s;
        l_option_values :=
          <[n := map (exercise_value option_type strike) (lattice_level spot up down n)]>
            (map (fun _ => []) (seq 0 (S n))) |}, Returns tt).
Proof.
  intros -> Hap. destruct s as [ap ov]. simpl in Hap. subst ap.
  unfold terminal_option_values. rewrite range_succ.
  unfold bind at 1. cbn.
  rewrite (py_index_last _ (lattice_level spot up down n)).
  2:{ rewrite length_cons, length_map, length_seq.
      replace (S n - 1)%nat with n by lia.
      apply (lattice_lookup spot up down n n). lia. }
  cbn. rewrite py_setitem_last by (simpl; lia).
  cbn. rewrite length_map, length_seq.
  now rewrite !Nat.sub_0_r.
Qed.

Section BackwardInduction.
Variables (strike discount probability : R).
Variables (option_type : string) (american : bool).
Variables (ap : list (list R)) (n : nat).

Hypothesis ap_levels :
  forall s, (s <= n)%nat -> exists level, ap !! s = Some level /\ length level = S s.

Let formula := node_formula strike discount probability option_type american.

#[local] Abbreviation filled_from :=
  (filled_from strike discount probability option_type american ap n).

Lemma nth_lookup (l : list R) (i : nat) x : l !! i = Some x -> nth i l 0 = x.
Proof. intros H. now apply nth_lookup_Some with (d := 0) in H. Qed.

Lemma node_value_run V next level (step node : nat) :
  V !! S step = Some next -> length next = S (S step) ->
  ap !! step = Some level -> length level = S step ->
  (node <= step)%nat ->
  node_value strike discount probability option_type american step node
    {| l_asset_prices := ap; l_option_values := V |}
  = ({| l_asset_prices := ap; l_option_values := V |},
     Returns (formula next level node)).
Proof.
  intros Hnext Hlen Hlevel Hlen' Hnode.
  destruct (lookup_lt_is_Some_2 next (S node)) as [vu Hvu]; [lia|].
  destruct (lookup_lt_is_Some_2 next node) as [vd Hvd]; [lia|].
  destruct (lookup_lt_is_Some_2 level node) as [a Ha]; [lia|].
  unfold node_value. unfold bind at 1. cbn.
  rewrite (py_index_lookup V _ next) by (try lia; now replace (Z.to_nat (Z.of_nat step + 1)) with (S step) by lia).
  cbn.
  rewrite (py_index_lookup next _ vu) by (try lia; now replace (Z.to_nat (Z.of_nat node + 1)) with (S node) by lia).
  cbn.
  rewrite (py_index_lookup next _ vd) by (try lia; now rewrite Nat2Z.id).
  cbn. unfold formula, node_formula.
  rewrite (nth_lookup _ _ _ Hvu), (nth_lookup _ _ _ Hvd), (nth_lookup _ _ _ Ha).
  destruct american; [|reflexivity].
  cbn. rewrite (py_index_lookup ap _ level) by (try lia; now rewrite Nat2Z.id).
  cbn. rewrite (py_index_lookup level _ a) by (try lia; now rewrite Nat2Z.id).
  reflexivity.
Qed.

Let body : nat -> M locals unit := fun step =>
  current_values <-
    collect (range (Z.of_nat step + 1))
      (node_value strike discount probability option_type american step) ;;
  ov <- get_option_values ;;
  ov' <- lift (py_setitem ov (Z.of_nat step) current_values) ;;
  set_option_values ov'.

Lemma backward_step V (k : nat) :
  (k < n)%nat -> filled_from (S k) V ->
  exists row,
    body k {| l_asset_prices := ap; l_option_values := V |}
    = ({| l_asset_prices := ap; l_option_values := <[k := row]> V |}, Returns tt)
    /\ filled_from k (<[k := row]> V).
Proof.
  intros Hk (Hlen & Hrows & Hrec).
  destruct (Hrows (S k)) as (next & Hnext & Hnlen); [lia|].
  destruct (ap_levels k) as (level & Hlevel & Hllen); [lia|].
  exists (map (formula next level) (seq 0 (S k))). split.
  - unfold body. rewrite range_succ.
    erewrite bind_returns.
    2:{ apply collect_pure. intros node Hnode.
        apply (node_value_run V next level); auto.
        apply elem_of_seq in Hnode. lia. }
    unfold bind at 1. cbn [get_option_values bind get ret l_option_values].
    rewrite py_setitem_nat by lia. rewrite Nat2Z.id. reflexivity.
  - split; [now rewrite length_insert|]. split.
    + intros s Hs. destruct (decide (s = k)) as [->|Hne].
      * eexists. split; [apply list_lookup_insert_eq; lia|].
        now rewrite length_map, length_seq.
      * rewrite list_lookup_insert_ne by auto. apply Hrows. lia.
    + intros s Hs. destruct (decide (s = k)) as [->|Hne].
      * exists (map (formula next level) (seq 0 (S k))), next, level.
        rewrite list_lookup_insert_eq by lia.
        rewrite list_lookup_insert_ne by lia. auto.
      * rewrite !list_lookup_insert_ne by lia. apply Hrec. lia.
Qed.

Lemma backward_loop (k : nat) : forall V,
  (k <= n)%nat -> filled_from k V ->
  exists V',
    for_each (rev (seq 0 k)) body {| l_asset_prices := ap; l_option_values := V |}
    = ({| l_asset_prices := ap; l_option_values := V' |}, Returns tt)
    /\ filled_from 0 V' /\ V' !! n = V !! n.
Proof.
  induction k as [|k IH]; intros V Hk HV.
  - exists V. simpl. auto.
  - destruct (backward_step V k) as (row & Hrun & HV'); [lia|exact HV|].
    destruct (IH (<[k := row]> V)) as (V' & Hloop & Hfill & Hlast); [lia|exact HV'|].
    exists V'. rewrite rev_range_succ. simpl.
    rewrite (bind_returns _ _ _ _ _ Hrun). split; [exact Hloop|].
    split; [exact Hfill|]. rewrite Hlast. apply list_lookup_insert_ne. lia.
Qed.

Lemma backward_induction_run V :
  filled_from n V ->
  exists V',
    backward_induction strike discount probability (Z.of_nat n) option_type american
      {| l_asset_prices := ap; l_option_values := V |}
    = ({| l_asset_prices := ap; l_option_values := V' |}, Returns tt)
    /\ filled_from 0 V' /\ V' !! n = V !! n.
Proof.
  intros HV. unfold backward_induction, range. rewrite Nat2Z.id.
  now apply backward_loop.
Qed.

End BackwardInduction.

Lemma validate_returns spot strike maturity rate volatility steps :
  _validate_parameters spot strike maturity rate volatility steps = Returns tt
  <-> 0 < spot /\ 0 < strike /\ 0 < maturity /\ (0 < steps)%Z /\ 0 <= volatility.
Proof.
  unfold _validate_parameters.
  destruct (Rleb spot 0) eqn:E1; [apply Rleb_true in E1|apply Rleb_false in E1];
    [split; [discriminate|lra]|].
  destruct (Rleb strike 0) eqn:E2; [apply Rleb_true in E2|apply Rleb_false in E2];
    [split; [discriminate|lra]|].
  destruct (Rleb maturity 0) eqn:E3; [apply Rleb_true in E3|apply Rleb_false in E3];
    [split; [discriminate|lra]|].
  destruct (Z.leb_spec steps 0); [split; [discriminate|lia]|].
  destruct (Rltb volatility 0) eqn:E5; [apply Rltb_true in E5|apply Rltb_false in E5];
    [split; [discriminate|lra]|].
  split; [intros _|reflexivity]. repeat split; try assumption; lra.
Qed.

Lemma option_type_known (option_type : string) :
  String.eqb option_type "call" || String.eqb option_type "put" = true
  <-> option_type = "call" \/ option_type = "put".
Proof.
  rewrite orb_true_iff, !String.eqb_eq. reflexivity.
Qed.

Section Priced.
Variables (spot strike maturity rate volatility : R) (steps : Z).
Variables (option_type : string) (american : bool) (dividend : R).

Let up := crr_up maturity volatility steps.
Let down := crr_down maturity volatility steps.
Let probability := crr_probability maturity rate volatility dividend steps.
Let discount := crr_discount maturity rate steps.
Let n := Z.to_nat steps.
Let lattice := map (lattice_level spot up down) (seq 0 (S n)).

#[local] Abbreviation priced :=
  (priced spot strike maturity rate volatility steps option_type dividend).

Lemma binomial_run :
  priced ->
  exists V root_value,
    run_binomial spot strike maturity rate volatility steps
      option_type american dividend
    = ({| l_asset_prices := lattice; l_option_values := V |},
       Returns {| price := root_value; asset_prices := lattice; option_values := V |})
    /\ filled_from strike discount probability option_type american lattice n 0 V
    /\ V !! n = Some (map (exercise_value option_type strike)
                         (lattice_level spot up down n))
    /\ entry V 0 0 = Some root_value.
Proof.
  intros (Hvalid & Htype & Hspread & Hprob).
  fold up down in Hspread. fold probability in Hprob.
  pose proof (proj1 (validate_returns _ _ _ _ _ _) Hvalid) as (Hspot & Hstrike & Hmat & Hsteps & Hvol).
  assert (Hn : steps = Z.of_nat n) by (unfold n; lia).
  unfold run_binomial, binomial_option_price.
  unfold bind at 1. unfold lift at 1. rewrite Hvalid.
  unfold bind at 1. rewrite (proj2 (option_type_known _) Htype). unfold ret at 1.
  unfold bind at 1. unfold lift at 1. rewrite py_div_nonzero.
  2:{ apply not_0_IZR. lia. }
  unfold bind at 1. unfold lift at 1. rewrite py_div_nonzero.
  2:{ pose proof (exp_pos (volatility * sqrt (maturity / IZR steps))). lra. }
  unfold bind at 1. unfold lift at 1.
  fold (crr_dt maturity steps). fold (crr_up maturity volatility steps).
  fold (crr_down maturity volatility steps).
  fold (crr_growth maturity rate dividend steps).
  fold up down. rewrite py_div_nonzero by exact Hspread.
  fold (crr_probability maturity rate volatility dividend steps). fold probability.
  change ((crr_growth maturity rate dividend steps - down) / (up - down))
    with probability.
  change (exp (- rate * crr_dt maturity steps)) with discount.
  unfold bind at 1.
  rewrite (proj2 (Rleb_true 0 probability)), (proj2 (Rleb_true probability 1)) by lra.
  cbn [andb]. unfold ret at 1.
  unfold bind at 1. rewrite build_asset_lattice_run.
  replace (range (steps + 1)) with (seq 0 (S n)) by (unfold range; f_equal; lia).
  fold lattice.
  unfold bind at 1.
  rewrite (terminal_option_values_run spot up down _ _ _ _ n) by (auto; reflexivity).
  cbn [l_asset_prices l_option_values no_lattice].
  set (V0 := <[n := _]> _).
  assert (Hlevels : forall s, (s <= n)%nat ->
            exists level, lattice !! s = Some level /\ length level = S s).
  { intros s Hs. exists (lattice_level spot up down s). split.
    - now apply lattice_lookup.
    - apply lattice_level_length. }
  assert (HV0len : length V0 = S n).
  { unfold V0. now rewrite length_insert, length_map, length_seq. }
  assert (HV0n : V0 !! n = Some (map (exercise_value option_type strike)
                                   (lattice_level spot up down n))).
  { unfold V0. apply list_lookup_insert_eq. rewrite length_map, length_seq. lia. }
  assert (HV0 : filled_from strike discount probability option_type american
                  lattice n n V0).
  { split; [exact HV0len|]. split.
    - intros s Hs. replace s with n by lia. eexists. split; [exact HV0n|].
      now rewrite length_map, lattice_level_length.
    - intros s Hs. lia. }
  destruct (backward_induction_run strike discount probability option_type american
              lattice n Hlevels V0 HV0) as (V & Hback & HV & HVn).
  rewrite <- Hn in Hback. unfold bind at 1. rewrite Hback.
  destruct HV as (HVlen & HVrows & HVrec).
  destruct (HVrows 0%nat) as (root & Hroot & Hrootlen); [lia|].
  destruct root as [|root_value [|? ?]]; try discriminate Hrootlen.
  exists V, root_value.
  split; [|split; [|split]].
  - unfold bind at 1. cbn [get_option_values bind get ret l_option_values].
    rewrite (py_index_lookup V 0 [root_value]) by (try lia; exact Hroot).
    unfold bind at 1. cbn [lift].
    rewrite (py_index_lookup [root_value] 0 root_value) by (try lia; reflexivity).
    reflexivity.
  - split; [exact HVlen|]. split; assumption.
  - now rewrite HVn.
  - unfold entry. now rewrite Hroot.
Qed.

(** The four ways to fail, each before any list is created. *)
Lemma binomial_invalid e :
  _validate_parameters spot strike maturity rate volatility steps = Raises e ->
  run_binomial spot strike maturity rate volatility steps
    option_type american dividend = (no_lattice, Raises e).
Proof.
  intros H. unfold run_binomial, binomial_option_price.
  unfold bind at 1. unfold lift at 1. now rewrite H.
Qed.

Lemma binomial_unknown_type :
  _validate_parameters spot strike maturity rate volatility steps = Returns tt ->
  ~ (option_type = "call" \/ option_type = "put") ->
  run_binomial spot strike maturity rate volatility steps
    option_type american dividend
  = (no_lattice, Raises (ValueError "option_type must be 'call' or 'put'.")).
Proof.
  intros Hvalid Htype. unfold run_binomial, binomial_option_price.
  unfold bind at 1. unfold lift at 1. rewrite Hvalid.
  unfold bind at 1.
  destruct (String.eqb option_type "call" || String.eqb option_type "put") eqn:E.
  - apply option_type_known in E. contradiction.
  - reflexivity.
Qed.

Ltac past_constants Hvalid :=
  let H := fresh in
  pose proof (proj1 (validate_returns _ _ _ _ _ _) Hvalid) as H;
  unfold bind at 1; unfold lift at 1;
  rewrite py_div_nonzero by (apply not_0_IZR; lia);
  unfold bind at 1; unfold lift at 1;
  rewrite py_div_nonzero by (apply Rgt_not_eq, exp_pos);
  clear H.

Lemma binomial_zero_spread :
  _validate_parameters spot strike maturity rate volatility steps = Returns tt ->
  (option_type = "call" \/ option_type = "put") ->
  up - down = 0 ->
  run_binomial spot strike maturity rate volatility steps
    option_type american dividend = (no_lattice, Raises ZeroDivisionError).
Proof.
  intros Hvalid Htype Hspread. unfold run_binomial, binomial_option_price.
  unfold bind at 1. unfold lift at 1. rewrite Hvalid.
  unfold bind at 1. rewrite (proj2 (option_type_known _) Htype). unfold ret at 1.
  past_constants Hvalid.
  unfold bind at 1. unfold lift at 1.
  change (exp (volatility * sqrt (maturity / IZR steps))) with up.
  change (1 / up) with down.
  rewrite Hspread, py_div_zero. reflexivity.
Qed.

Lemma binomial_arbitrage :
  _validate_parameters spot strike maturity rate volatility steps = Returns tt ->
  (option_type = "call" \/ option_type = "put") ->
  up - down <> 0 ->
  ~ (0 <= probability <= 1) ->
  run_binomial spot strike maturity rate volatility steps
    option_type american dividend
  = (no_lattice, Raises (ValueError arbitrage_message)).
Proof.
  intros Hvalid Htype Hspread Hprob. unfold run_binomial, binomial_option_price.
  unfold bind at 1. unfold lift at 1. rewrite Hvalid.
  unfold bind at 1. rewrite (proj2 (option_type_known _) Htype). unfold ret at 1.
  past_constants Hvalid.
  unfold bind at 1. unfold lift at 1.
  change (exp (volatility * sqrt (maturity / IZR steps))) with up.
  change (1 / up) with down.
  rewrite py_div_nonzero by exact Hspread.
  change ((exp ((rate - dividend) * (maturity / IZR steps)) - down) / (up - down))
    with probability.
  unfold bind at 1.
  destruct (Rleb 0 probability) eqn:E1; [|reflexivity].
  destruct (Rleb probability 1) eqn:E2; [|reflexivity].
  apply Rleb_true in E1, E2. lra.
Qed.

(** The outcome in every case. *)
Lemma binomial_cases :
  let r := run_binomial spot strike maturity rate volatility steps
             option_type american dividend in
  (exists e, _validate_parameters spot strike maturity rate volatility steps = Raises e
             /\ r = (no_lattice, Raises e))
  \/ (_validate_parameters spot strike maturity rate volatility steps = Returns tt
      /\ ~ (option_type = "call" \/ option_type = "put")
      /\ r = (no_lattice, Raises (ValueError "option_type must be 'call' or 'put'.")))
  \/ (_validate_parameters spot strike maturity rate volatility steps = Returns tt
      /\ (option_type = "call" \/ option_type = "put")
      /\ up - down = 0
      /\ r = (no_lattice, Raises ZeroDivisionError))
  \/ (_validate_parameters spot strike maturity rate volatility steps = Returns tt
      /\ (option_type = "call" \/ option_type = "put")
      /\ up - down <> 0 /\ ~ (0 <= probability <= 1)
      /\ r = (no_lattice, Raises (ValueError arbitrage_message)))
  \/ (priced /\ exists st res, r = (st, Returns res)).
Proof.
  intros r.
  destruct (_validate_parameters spot strike maturity rate volatility steps)
    as [[]|e] eqn:Hvalid.
  2:{ left. exists e. split; [reflexivity|]. now apply binomial_invalid. }
  right.
  destruct (String.eqb option_type "call" || String.eqb option_type "put") eqn:Htype.
  2:{ left. assert (~ (option_type = "call" \/ option_type = "put")) as Hn'.
      { intros H. apply option_type_known in H. congruence. }
      repeat split; auto. now apply binomial_unknown_type. }
  apply option_type_known in Htype. right.
  destruct (Req_dec_T (up - down) 0) as [Hz|Hnz].
  { left. repeat split; auto. now apply binomial_zero_spread. }
  right.
  destruct (Rle_dec 0 probability) as [H0|H0];
    [destruct (Rle_dec probability 1) as [H1|H1]|].
  - right. assert (priced) as Hp by (repeat split; auto).
    split; [exact Hp|].
    destruct (binomial_run Hp) as (V & rv & Hrun & _). eauto.
  - left. repeat split; auto; [lra|]. apply binomial_arbitrage; auto. lra.
  - left. repeat split; auto; [lra|]. apply binomial_arbitrage; auto. lra.
Qed.
End Priced.


Lemma unit_quotient (x d : R) : 0 < d -> 0 <= x <= d -> 0 <= x / d <= 1.
Proof.
  intros Hd Hx. unfold Rdiv.
  pose proof (Rinv_0_lt_compat d Hd) as Hi.
  assert (Hone : d * / d = 1) by (apply Rinv_r; lra).
  split.
  - apply Rmult_le_pos; lra.
  - rewrite <- Hone. apply Rmult_le_compat_r; lra.
Qed.

(** A sufficient condition for [priced]: positive volatility and a
    log-growth per step no larger than one up or down move. *)
Lemma priced_intro spot strike maturity rate volatility steps option_type dividend :
  0 < spot -> 0 < strike -> 0 < maturity -> (0 < steps)%Z -> 0 < volatility ->
  option_type = "call" \/ option_type = "put" ->
  Rabs ((rate - dividend) * crr_dt maturity steps)
    <= volatility * sqrt (crr_dt maturity steps) ->
  priced spot strike maturity rate volatility steps option_type dividend.
Proof.
  intros Hspot Hstrike Hmat Hsteps Hvol Htype Hgrowth.
  assert (Hdt : 0 < crr_dt maturity steps).
  { unfold crr_dt. apply Rdiv_lt_0_compat; [lra|]. apply IZR_lt. lia. }
  set (a := volatility * sqrt (crr_dt maturity steps)) in *.
  set (g := (rate - dividend) * crr_dt maturity steps) in *.
  assert (Ha : 0 < a).
  { unfold a. apply Rmult_lt_0_compat; [lra|]. now apply sqrt_lt_R0. }
  assert (Hup : crr_up maturity volatility steps = exp a) by reflexivity.
  assert (Hdown : crr_down maturity volatility steps = exp (- a)).
  { unfold crr_down. rewrite Hup, exp_Ropp. lra. }
  assert (Hlt : exp (- a) < exp a) by (apply exp_increasing; lra).
  assert (Hg : - a <= g <= a).
  { unfold Rabs in Hgrowth. destruct (Rcase_abs g); lra. }
  assert (Hlo : exp (- a) <= exp g).
  { destruct (proj1 Hg) as [H|H]; [left; now apply exp_increasing|right; now rewrite H]. }
  assert (Hhi : exp g <= exp a).
  { destruct (proj2 Hg) as [H|H]; [left; now apply exp_increasing|right; now rewrite H]. }
  split; [|split; [|split]].
  - apply validate_returns. repeat split; auto; lra.
  - exact Htype.
  - rewrite Hup, Hdown. lra.
  - unfold crr_probability. rewrite Hup, Hdown.
    change (crr_growth maturity rate dividend steps) with (exp g).
    apply unit_quotient; lra.
Qed.

(** The parameters used to exercise the theorems below: a two-step
    lattice with zero rate and dividend. *)
Lemma priced_example (option_type : string) :
  option_type = "call" \/ option_type = "put" ->
  priced 100 100 1 0 0.2 2 option_type 0.
Proof.
  intros Htype. apply priced_intro; try lra; try lia; auto.
  assert (H : 0 < crr_dt 1 2).
  { unfold crr_dt. lra. }
  replace ((0 - 0) * crr_dt 1 2) with 0 by ring. rewrite Rabs_R0.
  apply Rmult_le_pos; [lra|]. apply sqrt_pos.
Qed.

(** C3. When the pricer returns, every node [j <= s] of every step
    [s < steps] holds discount * (p * V[s+1][j+1] + (1 - p) * V[s+1][j]);
    with [american] it holds the larger of that continuation value and the
    intrinsic value at [asset_prices[s][j]]; the price is
    [option_values[0][0]]. *)
Theorem backward_induction_values
    spot strike maturity rate volatility steps option_type american dividend :
  priced spot strike maturity rate volatility steps option_type dividend ->
  exists st res,
    run_binomial spot strike maturity rate volatility steps
      option_type american dividend = (st, Returns res)
    /\ (forall s j, (s < Z.to_nat steps)%nat -> (j <= s)%nat ->
        exists v v_up v_down a,
          entry (option_values res) s j = Some v
          /\ entry (option_values res) (S s) (S j) = Some v_up
          /\ entry (option_values res) (S s) j = Some v_down
          /\ entry (asset_prices res) s j = Some a
          /\ let continuation :=
               crr_discount maturity rate steps
               * (crr_probability maturity rate volatility dividend steps * v_up
                  + (1 - crr_probability maturity rate volatility dividend steps)
                    * v_down) in
             let intrinsic :=
               if String.eqb option_type "call"
               then Rmax (a - strike) 0 else Rmax (strike - a) 0 in
             v = if american then Rmax continuation intrinsic else continuation)
    /\ entry (option_values res) 0 0 = Some (price res).
Proof.
  intros Hp.
  destruct (binomial_run spot strike maturity rate volatility steps
              option_type american dividend Hp)
    as (V & root_value & Hrun & (Hlen & Hrows & Hrec) & Hterminal & Hroot).
  eexists _, _. split; [exact Hrun|]. cbn [option_values asset_prices price].
  split; [|exact Hroot].
  intros s j Hs Hj.
  destruct (Hrec s) as (row & next & level & Hrow & Hnext & Hlevel & ->); [lia|].
  destruct (Hrows (S s)) as (next' & Hnext' & Hnlen); [lia|].
  rewrite Hnext in Hnext'. injection Hnext' as <-.
  assert (Hllen : length level = S s).
  { rewrite lattice_lookup in Hlevel by lia. injection Hlevel as <-.
    apply lattice_level_length. }
  destruct (lookup_lt_is_Some_2 next (S j)) as [vu Hvu]; [lia|].
  destruct (lookup_lt_is_Some_2 next j) as [vd Hvd]; [lia|].
  destruct (lookup_lt_is_Some_2 level j) as [a Ha]; [lia|].
  eexists _, vu, vd, a. unfold entry. rewrite Hrow, Hnext, Hlevel.
  split; [|split; [|split; [|split]]]; try assumption.
  - rewrite list_lookup_fmap, lookup_seq_lt by lia. reflexivity.
  - cbv zeta. unfold node_formula. cbn [Nat.add].
    rewrite (nth_lookup _ _ _ Hvu), (nth_lookup _ _ _ Hvd), (nth_lookup _ _ _ Ha).
    destruct american; [|reflexivity].
    unfold exercise_value.
    destruct (String.eqb option_type "call"); now rewrite !py_max_Rmax.
Qed.

Lemma backward_induction_values_witness :
  priced 100 100 1 0 0.2 2 "put" 0
  /\ exists st res,
       run_binomial 100 100 1 0 0.2 2 "put" true 0 = (st, Returns res)
       /\ entry (option_values res) 0 0 = Some (price res).
Proof.
  split; [apply priced_example; now right|].
  destruct (backward_induction_values 100 100 1 0 0.2 2 "put" true 0)
    as (st & res & Hrun & _ & Hroot); [apply priced_example; now right|].
  exists st, res. split; assumption.
Defined.

(** C4. The pricer fails with the arbitrage error exactly when the
    parameters are valid, the option type is known and the probability
    (growth - down) / (up - down), with up <> down, lies outside [0, 1];
    it fails with no lattice level built; and when it returns, the
    probability itself lies in [0, 1]: nothing is clamped. *)
Theorem arbitrage_error_iff
    spot strike maturity rate volatility steps option_type american dividend :
  let up := crr_up maturity volatility steps in
  let down := crr_down maturity volatility steps in
  let probability := crr_probability maturity rate volatility dividend steps in
  let r := run_binomial spot strike maturity rate volatility steps
             option_type american dividend in
  (r.2 = Raises (ValueError arbitrage_message)
   <-> _validate_parameters spot strike maturity rate volatility steps = Returns tt
       /\ (option_type = "call" \/ option_type = "put")
       /\ up - down <> 0
       /\ ~ (0 <= probability <= 1))
  /\ (r.2 = Raises (ValueError arbitrage_message) -> r.1 = no_lattice)
  /\ (forall res, r.2 = Returns res -> 0 <= probability <= 1).
Proof.
  intros up down probability r.
  pose proof (binomial_cases spot strike maturity rate volatility steps
                option_type american dividend) as Hcases.
  cbv zeta in Hcases. fold r up down probability in Hcases.
  destruct Hcases as
    [(e & Hv & Hr)
    |[(Hv & Ht & Hr)
    |[(Hv & Ht & Hz & Hr)
    |[(Hv & Ht & Hnz & Hp & Hr)
    |(Hp & st & res & Hr)]]]]; rewrite Hr; cbn [fst snd].
  - split; [split|split].
    + intros [= ->]. rewrite Hv. unfold _validate_parameters in Hv.
      repeat match type of Hv with
             | (if ?c then _ else _) = _ => destruct c
             end; discriminate Hv.
    + intros (Hv' & _). congruence.
    + reflexivity.
    + discriminate.
  - split; [split|split].
    + discriminate.
    + intros (_ & Ht' & _). contradiction.
    + reflexivity.
    + discriminate.
  - split; [split|split].
    + discriminate.
    + intros (_ & _ & Hnz & _). contradiction.
    + reflexivity.
    + discriminate.
  - split; [split|split]; auto. discriminate.
  - destruct Hp as (Hv & Ht & Hnz & Hp).
    split; [split|split].
    + discriminate.
    + intros (_ & _ & _ & Hn). contradiction.
    + discriminate.
    + intros _ _. exact Hp.
Qed.

(** An arbitrage failure: with a rate of 100% and a volatility of 10% the
    one-step growth factor exceeds the up factor. *)
Example arbitrage_example :
  run_binomial 100 100 1 1 0.1 1 "call" false 0
  = (no_lattice, Raises (ValueError arbitrage_message)).
Proof.
  assert (Hdt : crr_dt 1 1 = 1) by (unfold crr_dt; lra).
  assert (Hup : crr_up 1 0.1 1 = exp 0.1).
  { unfold crr_up. rewrite Hdt, sqrt_1. f_equal. lra. }
  assert (Hdown : crr_down 1 0.1 1 = / exp 0.1).
  { unfold crr_down. rewrite Hup. lra. }
  assert (Hgrowth : crr_growth 1 1 0 1 = exp 1).
  { unfold crr_growth. rewrite Hdt. f_equal. lra. }
  assert (H0 : 1 < exp 0.1) by (rewrite <- exp_0; apply exp_increasing; lra).
  assert (H1 : / exp 0.1 < 1).
  { rewrite <- Rinv_1. apply Rinv_lt_contravar; lra. }
  assert (H2 : exp 0.1 < exp 1) by (apply exp_increasing; lra).
  apply binomial_arbitrage.
  - apply validate_returns. repeat split; try lra; lia.
  - now left.
  - rewrite Hup, Hdown. lra.
  - unfold crr_probability. rewrite Hup, Hdown, Hgrowth. intros [_ Hle].
    apply (Rmult_le_compat_r (exp 0.1 - / exp 0.1)) in Hle; [|lra].
    unfold Rdiv in Hle. rewrite Rmult_assoc, Rinv_l in Hle by lra. lra.
Qed.

(** C5. When the pricer returns, the asset lattice has steps + 1 levels,
    level [s] has [s + 1] entries, level 0 is [[spot]], and entry [j] of
    level [s] is spot * up^j * down^(s - j). *)
Theorem asset_lattice_shape
    spot strike maturity rate volatility steps option_type american dividend :
  priced spot strike maturity rate volatility steps option_type dividend ->
  exists st res,
    run_binomial spot strike maturity rate volatility steps
      option_type american dividend = (st, Returns res)
    /\ Z.of_nat (length (asset_prices res)) = (steps + 1)%Z
    /\ (forall s, (Z.of_nat s <= steps)%Z ->
        exists level, asset_prices res !! s = Some level /\ length level = S s)
    /\ asset_prices res !! 0%nat = Some [spot]
    /\ (forall s j, (Z.of_nat s <= steps)%Z -> (j <= s)%nat ->
        entry (asset_prices res) s j
        = Some (spot * crr_up maturity volatility steps ^ j
                * crr_down maturity volatility steps ^ (s - j))).
Proof.
  intros Hp.
  destruct (binomial_run spot strike maturity rate volatility steps
              option_type american dividend Hp)
    as (V & root_value & Hrun & _).
  destruct Hp as (Hv & _).
  apply validate_returns in Hv as (_ & _ & _ & Hsteps & _).
  eexists _, _. split; [exact Hrun|]. cbn [asset_prices].
  split; [|split; [|split]].
  - rewrite length_map, length_seq. lia.
  - intros s Hs. eexists. split; [apply lattice_lookup; lia|].
    apply lattice_level_length.
  - rewrite lattice_lookup by lia. unfold lattice_level. simpl.
    do 2 f_equal. ring.
  - intros s j Hs Hj. unfold entry. rewrite lattice_lookup by lia.
    unfold lattice_level. rewrite list_lookup_fmap, lookup_seq_lt by lia.
    reflexivity.
Qed.

Lemma asset_lattice_shape_witness :
  priced 100 100 1 0 0.2 2 "call" 0
  /\ exists st res,
       run_binomial 100 100 1 0 0.2 2 "call" false 0 = (st, Returns res)
       /\ asset_prices res !! 0%nat = Some [100]
       /\ exists level, asset_prices res !! 2%nat = Some level /\ length level = 3%nat.
Proof.
  split; [apply priced_example; now left|].
  destruct (asset_lattice_shape 100 100 1 0 0.2 2 "call" false 0)
    as (st & res & Hrun & _ & Hlevels & Hroot & _); [apply priced_example; now left|].
  exists st, res. split; [exact Hrun|]. split; [exact Hroot|].
  apply Hlevels. lia.
Defined.

(** C10. Zero volatility passes validation, and then up = down = 1: the
    division that computes the probability raises [ZeroDivisionError],
    before the arbitrage check and before any lattice level. *)
Theorem zero_volatility_division_error
    spot strike maturity rate steps option_type american dividend :
  0 < spot -> 0 < strike -> 0 < maturity -> (0 < steps)%Z ->
  option_type = "call" \/ option_type = "put" ->
  _validate_parameters spot strike maturity rate 0 steps = Returns tt
  /\ crr_up maturity 0 steps = 1
  /\ crr_down maturity 0 steps = 1
  /\ run_binomial spot strike maturity rate 0 steps option_type american dividend
     = (no_lattice, Raises ZeroDivisionError).
Proof.
  intros Hspot Hstrike Hmat Hsteps Htype.
  assert (Hv : _validate_parameters spot strike maturity rate 0 steps = Returns tt).
  { apply validate_returns. repeat split; auto; lra. }
  assert (Hup : crr_up maturity 0 steps = 1).
  { unfold crr_up. rewrite Rmult_0_l. apply exp_0. }
  assert (Hdown : crr_down maturity 0 steps = 1).
  { unfold crr_down. rewrite Hup. lra. }
  repeat split; auto.
  apply binomial_zero_spread; auto. rewrite Hup, Hdown. lra.
Qed.

Lemma zero_volatility_division_error_witness :
  Binomial._validate_parameters 100 100 1 0.05 0 50 = Returns tt
  /\ run_binomial 100 100 1 0.05 0 50 "call" false 0
     = (no_lattice, Raises ZeroDivisionError).
Proof.
  destruct (zero_volatility_division_error 100 100 1 0.05 50 "call" false 0)
    as (Hv & _ & _ & Hrun); try lra; try lia; [now left|].
  split; assumption.
Defined.

End BinomialProofs.

(** ** The binomial lattice pricer: further properties *)

Module BinomialExtras.
Import Binomial.
Import BinomialProofs.

Lemma exercise_value_nonneg option_type strike a :
  0 <= exercise_value option_type strike a.
Proof.
  unfold exercise_value.
  destruct (String.eqb option_type "call"); rewrite py_max_Rmax; apply Rmax_r.
Qed.

(** Rows of a filled lattice of option values, read from the bottom. *)
Lemma rows_from_bottom
    strike discount probability option_type american ap n V
    (Q : nat -> list R -> Prop) :
  filled_from strike discount probability option_type american ap n 0 V ->
  (forall row, V !! n = Some row -> Q n row) ->
  (forall s row next level,
     (s < n)%nat -> V !! s = Some row -> V !! S s = Some next ->
     ap !! s = Some level -> Q (S s) next ->
     row = map (node_formula strike discount probability option_type american
                  next level) (seq 0 (S s)) ->
     Q s row) ->
  forall s row, (s <= n)%nat -> V !! s = Some row -> Q s row.
Proof.
  intros (Hlen & Hrows & Hrec) Hbase Hstep.
  assert (H : forall k s row, (s + k = n)%nat -> V !! s = Some row -> Q s row).
  { induction k as [|k IH]; intros s row Hs Hrow.
    - replace s with n in * by lia. now apply Hbase.
    - destruct (Hrec s) as (row' & next & level & Hrow' & Hnext & Hlevel & Heq); [lia|].
      rewrite Hrow in Hrow'. injection Hrow' as <-.
      apply (Hstep s row next level); auto; [lia|].
      apply IH; [lia|exact Hnext]. }
  intros s row Hs Hrow. apply (H (n - s)%nat); [lia|exact Hrow].
Qed.

Lemma nth_map_seq (f : nat -> R) (n j : nat) :
  (j < n)%nat -> nth j (map f (seq 0 n)) 0 = f j.
Proof.
  intros Hj. apply nth_lookup.
  rewrite list_lookup_fmap, lookup_seq_lt by lia. reflexivity.
Qed.

Lemma crr_discount_pos maturity rate steps : 0 < crr_discount maturity rate steps.
Proof. apply exp_pos. Qed.

(** X1. Every value of the option lattice is non-negative. *)
Theorem option_values_nonnegative
    spot strike maturity rate volatility steps option_type american dividend :
  priced spot strike maturity rate volatility steps option_type dividend ->
  exists st res,
    run_binomial spot strike maturity rate volatility steps
      option_type american dividend = (st, Returns res)
    /\ 0 <= price res
    /\ forall s j v, entry (option_values res) s j = Some v -> 0 <= v.
Proof.
  intros Hp.
  destruct (binomial_run spot strike maturity rate volatility steps
              option_type american dividend Hp)
    as (V & root_value & Hrun & Hfill & Hterminal & Hroot).
  destruct Hp as (_ & _ & _ & Hprob).
  set (p := crr_probability maturity rate volatility dividend steps) in *.
  set (d := crr_discount maturity rate steps) in *.
  assert (Hd : 0 < d) by apply crr_discount_pos.
  assert (Hall : forall s row, (s <= Z.to_nat steps)%nat -> V !! s = Some row ->
                               Forall (fun v => 0 <= v) row).
  { apply (rows_from_bottom _ _ _ _ _ _ _ _ (fun _ row => Forall (fun v => 0 <= v) row) Hfill).
    - intros row Hrow.
      assert (row = map (exercise_value option_type strike)
                      (lattice_level spot (crr_up maturity volatility steps)
                         (crr_down maturity volatility steps) (Z.to_nat steps)))
        as -> by congruence.
      apply Forall_forall. intros v Hv.
      apply list_elem_of_fmap in Hv as (a & -> & _). apply exercise_value_nonneg.
    - intros s row next level _ _ _ _ Hnext ->.
      apply Forall_forall. intros v Hv.
      apply list_elem_of_fmap in Hv as (node & -> & _).
      assert (Hnth : forall i, 0 <= nth i next 0).
      { intros i. destruct (nth_in_or_default i next 0) as [Hin| ->]; [|lra].
        rewrite Forall_forall in Hnext. apply Hnext. now apply list_elem_of_In. }
      assert (Hc : 0 <= d * (p * nth (S node) next 0 + (1 - p) * nth node next 0)).
      { pose proof (Hnth (S node)). pose proof (Hnth node).
        apply Rmult_le_pos; [lra|]. apply Rplus_le_le_0_compat; apply Rmult_le_pos; lra. }
      unfold node_formula. destruct american; [|exact Hc].
      rewrite py_max_Rmax. eapply Rle_trans; [exact Hc|apply Rmax_l]. }
  assert (Hentries : forall s j v, entry V s j = Some v -> 0 <= v).
  { intros s j v. unfold entry. destruct (V !! s) as [row|] eqn:Hrow; [|discriminate].
    intros Hv. destruct Hfill as (Hlen & _).
    apply lookup_lt_Some in Hrow as Hs.
    specialize (Hall s row ltac:(lia) Hrow). rewrite Forall_forall in Hall.
    apply Hall. apply list_elem_of_lookup. eauto. }
  eexists _, _. split; [exact Hrun|]. cbn [price option_values].
  split; [now apply (Hentries 0%nat 0%nat)|exact Hentries].
Qed.

(** X2. The option values have the triangular shape of the asset lattice, and
    their last row holds the exercise values of the last asset level. *)
Theorem option_values_shape
    spot strike maturity rate volatility steps option_type american dividend :
  priced spot strike maturity rate volatility steps option_type dividend ->
  exists st res,
    run_binomial spot strike maturity rate volatility steps
      option_type american dividend = (st, Returns res)
    /\ length (option_values res) = length (asset_prices res)
    /\ (forall s, (Z.of_nat s <= steps)%Z ->
        exists row, option_values res !! s = Some row /\ length row = S s)
    /\ (forall j, (Z.of_nat j <= steps)%Z ->
        exists a,
          entry (asset_prices res) (Z.to_nat steps) j = Some a
          /\ entry (option_values res) (Z.to_nat steps) j
             = Some (if String.eqb option_type "call"
                     then Rmax (a - strike) 0 else Rmax (strike - a) 0)).
Proof.
  intros Hp.
  destruct (binomial_run spot strike maturity rate volatility steps
              option_type american dividend Hp)
    as (V & root_value & Hrun & (Hlen & Hrows & _) & Hterminal & _).
  eexists _, _. split; [exact Hrun|]. cbn [option_values asset_prices].
  split; [|split].
  - now rewrite Hlen, length_map, length_seq.
  - intros s Hs. apply Hrows. lia.
  - intros j Hj. set (n := Z.to_nat steps) in *.
    set (level := lattice_level spot (crr_up maturity volatility steps)
                    (crr_down maturity volatility steps) n) in *.
    destruct (lookup_lt_is_Some_2 level j) as [a Ha].
    { unfold level. rewrite lattice_level_length. lia. }
    exists a. unfold entry. rewrite lattice_lookup by lia. fold level.
    split; [exact Ha|]. rewrite Hterminal, list_lookup_fmap, Ha. cbn.
    unfold exercise_value.
    destruct (String.eqb option_type "call"); now rewrite py_max_Rmax.
Qed.

Lemma option_values_shape_witness :
  priced 100 100 1 0 0.2 2 "put" 0
  /\ exists st res,
       run_binomial 100 100 1 0 0.2 2 "put" true 0 = (st, Returns res)
       /\ length (option_values res) = length (asset_prices res).
Proof.
  split; [apply priced_example; now right|].
  destruct (option_values_shape 100 100 1 0 0.2 2 "put" true 0)
    as (st & res & Hrun & Hlen & _); [apply priced_example; now right|].
  exists st, res. split; assumption.
Defined.

Lemma option_values_nonnegative_witness :
  priced 100 100 1 0 0.2 2 "call" 0
  /\ exists st res,
       run_binomial 100 100 1 0 0.2 2 "call" true 0 = (st, Returns res)
       /\ 0 <= price res.
Proof.
  split; [apply priced_example; now left|].
  destruct (option_values_nonnegative 100 100 1 0 0.2 2 "call" true 0)
    as (st & res & Hrun & Hprice & _); [apply priced_example; now left|].
  exists st, res. split; assumption.
Defined.

(** X3. An American option is worth at least the European one, at the root
    and at every node. *)
Theorem american_at_least_european
    spot strike maturity rate volatility steps option_type dividend :
  priced spot strike maturity rate volatility steps option_type dividend ->
  exists st_a american st_e european,
    run_binomial spot strike maturity rate volatility steps
      option_type true dividend = (st_a, Returns american)
    /\ run_binomial spot strike maturity rate volatility steps
         option_type false dividend = (st_e, Returns european)
    /\ price european <= price american
    /\ forall s j a e,
         entry (option_values american) s j = Some a ->
         entry (option_values european) s j = Some e ->
         e <= a.
Proof.
  intros Hp.
  destruct (binomial_run spot strike maturity rate volatility steps
              option_type true dividend Hp)
    as (VA & root_a & HrunA & HfillA & HtermA & HrootA).
  destruct (binomial_run spot strike maturity rate volatility steps
              option_type false dividend Hp)
    as (VE & root_e & HrunE & HfillE & HtermE & HrootE).
  destruct Hp as (_ & _ & _ & Hprob).
  set (p := crr_probability maturity rate volatility dividend steps) in *.
  set (d := crr_discount maturity rate steps) in *.
  set (n := Z.to_nat steps) in *.
  assert (Hd : 0 < d) by apply crr_discount_pos.
  assert (Hall : forall s rowA, (s <= n)%nat -> VA !! s = Some rowA ->
            forall rowE, VE !! s = Some rowE -> forall j, nth j rowE 0 <= nth j rowA 0).
  { apply (rows_from_bottom _ _ _ _ _ _ _ _
             (fun s rowA => forall rowE, VE !! s = Some rowE ->
                                         forall j, nth j rowE 0 <= nth j rowA 0) HfillA).
    - intros rowA HrowA rowE HrowE j.
      assert (rowA = rowE) as -> by congruence. lra.
    - intros s rowA nextA level Hs HrowA HnextA Hlevel IH -> rowE HrowE j.
      destruct HfillE as (_ & _ & HrecE).
      destruct (HrecE s) as (rowE' & nextE & level' & HrowE' & HnextE & Hlevel' & HeqE);
        [lia|].
      assert (rowE = rowE') as -> by congruence. subst rowE'.
      assert (level' = level) as -> by congruence.
      specialize (IH nextE HnextE).
      destruct (Nat.lt_ge_cases j (S s)) as [Hj|Hj].
      + rewrite !nth_map_seq by lia.
        unfold node_formula. rewrite py_max_Rmax.
        eapply Rle_trans; [|apply Rmax_l].
        pose proof (IH (S j)). pose proof (IH j).
        apply Rmult_le_compat_l; [lra|].
        apply Rplus_le_compat; apply Rmult_le_compat_l; lra.
      + rewrite !nth_overflow by (rewrite length_map, length_seq; lia). lra. }
  assert (Hentries : forall s j a e,
            entry VA s j = Some a -> entry VE s j = Some e -> e <= a).
  { intros s j a e. unfold entry.
    destruct (VA !! s) as [rowA|] eqn:HrowA; [|discriminate].
    destruct (VE !! s) as [rowE|] eqn:HrowE; [|discriminate].
    intros Ha He. destruct HfillA as (Hlen & _).
    apply lookup_lt_Some in HrowA as Hs.
    specialize (Hall s rowA ltac:(lia) HrowA rowE HrowE j).
    apply nth_lookup_Some with (d := 0) in Ha, He. lra. }
  eexists _, _, _, _. split; [exact HrunA|]. split; [exact HrunE|].
  cbn [price option_values]. split; [|exact Hentries].
  now apply (Hentries 0%nat 0%nat).
Qed.

Lemma american_at_least_european_witness :
  priced 100 100 1 0 0.2 2 "put" 0
  /\ exists st_a american st_e european,
       run_binomial 100 100 1 0 0.2 2 "put" true 0 = (st_a, Returns american)
       /\ run_binomial 100 100 1 0 0.2 2 "put" false 0 = (st_e, Returns european)
       /\ price european <= price american.
Proof.
  split; [apply priced_example; now right|].
  destruct (american_at_least_european 100 100 1 0 0.2 2 "put" 0)
    as (st_a & a & st_e & e & Ha & He & Hle & _); [apply priced_example; now right|].
  exists st_a, a, st_e, e. auto.
Defined.

Lemma lattice_level_nth spot up down (s j : nat) :
  (j <= s)%nat -> nth j (lattice_level spot up down s) 0 = spot * up ^ j * down ^ (s - j).
Proof. intros Hj. unfold lattice_level. now rewrite nth_map_seq by lia. Qed.

(** An up move multiplies a node price by [up], a down move by [down]. *)
Lemma lattice_children spot up down (s j : nat) :
  (j <= s)%nat ->
  nth (S j) (lattice_level spot up down (S s)) 0
  = nth j (lattice_level spot up down s) 0 * up
  /\ nth j (lattice_level spot up down (S s)) 0
     = nth j (lattice_level spot up down s) 0 * down.
Proof.
  intros Hj. rewrite !lattice_level_nth by lia.
  replace (S s - S j)%nat with (s - j)%nat by lia.
  replace (S s - j)%nat with (S (s - j)) by lia.
  simpl pow. split; ring.
Qed.

(** The risk-neutral weights reproduce the growth factor. *)
Lemma risk_neutral_mean maturity rate volatility dividend steps :
  crr_up maturity volatility steps - crr_down maturity volatility steps <> 0 ->
  crr_probability maturity rate volatility dividend steps * crr_up maturity volatility steps
  + (1 - crr_probability maturity rate volatility dividend steps)
    * crr_down maturity volatility steps
  = crr_growth maturity rate dividend steps.
Proof.
  intros Hne. unfold crr_probability. field. exact Hne.
Qed.

(** X4. Put-call parity holds exactly on the lattice: for European options
    priced with the same parameters, call - put =
    spot * exp(-dividend * maturity) - strike * exp(-rate * maturity). *)
Theorem put_call_parity spot strike maturity rate volatility steps dividend :
  priced spot strike maturity rate volatility steps "call" dividend ->
  exists st_c call st_p put,
    run_binomial spot strike maturity rate volatility steps "call" false dividend
    = (st_c, Returns call)
    /\ run_binomial spot strike maturity rate volatility steps "put" false dividend
       = (st_p, Returns put)
    /\ price call - price put
       = spot * exp (- dividend * maturity) - strike * exp (- rate * maturity).
Proof.
  intros Hc.
  assert (Hp : priced spot strike maturity rate volatility steps "put" dividend).
  { destruct Hc as (Hv & _ & Hrest). split; [exact Hv|]. split; [now right|exact Hrest]. }
  destruct (binomial_run spot strike maturity rate volatility steps
              "call" false dividend Hc)
    as (VC & root_c & HrunC & HfillC & HtermC & HrootC).
  destruct (binomial_run spot strike maturity rate volatility steps
              "put" false dividend Hp)
    as (VP & root_p & HrunP & HfillP & HtermP & HrootP).
  destruct Hc as (Hvalid & _ & Hspread & Hprob).
  apply validate_returns in Hvalid as (Hspot & Hstrike & Hmat & Hsteps & Hvol).
  pose proof (risk_neutral_mean maturity rate volatility dividend steps Hspread) as Hmean.
  set (up := crr_up maturity volatility steps) in *.
  set (down := crr_down maturity volatility steps) in *.
  set (p := crr_probability maturity rate volatility dividend steps) in *.
  set (d := crr_discount maturity rate steps) in *.
  set (g := crr_growth maturity rate dividend steps) in *.
  set (n := Z.to_nat steps) in *.
  assert (Hall : forall s rowC, (s <= n)%nat -> VC !! s = Some rowC ->
            forall rowP, VP !! s = Some rowP ->
            forall j, (j <= s)%nat ->
              nth j rowC 0 - nth j rowP 0
              = nth j (lattice_level spot up down s) 0 * (d * g) ^ (n - s)
                - strike * d ^ (n - s)).
  { apply (rows_from_bottom _ _ _ _ _ _ _ _
             (fun s rowC => forall rowP, VP !! s = Some rowP ->
                forall j, (j <= s)%nat ->
                  nth j rowC 0 - nth j rowP 0
                  = nth j (lattice_level spot up down s) 0 * (d * g) ^ (n - s)
                    - strike * d ^ (n - s)) HfillC).
    - intros rowC HrowC rowP HrowP j Hj.
      assert (rowC = map (exercise_value "call" strike) (lattice_level spot up down n))
        as -> by congruence.
      assert (rowP = map (exercise_value "put" strike) (lattice_level spot up down n))
        as -> by congruence.
      destruct (lookup_lt_is_Some_2 (lattice_level spot up down n) j) as [a Ha].
      { rewrite lattice_level_length. lia. }
      rewrite (nth_lookup (map _ _) j (exercise_value "call" strike a))
        by (now rewrite list_lookup_fmap, Ha).
      rewrite (nth_lookup (map _ _) j (exercise_value "put" strike a))
        by (now rewrite list_lookup_fmap, Ha).
      rewrite (nth_lookup _ j a Ha). rewrite Nat.sub_diag. simpl pow.
      unfold exercise_value.
      change (String.eqb "call" "call") with true.
      change (String.eqb "put" "call") with false. cbv iota.
      rewrite !py_max_Rmax.
      unfold Rmax. destruct (Rle_dec (a - strike) 0), (Rle_dec (strike - a) 0); lra.
    - intros s rowC nextC level Hs HrowC HnextC Hlevel IH -> rowP HrowP j Hj.
      destruct HfillP as (_ & _ & HrecP).
      destruct (HrecP s) as (rowP' & nextP & level' & HrowP' & HnextP & Hlevel' & HeqP);
        [lia|].
      assert (rowP = rowP') as -> by congruence. subst rowP'.
      specialize (IH nextP HnextP).
      rewrite !nth_map_seq by lia. unfold node_formula.
      pose proof (IH (S j) ltac:(lia)) as Hu. pose proof (IH j ltac:(lia)) as Hd.
      destruct (lattice_children spot up down s j Hj) as (Hcu & Hcd).
      rewrite Hcu in Hu. rewrite Hcd in Hd.
      replace (n - s)%nat with (S (n - S s)) by lia. simpl pow.
      set (a := nth j (lattice_level spot up down s) 0) in *.
      set (G := (d * g) ^ (n - S s)) in *. set (D := d ^ (n - S s)) in *.
      transitivity (d * (p * (nth (S j) nextC 0 - nth (S j) nextP 0)
                         + (1 - p) * (nth j nextC 0 - nth j nextP 0))); [ring|].
      rewrite Hu, Hd.
      transitivity (a * G * d * (p * up + (1 - p) * down) - strike * (d * D)); [ring|].
      rewrite Hmean. ring. }
  eexists _, _, _, _. split; [exact HrunC|]. split; [exact HrunP|].
  cbn [price].
  unfold entry in HrootC, HrootP.
  destruct (VC !! 0%nat) as [rowC|] eqn:HrowC; [|discriminate].
  destruct (VP !! 0%nat) as [rowP|] eqn:HrowP; [|discriminate].
  pose proof (Hall 0%nat rowC ltac:(lia) HrowC rowP HrowP 0%nat ltac:(lia)) as Hroot.
  rewrite (nth_lookup _ _ _ HrootC), (nth_lookup _ _ _ HrootP) in Hroot.
  rewrite Hroot, lattice_level_nth by lia. rewrite !Nat.sub_0_r. simpl pow.
  assert (Hn : INR n = IZR steps).
  { unfold n. rewrite INR_IZR_INZ. f_equal. lia. }
  assert (Hsteps' : IZR steps <> 0) by (apply not_0_IZR; lia).
  assert (HG : (d * g) ^ n = exp (- dividend * maturity)).
  { unfold d, g, crr_discount, crr_growth. rewrite <- exp_plus, exp_pow_nat, Hn.
    f_equal. unfold crr_dt. field. exact Hsteps'. }
  assert (HD : d ^ n = exp (- rate * maturity)).
  { unfold d, crr_discount. rewrite exp_pow_nat, Hn.
    f_equal. unfold crr_dt. field. exact Hsteps'. }
  rewrite HG, HD. ring.
Qed.

Lemma put_call_parity_witness :
  priced 100 100 1 0 0.2 2 "call" 0
  /\ exists st_c call st_p put,
       run_binomial 100 100 1 0 0.2 2 "call" false 0 = (st_c, Returns call)
       /\ run_binomial 100 100 1 0 0.2 2 "put" false 0 = (st_p, Returns put)
       /\ price call - price put = 100 * exp (- 0 * 1) - 100 * exp (- 0 * 1).
Proof.
  split; [apply priced_example; now left|].
  destruct (put_call_parity 100 100 1 0 0.2 2 0)
    as (st_c & c & st_p & q & Hc & Hq & Hparity); [apply priced_example; now left|].
  exists st_c, c, st_p, q. auto.
Defined.

(** X5. In exact real arithmetic the lattice recombines: an up move
    multiplies a node price by [up], a down move by [down], and
    [up * down = 1], so that an up move followed by a down move leads back
    to the same price two steps later.  (With floats [up * down] is 1 only
    up to rounding, and so is the recombination.) *)
Theorem lattice_recombines
    spot strike maturity rate volatility steps option_type american dividend :
  priced spot strike maturity rate volatility steps option_type dividend ->
  exists st res,
    run_binomial spot strike maturity rate volatility steps
      option_type american dividend = (st, Returns res)
    /\ crr_up maturity volatility steps * crr_down maturity volatility steps = 1
    /\ forall s j a,
         (j <= s)%nat -> entry (asset_prices res) s j = Some a ->
         ((Z.of_nat s + 1 <= steps)%Z ->
          entry (asset_prices res) (S s) (S j)
          = Some (a * crr_up maturity volatility steps)
          /\ entry (asset_prices res) (S s) j
             = Some (a * crr_down maturity volatility steps))
         /\ ((Z.of_nat s + 2 <= steps)%Z ->
             entry (asset_prices res) (S (S s)) (S j) = Some a).
Proof.
  intros Hp.
  destruct (binomial_run spot strike maturity rate volatility steps
              option_type american dividend Hp)
    as (V & root_value & Hrun & _).
  set (up := crr_up maturity volatility steps) in *.
  set (down := crr_down maturity volatility steps) in *.
  assert (Hud : up * down = 1).
  { unfold down, crr_down. fold up. field. apply Rgt_not_eq, exp_pos. }
  assert (Hentry : forall s j, (s <= Z.to_nat steps)%nat -> (j <= s)%nat ->
            entry (map (lattice_level spot up down) (seq 0 (S (Z.to_nat steps)))) s j
            = Some (spot * up ^ j * down ^ (s - j))).
  { intros s j Hs Hj. unfold entry. rewrite lattice_lookup by lia.
    unfold lattice_level. now rewrite list_lookup_fmap, lookup_seq_lt by lia. }
  eexists _, _. split; [exact Hrun|]. cbn [asset_prices].
  split; [exact Hud|].
  intros s j a Hj Ha.
  assert (Hs : (s <= Z.to_nat steps)%nat).
  { unfold entry in Ha.
    destruct (_ !! s) eqn:E; [|discriminate].
    apply lookup_lt_Some in E. rewrite length_map, length_seq in E. lia. }
  rewrite Hentry in Ha by lia. injection Ha as <-.
  split.
  - intros Hnext. rewrite !Hentry by lia.
    replace (S s - S j)%nat with (s - j)%nat by lia.
    replace (S s - j)%nat with (S (s - j)) by lia.
    simpl pow. split; f_equal; ring.
  - intros Hnext. rewrite Hentry by lia.
    replace (S (S s) - S j)%nat with (S (s - j)) by lia.
    simpl pow. f_equal.
    transitivity (spot * up ^ j * down ^ (s - j) * (up * down)); [ring|].
    rewrite Hud. ring.
Qed.

Lemma lattice_recombines_witness :
  priced 100 100 1 0 0.2 2 "call" 0
  /\ exists st res,
       run_binomial 100 100 1 0 0.2 2 "call" false 0 = (st, Returns res)
       /\ crr_up 1 0.2 2 * crr_down 1 0.2 2 = 1.
Proof.
  split; [apply priced_example; now left|].
  destruct (lattice_recombines 100 100 1 0 0.2 2 "call" false 0)
    as (st & res & Hrun & Hud & _); [apply priced_example; now left|].
  exists st, res. split; assumption.
Defined.

(** With valid parameters the up and down factors coincide exactly when
    the volatility is zero. *)
(** X6. Every failure of the pricer happens before any lattice list exists and
    is the error of the validation, of the option type test, of the
    division by up - down, or of the arbitrage test.  The division fails
    exactly when the parameters are valid, the option type is known and
    the computed [up - down] is zero.  No index is ever out of range.
    (The real numbers of this model have no overflow: the
    [OverflowError] of [exp] or of a power is left out.  Over the reals
    [up - down] is zero only for zero volatility; with floats it is also
    zero for a volatility so small that [exp] rounds to 1.) *)
Theorem binomial_failures
    spot strike maturity rate volatility steps option_type american dividend :
  let r := run_binomial spot strike maturity rate volatility steps
             option_type american dividend in
  (forall e, r.2 = Raises e ->
     r.1 = no_lattice
     /\ (_validate_parameters spot strike maturity rate volatility steps = Raises e
         \/ e = ValueError "option_type must be 'call' or 'put'."
         \/ e = ZeroDivisionError
         \/ e = ValueError arbitrage_message))
  /\ (r.2 = Raises ZeroDivisionError
      <-> _validate_parameters spot strike maturity rate volatility steps = Returns tt
          /\ (option_type = "call" \/ option_type = "put")
          /\ crr_up maturity volatility steps - crr_down maturity volatility steps = 0)
  /\ r.2 <> Raises IndexError.
Proof.
  intros r.
  assert (Hvalue : forall e,
            _validate_parameters spot strike maturity rate volatility steps = Raises e ->
            exists message, e = ValueError message).
  { intros e. unfold _validate_parameters.
    repeat match goal with
           | |- (if ?c then _ else _) = _ -> _ => destruct c
           end; intros [= <-]; eauto. }
  pose proof (binomial_cases spot strike maturity rate volatility steps
                option_type american dividend) as Hcases.
  cbv zeta in Hcases. fold r in Hcases.
  destruct Hcases as
    [(e & Hv & Hr)
    |[(Hv & Ht & Hr)
    |[(Hv & Ht & Hz & Hr)
    |[(Hv & Ht & Hnz & Hp & Hr)
    |((Hv & Ht & Hnz & Hp) & st & res & Hr)]]]]; rewrite Hr; cbn [fst snd].
  - split; [|split].
    + intros e' [= <-]. auto.
    + split.
      * intros [= He]. destruct (Hvalue _ Hv) as [m Hm]. congruence.
      * intros (Hv' & _). congruence.
    + intros [= He]. destruct (Hvalue _ Hv) as [m Hm]. congruence.
  - split; [|split].
    + intros e' [= <-]. auto.
    + split; [discriminate|]. intros (_ & Ht' & _). contradiction.
    + discriminate.
  - split; [|split].
    + intros e' [= <-]. auto.
    + split; [|reflexivity]. intros _. repeat split; auto.
    + discriminate.
  - split; [|split].
    + intros e' [= <-]. auto.
    + split; [discriminate|]. intros (_ & _ & Hz). contradiction.
    + discriminate.
  - split; [|split].
    + discriminate.
    + split; [discriminate|]. intros (_ & _ & Hz). contradiction.
    + discriminate.
Qed.

End BinomialExtras.

(** ** The Monte Carlo engine *)

Module MonteCarloProofs.
Import MonteCarlo.

Lemma walk_length drift diffusion price zs :
  length (walk drift diffusion price zs) = length zs.
Proof.
  revert price. induction zs as [|z zs IH]; intros price; simpl; [reflexivity|].
  now rewrite IH.
Qed.

Lemma last_walk drift diffusion price zs :
  last (price :: walk drift diffusion price zs)
  = Some (walk_end drift diffusion price zs).
Proof.
  revert price. induction zs as [|z zs IH]; intros price; [reflexivity|].
  change (walk drift diffusion price (z :: zs))
    with (price * exp (drift + diffusion * z)
          :: walk drift diffusion (price * exp (drift + diffusion * z)) zs).
  rewrite last_cons, IH. reflexivity.
Qed.

Lemma validate_inputs_returns spot maturity rate volatility steps paths :
  _validate_inputs spot maturity rate volatility steps paths = Returns tt
  <-> 0 < spot /\ 0 < maturity /\ (0 < steps)%Z /\ (0 < paths)%Z /\ 0 <= volatility.
Proof.
  unfold _validate_inputs, _validate_positive, outcome_bind.
  destruct (Rleb spot 0) eqn:E1; [apply Rleb_true in E1|apply Rleb_false in E1];
    [split; [discriminate|lra]|].
  destruct (Rleb maturity 0) eqn:E2; [apply Rleb_true in E2|apply Rleb_false in E2];
    [split; [discriminate|lra]|].
  destruct (Rleb (IZR steps) 0) eqn:E3; [apply Rleb_true in E3|apply Rleb_false in E3].
  { split; [discriminate|]. intros (_ & _ & H & _). apply IZR_lt in H. lra. }
  destruct (Rleb (IZR paths) 0) eqn:E4; [apply Rleb_true in E4|apply Rleb_false in E4].
  { split; [discriminate|]. intros (_ & _ & _ & H & _). apply IZR_lt in H. lra. }
  destruct (Rltb volatility 0) eqn:E5; [apply Rltb_true in E5|apply Rltb_false in E5];
    [split; [discriminate|lra]|].
  split; [intros _|reflexivity].
  repeat split; try assumption; apply lt_IZR; assumption.
Qed.

Section Simulation.
Variable gauss : nat -> R.
Variable payoff : R -> list R -> outcome R.
Variables (spot drift diffusion : R).

Lemma simulate_step_run s :
  simulate_step gauss drift diffusion s
  = ({| draws := S (draws s);
        l_simulated_paths := l_simulated_paths s;
        l_payoffs := l_payoffs s;
        l_prices := l_prices s
                    ++ [l_price s * exp (drift + diffusion * gauss (draws s))];
        l_price := l_price s * exp (drift + diffusion * gauss (draws s)) |},
     Returns tt).
Proof. reflexivity. Qed.

Lemma steps_loop {A} (l : list A) : forall s,
  let zs := map gauss (seq (draws s) (length l)) in
  for_each l (fun _ => simulate_step gauss drift diffusion) s
  = ({| draws := draws s + length l;
        l_simulated_paths := l_simulated_paths s;
        l_payoffs := l_payoffs s;
        l_prices := l_prices s ++ walk drift diffusion (l_price s) zs;
        l_price := walk_end drift diffusion (l_price s) zs |},
     Returns tt).
Proof.
  induction l as [|x l IH]; intros s zs.
  - destruct s. unfold zs. simpl. now rewrite app_nil_r, Nat.add_0_r.
  - simpl for_each. rewrite (bind_returns _ _ _ _ _ (simulate_step_run s)).
    rewrite IH. unfold zs. simpl. rewrite <- app_assoc.
    now rewrite Nat.add_succ_r.
Qed.

#[local] Abbreviation simulated := (simulated payoff spot drift diffusion).

Hypothesis payoff_returns : forall price path, exists v, payoff price path = Returns v.

Lemma simulate_path_run (steps : Z) s :
  exists v prices price',
    simulate_path gauss payoff spot drift diffusion steps s
    = ({| draws := draws s + Z.to_nat steps;
          l_simulated_paths := l_simulated_paths s ++ [prices];
          l_payoffs := l_payoffs s ++ [v];
          l_prices := prices;
          l_price := price' |}, Returns tt)
    /\ simulated (Z.to_nat steps) prices v.
Proof.
  set (zs := map gauss (seq (draws s) (Z.to_nat steps))).
  destruct (payoff_returns (walk_end drift diffusion spot zs)
              (spot :: walk drift diffusion spot zs)) as [v Hv].
  exists v, (spot :: walk drift diffusion spot zs), (walk_end drift diffusion spot zs).
  split.
  - unfold simulate_path.
    unfold bind at 1. cbn [set_prices modify].
    unfold bind at 1. cbn [set_price modify].
    unfold bind at 1. rewrite steps_loop.
    cbn [draws l_simulated_paths l_payoffs l_prices l_price].
    unfold range. rewrite length_seq. fold zs.
    unfold bind at 1. cbn [get]. unfold bind at 1.
    cbn [set_simulated_paths modify draws l_simulated_paths l_payoffs l_prices l_price].
    unfold bind at 1. cbn [get]. unfold bind at 1.
    cbn [lift draws l_simulated_paths l_payoffs l_prices l_price app].
    rewrite Hv. reflexivity.
  - exists zs. split; [|split; auto].
    unfold zs. now rewrite length_map, length_seq.
Qed.

Lemma paths_loop {A} (steps : Z) (l : list A) : forall s,
  exists new_paths new_payoffs prices price',
    for_each l (fun _ => simulate_path gauss payoff spot drift diffusion steps) s
    = ({| draws := draws s + length l * Z.to_nat steps;
          l_simulated_paths := l_simulated_paths s ++ new_paths;
          l_payoffs := l_payoffs s ++ new_payoffs;
          l_prices := prices;
          l_price := price' |}, Returns tt)
    /\ length new_paths = length l
    /\ Forall2 (simulated (Z.to_nat steps)) new_paths new_payoffs.
Proof.
  induction l as [|x l IH]; intros s.
  - exists [], [], (l_prices s), (l_price s). destruct s. simpl.
    rewrite !app_nil_r, Nat.add_0_r. auto.
  - destruct (simulate_path_run steps s) as (v & path & p1 & Hrun & Hsim).
    simpl for_each. rewrite (bind_returns _ _ _ _ _ Hrun).
    edestruct IH as (nps & npf & prices & price' & Hloop & Hlen & Hall).
    rewrite Hloop.
    cbn [draws l_simulated_paths l_payoffs l_prices l_price].
    exists (path :: nps), (v :: npf), prices, price'.
    split; [|split].
    + rewrite <- !app_assoc. simpl. f_equal. f_equal. lia.
    + simpl. now rewrite Hlen.
    + now constructor.
Qed.

End Simulation.

Lemma py_sum_fold_right (l : list R) : py_sum l = fold_right Rplus 0 l.
Proof.
  unfold py_sum. apply fold_symmetric; intros; ring.
Qed.

Section Priced.
Variable gauss : nat -> R.
Variable payoff : R -> list R -> outcome R.
Variables (spot maturity rate volatility : R) (steps paths : Z).

Let dt := maturity / IZR steps.
Let drift := (rate - 0.5 * volatility * volatility) * dt.
Let diffusion := volatility * sqrt dt.

Lemma monte_carlo_invalid e :
  _validate_inputs spot maturity rate volatility steps paths = Raises e ->
  run_monte_carlo gauss payoff spot maturity rate volatility steps paths
  = (fresh, Raises e).
Proof.
  intros H. unfold run_monte_carlo, monte_carlo_option_price.
  unfold bind at 1. unfold lift at 1. now rewrite H.
Qed.

Lemma monte_carlo_run :
  _validate_inputs spot maturity rate volatility steps paths = Returns tt ->
  (forall price path, exists v, payoff price path = Returns v) ->
  exists st res,
    run_monte_carlo gauss payoff spot maturity rate volatility steps paths
    = (st, Returns res)
    /\ draws st = (Z.to_nat paths * Z.to_nat steps)%nat
    /\ length (MonteCarlo.paths res) = Z.to_nat paths
    /\ Forall2 (simulated payoff spot drift diffusion (Z.to_nat steps))
         (MonteCarlo.paths res) (payoffs res)
    /\ price res
       = exp (- rate * maturity) * py_sum (payoffs res)
         / INR (length (payoffs res)).
Proof.
  intros Hvalid Htotal.
  pose proof (proj1 (validate_inputs_returns _ _ _ _ _ _) Hvalid)
    as (Hspot & Hmat & Hsteps & Hpaths & Hvol).
  unfold run_monte_carlo, monte_carlo_option_price.
  unfold bind at 1. unfold lift at 1. rewrite Hvalid.
  unfold bind at 1. unfold lift at 1.
  rewrite py_div_nonzero by (apply not_0_IZR; lia).
  fold dt. fold drift. fold diffusion.
  unfold bind at 1. cbn [set_simulated_paths modify fresh draws l_simulated_paths
                         l_payoffs l_prices l_price].
  unfold bind at 1. cbn [set_payoffs modify draws l_simulated_paths
                         l_payoffs l_prices l_price].
  unfold bind at 1.
  edestruct (paths_loop gauss payoff spot drift diffusion Htotal steps (range paths))
    as (nps & npf & prices & price' & Hloop & Hlen & Hall).
  rewrite Hloop. clear Hloop.
  cbn [draws l_simulated_paths l_payoffs l_prices l_price app].
  unfold range in *. rewrite length_seq in *.
  pose proof (Forall2_length _ _ _ Hall) as Hlen'.
  unfold bind at 1. cbn [get]. unfold bind at 1.
  cbn [lift draws l_simulated_paths l_payoffs l_prices l_price].
  rewrite py_div_nonzero.
  2:{ apply not_0_INR. lia. }
  eexists _, _. split; [reflexivity|].
  cbn [draws price payoffs MonteCarlo.paths]. auto.
Qed.
End Priced.

(** C6. With valid inputs and a payoff that returns, the engine returns
    [paths] payoffs, at least one; the price is the discount factor
    exp(-rate * maturity) times their sum divided by their number, that is
    times their arithmetic mean; and each payoff is the payoff callable
    applied to the terminal price and the whole of the simulated path at
    the same position: the plain average, nothing else. *)
Theorem price_is_discounted_mean
    gauss payoff spot maturity rate volatility steps paths :
  _validate_inputs spot maturity rate volatility steps paths = Returns tt ->
  (forall price path, exists v, payoff price path = Returns v) ->
  exists st res,
    run_monte_carlo gauss payoff spot maturity rate volatility steps paths
    = (st, Returns res)
    /\ Z.of_nat (length (payoffs res)) = paths
    /\ payoffs res <> []
    /\ price res
       = exp (- rate * maturity) * py_sum (payoffs res) / INR (length (payoffs res))
    /\ price res = exp (- rate * maturity) * mean (payoffs res)
    /\ Forall2 (fun path v =>
                  simulated payoff spot
                    ((rate - 0.5 * volatility * volatility) * (maturity / IZR steps))
                    (volatility * sqrt (maturity / IZR steps))
                    (Z.to_nat steps) path v
                  /\ exists terminal, last path = Some terminal
                                      /\ payoff terminal path = Returns v)
         (MonteCarlo.paths res) (payoffs res).
Proof.
  intros Hvalid Htotal.
  destruct (monte_carlo_run gauss payoff spot maturity rate volatility steps paths
              Hvalid Htotal) as (st & res & Hrun & _ & Hlen & Hall & Hprice).
  apply validate_inputs_returns in Hvalid as (_ & _ & _ & Hpaths & _).
  pose proof (Forall2_length _ _ _ Hall) as Hlen'.
  exists st, res. split; [exact Hrun|].
  split; [lia|]. split.
  { intros Hnil. rewrite Hnil in Hlen'. simpl in Hlen'. lia. }
  split; [exact Hprice|]. split.
  - rewrite Hprice, py_sum_fold_right. unfold mean, Rdiv. ring.
  - eapply Forall2_impl; [exact Hall|].
    intros path v Hsim. split; [exact Hsim|].
    destruct Hsim as (zs & _ & -> & Hv). eexists. split; [apply last_walk|exact Hv].
Qed.

Lemma price_is_discounted_mean_witness :
  _validate_inputs 100 1 0.05 0.2 2 3 = Returns tt
  /\ exists st res,
       run_monte_carlo (fun k => INR k) call_100 100 1 0.05 0.2 2 3 = (st, Returns res)
       /\ Z.of_nat (length (payoffs res)) = 3%Z
       /\ price res = exp (- (0.05) * 1) * mean (payoffs res).
Proof.
  assert (Hvalid : _validate_inputs 100 1 0.05 0.2 2 3 = Returns tt).
  { apply validate_inputs_returns. repeat split; try lra; lia. }
  split; [exact Hvalid|].
  destruct (price_is_discounted_mean (fun k => INR k) call_100 100 1 0.05 0.2 2 3)
    as (st & res & Hrun & Hlen & _ & _ & Hprice & _).
  - exact Hvalid.
  - intros p path. eexists. reflexivity.
  - exists st, res. repeat split; assumption.
Defined.

(** C8. With valid inputs and a payoff that returns, there are [paths]
    paths and [paths] payoffs, and every path has steps + 1 points of
    which the first is [spot]. *)
Theorem path_shape
    gauss payoff spot maturity rate volatility steps paths :
  _validate_inputs spot maturity rate volatility steps paths = Returns tt ->
  (forall price path, exists v, payoff price path = Returns v) ->
  exists st res,
    run_monte_carlo gauss payoff spot maturity rate volatility steps paths
    = (st, Returns res)
    /\ Z.of_nat (length (MonteCarlo.paths res)) = paths
    /\ Z.of_nat (length (payoffs res)) = paths
    /\ Forall (fun path => Z.of_nat (length path) = (steps + 1)%Z
                           /\ path !! 0%nat = Some spot)
         (MonteCarlo.paths res).
Proof.
  intros Hvalid Htotal.
  destruct (monte_carlo_run gauss payoff spot maturity rate volatility steps paths
              Hvalid Htotal) as (st & res & Hrun & _ & Hlen & Hall & _).
  apply validate_inputs_returns in Hvalid as (_ & _ & Hsteps & Hpaths & _).
  exists st, res. split; [exact Hrun|].
  pose proof (Forall2_length _ _ _ Hall) as Hlen'.
  split; [lia|]. split; [lia|].
  clear Hrun Hlen Hlen'. induction Hall as [|path v ps vs (zs & Hzs & -> & _) _ IH];
    constructor; [|exact IH].
  split; [|reflexivity].
  rewrite length_cons, walk_length, Hzs. lia.
Qed.

Lemma path_shape_witness :
  _validate_inputs 100 1 0.05 0.2 2 3 = Returns tt
  /\ exists st res,
       run_monte_carlo (fun k => INR k) call_100 100 1 0.05 0.2 2 3 = (st, Returns res)
       /\ length (MonteCarlo.paths res) = 3%nat
       /\ length (payoffs res) = 3%nat.
Proof.
  assert (Hvalid : _validate_inputs 100 1 0.05 0.2 2 3 = Returns tt).
  { apply validate_inputs_returns. repeat split; try lra; lia. }
  split; [exact Hvalid|].
  destruct (path_shape (fun k => INR k) call_100 100 1 0.05 0.2 2 3)
    as (st & res & Hrun & Hpaths & Hpayoffs & _).
  - exact Hvalid.
  - intros p path. eexists. reflexivity.
  - exists st, res. split; [exact Hrun|]. split; lia.
Defined.

(** C7. One path of one step with zero volatility and zero rate: one
    payoff, and the path [[spot, spot]], whatever the normal source
    delivers. *)
Theorem zero_volatility_zero_rate_path gauss payoff spot maturity :
  0 < spot -> 0 < maturity ->
  (forall price path, exists v, payoff price path = Returns v) ->
  exists st res v,
    run_monte_carlo gauss payoff spot maturity 0 0 1 1 = (st, Returns res)
    /\ MonteCarlo.paths res = [[spot; spot]]
    /\ payoffs res = [v]
    /\ payoff spot [spot; spot] = Returns v.
Proof.
  intros Hspot Hmat Htotal.
  assert (Hvalid : _validate_inputs spot maturity 0 0 1 1 = Returns tt).
  { apply validate_inputs_returns. repeat split; try lra; lia. }
  destruct (monte_carlo_run gauss payoff spot maturity 0 0 1 1 Hvalid Htotal)
    as (st & res & Hrun & _ & Hlen & Hall & _).
  destruct res as [pr pf ps]. cbn [MonteCarlo.paths payoffs] in *.
  destruct Hall as [|path v ps vs (zs & Hzs & -> & Hv) Hrest]; [discriminate Hlen|].
  destruct Hrest; [|discriminate Hlen].
  destruct zs as [|z [|? ?]]; try discriminate Hzs.
  assert (Hstep : walk ((0 - 0.5 * 0 * 0) * (maturity / 1)) (0 * sqrt (maturity / 1))
                    spot [z] = [spot]).
  { simpl. f_equal.
    replace ((0 - 0.5 * 0 * 0) * (maturity / 1) + 0 * sqrt (maturity / 1) * z)
      with 0 by ring.
    rewrite exp_0. ring. }
  assert (Hend : walk_end ((0 - 0.5 * 0 * 0) * (maturity / 1)) (0 * sqrt (maturity / 1))
                   spot [z] = spot).
  { unfold walk_end. simpl.
    replace ((0 - 0.5 * 0 * 0) * (maturity / 1) + 0 * sqrt (maturity / 1) * z)
      with 0 by ring.
    rewrite exp_0. ring. }
  rewrite Hstep in *. rewrite Hend in Hv.
  exists st, {| price := pr; payoffs := [v]; paths := [[spot; spot]] |}, v.
  cbn [MonteCarlo.paths payoffs]. auto.
Qed.

Lemma zero_volatility_zero_rate_path_witness :
  exists st res,
    run_monte_carlo (fun k => INR k + 3) call_100 100 1 0 0 1 1 = (st, Returns res)
    /\ MonteCarlo.paths res = [[100; 100]]
    /\ length (payoffs res) = 1%nat.
Proof.
  destruct (zero_volatility_zero_rate_path (fun k => INR k + 3) call_100 100 1)
    as (st & res & v & Hrun & Hpaths & Hpayoffs & _); try lra.
  - intros p path. eexists. reflexivity.
  - exists st, res. split; [exact Hrun|]. split; [exact Hpaths|].
    now rewrite Hpayoffs.
Defined.

End MonteCarloProofs.

(** ** The Monte Carlo engine: further properties *)

Module MonteCarloExtras.
Import MonteCarlo.
Import MonteCarloProofs.

Section Blocks.
Variable gauss : nat -> R.
Variable payoff : R -> list R -> outcome R.
Variables (spot drift diffusion : R).

(** One path, whatever the payoff does. *)
Lemma simulate_path_cases (steps : Z) s :
  let zs := map gauss (seq (draws s) (Z.to_nat steps)) in
  let path := spot :: walk drift diffusion spot zs in
  let terminal := walk_end drift diffusion spot zs in
  simulate_path gauss payoff spot drift diffusion steps s
  = match payoff terminal path with
    | Returns v =>
        ({| draws := draws s + Z.to_nat steps;
            l_simulated_paths := l_simulated_paths s ++ [path];
            l_payoffs := l_payoffs s ++ [v];
            l_prices := path;
            l_price := terminal |}, Returns tt)
    | Raises e =>
        ({| draws := draws s + Z.to_nat steps;
            l_simulated_paths := l_simulated_paths s ++ [path];
            l_payoffs := l_payoffs s;
            l_prices := path;
            l_price := terminal |}, Raises e)
    end.
Proof.
  intros zs path terminal. unfold simulate_path.
  unfold bind at 1. cbn [set_prices modify].
  unfold bind at 1. cbn [set_price modify].
  unfold bind at 1. rewrite steps_loop.
  cbn [draws l_simulated_paths l_payoffs l_prices l_price].
  unfold range. rewrite length_seq. fold zs.
  unfold bind at 1. cbn [get]. unfold bind at 1.
  cbn [set_simulated_paths modify draws l_simulated_paths l_payoffs l_prices l_price].
  unfold bind at 1. cbn [get]. unfold bind at 1.
  cbn [lift draws l_simulated_paths l_payoffs l_prices l_price app].
  fold path. fold terminal.
  destruct (payoff terminal path); reflexivity.
Qed.

(** The loop over the paths, whatever the payoff does: it completes
    with one more path and payoff per iteration, each path driven by its
    own block of samples, or it stops at an error of the payoff. *)
Lemma paths_loop_cases {A} (steps : Z) (l : list A) : forall s,
  (exists s',
     for_each l (fun _ => simulate_path gauss payoff spot drift diffusion steps) s
     = (s', Returns tt)
     /\ draws s' = (draws s + length l * Z.to_nat steps)%nat
     /\ l_simulated_paths s'
        = l_simulated_paths s
          ++ map (block_path gauss spot drift diffusion (Z.to_nat steps) (draws s))
               (seq 0 (length l))
     /\ length (l_payoffs s') = (length (l_payoffs s) + length l)%nat)
  \/ (exists s' e terminal path,
        for_each l (fun _ => simulate_path gauss payoff spot drift diffusion steps) s
        = (s', Raises e)
        /\ payoff terminal path = Raises e).
Proof.
  induction l as [|x l IH]; intros s.
  - left. exists s. simpl. rewrite app_nil_r. repeat split; lia.
  - simpl for_each.
    pose proof (simulate_path_cases steps s) as Hstep. cbv zeta in Hstep.
    destruct (payoff _ _) as [v|e] eqn:Hpay.
    2:{ right. eexists _, e, _, _.
        split; [apply (bind_raises _ _ _ _ _ Hstep)|exact Hpay]. }
    rewrite (bind_returns _ _ _ _ _ Hstep).
    match goal with |- context [for_each l _ ?s1] => destruct (IH s1) as
      [(s' & Hrun & Hdraws & Hpaths & Hlen)|(s' & e & t & path & Hrun & He)] end.
    + left. exists s'. split; [exact Hrun|].
      cbn [draws l_simulated_paths l_payoffs] in Hdraws, Hpaths, Hlen.
      split; [simpl; lia|]. split.
      * rewrite Hpaths, <- app_assoc. f_equal.
        change (seq 0 (length (x :: l))) with (0%nat :: seq 1 (length l)).
        rewrite <- seq_shift, map_cons, map_map.
        change ([?a] ++ ?r) with (a :: r). f_equal.
        -- unfold block_path. now rewrite Nat.mul_0_l, Nat.add_0_r.
        -- apply map_ext. intros i. unfold block_path. cbn [draws].
           do 4 f_equal. simpl. lia.
      * rewrite Hlen, length_app. simpl. lia.
    + right. exists s', e, t, path. split; [exact Hrun|exact He].
Qed.
End Blocks.

Section Engine.
Variable gauss : nat -> R.
Variable payoff : R -> list R -> outcome R.
Variables (spot maturity rate volatility : R) (steps paths : Z).

Let dt := maturity / IZR steps.
Let drift := (rate - 0.5 * volatility * volatility) * dt.
Let diffusion := volatility * sqrt dt.

(** The engine with valid inputs, whatever the payoff does. *)
Lemma monte_carlo_cases :
  _validate_inputs spot maturity rate volatility steps paths = Returns tt ->
  (exists st res,
     run_monte_carlo gauss payoff spot maturity rate volatility steps paths
     = (st, Returns res)
     /\ draws st = (Z.to_nat paths * Z.to_nat steps)%nat
     /\ MonteCarlo.paths res
        = map (block_path gauss spot drift diffusion (Z.to_nat steps) 0)
            (seq 0 (Z.to_nat paths)))
  \/ (exists st e terminal path,
        run_monte_carlo gauss payoff spot maturity rate volatility steps paths
        = (st, Raises e)
        /\ payoff terminal path = Raises e).
Proof.
  intros Hvalid.
  pose proof (proj1 (validate_inputs_returns _ _ _ _ _ _) Hvalid)
    as (Hspot & Hmat & Hsteps & Hpaths & Hvol).
  unfold run_monte_carlo, monte_carlo_option_price.
  unfold bind at 1. unfold lift at 1. rewrite Hvalid.
  unfold bind at 1. unfold lift at 1.
  rewrite py_div_nonzero by (apply not_0_IZR; lia).
  fold dt. fold drift. fold diffusion.
  unfold bind at 1. cbn [set_simulated_paths modify fresh draws l_simulated_paths
                         l_payoffs l_prices l_price].
  unfold bind at 1. cbn [set_payoffs modify draws l_simulated_paths
                         l_payoffs l_prices l_price].
  destruct (paths_loop_cases gauss payoff spot drift diffusion steps (range paths)
              {| draws := 0; l_simulated_paths := []; l_payoffs := [];
                 l_prices := []; l_price := 0 |})
    as [(s' & Hrun & Hdraws & Hps & Hlen)|(s' & e & t & path & Hrun & He)].
  - left. rewrite (bind_returns _ _ _ _ _ Hrun).
    cbn [draws l_simulated_paths l_payoffs] in Hdraws, Hps, Hlen.
    unfold range in Hdraws, Hps, Hlen. rewrite length_seq in Hdraws, Hps, Hlen.
    unfold bind at 1. cbn [get]. unfold bind at 1. cbn [lift].
    rewrite py_div_nonzero by (apply not_0_INR; lia).
    eexists _, _. split; [reflexivity|]. cbn [MonteCarlo.paths].
    split; [exact Hdraws|exact Hps].
  - right. exists s', e, t, path. split; [|exact He].
    apply (bind_raises _ _ _ _ _ Hrun).
Qed.
End Engine.

Lemma walk_lookup drift diffusion (zs : list R) : forall price k z,
  zs !! k = Some z ->
  exists prev,
    (price :: walk drift diffusion price zs) !! k = Some prev
    /\ (price :: walk drift diffusion price zs) !! S k
       = Some (prev * exp (drift + diffusion * z)).
Proof.
  induction zs as [|z0 zs IH]; intros price k z Hz; [discriminate|].
  destruct k as [|k].
  - injection Hz as ->. exists price. split; reflexivity.
  - simpl in Hz. destruct (IH (price * exp (drift + diffusion * z0)) k z Hz)
      as (prev & Hprev & Hnext).
    exists prev. split; [exact Hprev|exact Hnext].
Qed.

Lemma walk_positive drift diffusion (zs : list R) : forall price,
  0 < price -> Forall (fun x => 0 < x) (walk drift diffusion price zs).
Proof.
  induction zs as [|z zs IH]; intros price Hprice; simpl; constructor.
  - apply Rmult_lt_0_compat; [exact Hprice|apply exp_pos].
  - apply IH. apply Rmult_lt_0_compat; [exact Hprice|apply exp_pos].
Qed.

(** X7. Path [i] is driven by the samples number [i * steps] to
    [i * steps + steps - 1] of the normal source: its point [k + 1] is its
    point [k] times exp(drift + diffusion * sample [i * steps + k]).  A
    run that returns has taken [paths * steps] samples. *)
Theorem path_steps_follow_samples
    gauss payoff spot maturity rate volatility steps paths :
  _validate_inputs spot maturity rate volatility steps paths = Returns tt ->
  (forall price path, exists v, payoff price path = Returns v) ->
  exists st res,
    run_monte_carlo gauss payoff spot maturity rate volatility steps paths
    = (st, Returns res)
    /\ Z.of_nat (draws st) = (paths * steps)%Z
    /\ forall i k,
         (Z.of_nat i < paths)%Z -> (Z.of_nat k < steps)%Z ->
         exists path prev,
           MonteCarlo.paths res !! i = Some path
           /\ path !! k = Some prev
           /\ path !! S k
              = Some (prev
                      * exp ((rate - 0.5 * volatility * volatility) * (maturity / IZR steps)
                             + volatility * sqrt (maturity / IZR steps)
                               * gauss (i * Z.to_nat steps + k)%nat)).
Proof.
  intros Hvalid Htotal.
  destruct (monte_carlo_cases gauss payoff spot maturity rate volatility steps paths Hvalid)
    as [(st & res & Hrun & Hdraws & Hpaths)|(st & e & t & path & _ & He)].
  2:{ destruct (Htotal t path) as [v Hv]. congruence. }
  apply validate_inputs_returns in Hvalid as (_ & _ & Hsteps & Hps & _).
  exists st, res. split; [exact Hrun|]. split; [lia|].
  intros i k Hi Hk. rewrite Hpaths.
  rewrite list_lookup_fmap, lookup_seq_lt by lia. cbn [fmap option_fmap option_map Nat.add].
  unfold block_path.
  destruct (walk_lookup
              ((rate - 0.5 * volatility * volatility) * (maturity / IZR steps))
              (volatility * sqrt (maturity / IZR steps))
              (map gauss (seq (0 + i * Z.to_nat steps) (Z.to_nat steps)))
              spot k (gauss (i * Z.to_nat steps + k)%nat))
    as (prev & Hprev & Hnext).
  { rewrite list_lookup_fmap, lookup_seq_lt by lia. reflexivity. }
  eexists _, prev. split; [reflexivity|]. split; [exact Hprev|exact Hnext].
Qed.

Lemma path_steps_follow_samples_witness :
  _validate_inputs 100 1 0.05 0.2 2 3 = Returns tt
  /\ exists st res,
       run_monte_carlo (fun k => INR k) call_100 100 1 0.05 0.2 2 3 = (st, Returns res)
       /\ Z.of_nat (draws st) = 6%Z.
Proof.
  assert (Hvalid : _validate_inputs 100 1 0.05 0.2 2 3 = Returns tt).
  { apply validate_inputs_returns. repeat split; try lra; lia. }
  split; [exact Hvalid|].
  destruct (path_steps_follow_samples (fun k => INR k) call_100 100 1 0.05 0.2 2 3)
    as (st & res & Hrun & Hdraws & _).
  - exact Hvalid.
  - intros p path. eexists. reflexivity.
  - exists st, res. split; [exact Hrun|exact Hdraws].
Defined.

(** X8. Every simulated price is positive. *)
Theorem simulated_prices_positive
    gauss payoff spot maturity rate volatility steps paths :
  _validate_inputs spot maturity rate volatility steps paths = Returns tt ->
  (forall price path, exists v, payoff price path = Returns v) ->
  exists st res,
    run_monte_carlo gauss payoff spot maturity rate volatility steps paths
    = (st, Returns res)
    /\ Forall (fun path => Forall (fun x => 0 < x) path) (MonteCarlo.paths res).
Proof.
  intros Hvalid Htotal.
  destruct (monte_carlo_cases gauss payoff spot maturity rate volatility steps paths Hvalid)
    as [(st & res & Hrun & _ & Hpaths)|(st & e & t & path & _ & He)].
  2:{ destruct (Htotal t path) as [v Hv]. congruence. }
  apply validate_inputs_returns in Hvalid as (Hspot & _).
  exists st, res. split; [exact Hrun|]. rewrite Hpaths.
  apply Forall_forall. intros path Hin.
  apply list_elem_of_fmap in Hin as (i & -> & _).
  unfold block_path. constructor; [exact Hspot|]. now apply walk_positive.
Qed.

Lemma simulated_prices_positive_witness :
  _validate_inputs 100 1 0.05 0.2 2 3 = Returns tt
  /\ exists st res,
       run_monte_carlo (fun k => INR k) call_100 100 1 0.05 0.2 2 3 = (st, Returns res)
       /\ Forall (fun path => Forall (fun x => 0 < x) path) (MonteCarlo.paths res).
Proof.
  assert (Hvalid : _validate_inputs 100 1 0.05 0.2 2 3 = Returns tt).
  { apply validate_inputs_returns. repeat split; try lra; lia. }
  split; [exact Hvalid|].
  apply (simulated_prices_positive (fun k => INR k) call_100 100 1 0.05 0.2 2 3 Hvalid).
  intros p path. eexists. reflexivity.
Defined.

(** X9. Where no conversion to float and no [math.exp] overflows (the
    real numbers of this model have no overflow, so the [OverflowError]
    that the code raises there is left out), the engine fails only with
    the error of its validation, before any sample is taken, or with an
    error that the payoff callable raised on a path: the divisions by
    [steps] and by the number of payoffs never divide by zero. *)
Theorem monte_carlo_failures
    gauss payoff spot maturity rate volatility steps paths :
  let r := run_monte_carlo gauss payoff spot maturity rate volatility steps paths in
  forall e, r.2 = Raises e ->
    (_validate_inputs spot maturity rate volatility steps paths = Raises e
     /\ r.1 = fresh)
    \/ (_validate_inputs spot maturity rate volatility steps paths = Returns tt
        /\ exists terminal path, payoff terminal path = Raises e).
Proof.
  intros r e He.
  destruct (_validate_inputs spot maturity rate volatility steps paths) as [[]|e'] eqn:Hv.
  - right. split; [reflexivity|].
    destruct (monte_carlo_cases gauss payoff spot maturity rate volatility steps paths Hv)
      as [(st & res & Hrun & _)|(st & e' & t & path & Hrun & Hpay)];
      unfold r in He; rewrite Hrun in He; cbn [snd] in He; [discriminate|].
    injection He as <-. eauto.
  - left. unfold r in *. rewrite (monte_carlo_invalid _ _ _ _ _ _ _ _ e' Hv) in *.
    cbn [fst snd] in *. injection He as <-. auto.
Qed.

Lemma monte_carlo_failures_witness :
  (run_monte_carlo (fun k => INR k) call_100 0 1 0.05 0.2 2 3).2
  = Raises (ValueError "spot must be positive.")
  /\ ((_validate_inputs 0 1 0.05 0.2 2 3 = Raises (ValueError "spot must be positive.")
       /\ (run_monte_carlo (fun k => INR k) call_100 0 1 0.05 0.2 2 3).1 = fresh)
      \/ (_validate_inputs 0 1 0.05 0.2 2 3 = Returns tt
          /\ exists terminal path,
               call_100 terminal path = Raises (ValueError "spot must be positive."))).
Proof.
  assert (Hv : _validate_inputs 0 1 0.05 0.2 2 3
               = Raises (ValueError "spot must be positive.")).
  { unfold _validate_inputs, _validate_positive.
    rewrite (proj2 (Rleb_true 0 0)) by lra. reflexivity. }
  assert (Hr : (run_monte_carlo (fun k => INR k) call_100 0 1 0.05 0.2 2 3).2
               = Raises (ValueError "spot must be positive.")).
  { unfold run_monte_carlo, monte_carlo_option_price.
    unfold bind at 1. unfold lift at 1. rewrite Hv. reflexivity. }
  split; [exact Hr|].
  apply (monte_carlo_failures (fun k => INR k) call_100 0 1 0.05 0.2 2 3 _ Hr).
Defined.

Lemma walk_compound drift diffusion factor (zs : list R) : forall price,
  (forall z, exp (drift + diffusion * z) = factor) ->
  walk drift diffusion price zs = compound factor price (length zs).
Proof.
  induction zs as [|z zs IH]; intros price Hf; [reflexivity|].
  cbn [walk length compound]. rewrite Hf. f_equal. now apply IH.
Qed.

Lemma compound_lookup factor (n : nat) : forall price k,
  (k <= n)%nat -> (price :: compound factor price n) !! k = Some (price * factor ^ k).
Proof.
  induction n as [|n IH]; intros price k Hk.
  - assert (k = 0%nat) as -> by lia. simpl. f_equal. ring.
  - destruct k as [|k]; [simpl; f_equal; ring|].
    cbn [compound]. rewrite lookup_cons_ne_0 by lia. cbn [Nat.pred].
    rewrite IH by lia. f_equal. simpl. ring.
Qed.

Lemma py_sum_constant (v : R) (l : list R) :
  Forall (fun x => x = v) l -> py_sum l = INR (length l) * v.
Proof.
  intros Hall. rewrite py_sum_fold_right.
  induction Hall as [|x l -> _ IH].
  - simpl. ring.
  - cbn [foldr length]. rewrite IH, S_INR. ring.
Qed.

(** X10. With zero volatility nothing is random: whatever the normal source
    delivers, every path is the running product that starts at [spot] and
    multiplies by exp(rate * dt) at each of the [steps] steps, every
    payoff is the payoff at the last price of that path, and the price is
    the discount factor times the sum of the payoffs divided by their
    number.  In exact real arithmetic, point [k] of the path is
    spot * exp(rate * dt)^k, the last price is spot * exp(rate * maturity)
    and the price is exp(-rate * maturity) times the one payoff. *)
Theorem zero_volatility_forward_path
    gauss payoff spot maturity rate steps paths :
  _validate_inputs spot maturity rate 0 steps paths = Returns tt ->
  (forall price path, exists v, payoff price path = Returns v) ->
  let factor := exp (rate * (maturity / IZR steps)) in
  let forward := spot :: compound factor spot (Z.to_nat steps) in
  exists st res terminal v,
    run_monte_carlo gauss payoff spot maturity rate 0 steps paths = (st, Returns res)
    /\ last forward = Some terminal
    /\ payoff terminal forward = Returns v
    /\ Forall (fun path => path = forward) (MonteCarlo.paths res)
    /\ Forall (fun x => x = v) (payoffs res)
    /\ price res
       = exp (- rate * maturity) * py_sum (payoffs res) / INR (length (payoffs res))
    /\ (forall k, (k <= Z.to_nat steps)%nat -> forward !! k = Some (spot * factor ^ k))
    /\ terminal = spot * exp (rate * maturity)
    /\ price res = exp (- rate * maturity) * v.
Proof.
  intros Hvalid Htotal factor forward.
  destruct (monte_carlo_run gauss payoff spot maturity rate 0 steps paths Hvalid Htotal)
    as (st & res & Hrun & _ & Hlen & Hall & Hprice).
  apply validate_inputs_returns in Hvalid as (Hspot & Hmat & Hsteps & Hpaths & _).
  set (dt := maturity / IZR steps) in *.
  set (drift := (rate - 0.5 * 0 * 0) * dt) in *.
  set (diffusion := 0 * sqrt dt) in *.
  set (n := Z.to_nat steps) in *.
  assert (Hfactor : forall z, exp (drift + diffusion * z) = factor).
  { intros z. unfold factor. f_equal. unfold drift, diffusion. ring. }
  assert (Hlast : last forward = Some (spot * factor ^ n)).
  { rewrite last_lookup. unfold forward at 2.
    replace (Init.Nat.pred (length forward)) with n.
    - apply compound_lookup. lia.
    - unfold forward. cbn [length]. clear. generalize spot.
      induction n as [|m IH]; intros p; [reflexivity|].
      cbn [compound length Init.Nat.pred] in *. now rewrite <- IH. }
  assert (Hterminal : spot * factor ^ n = spot * exp (rate * maturity)).
  { unfold factor. rewrite exp_pow_nat. do 2 f_equal. unfold n, dt.
    rewrite INR_IZR_INZ, Z2Nat.id by lia. field. apply not_0_IZR. lia. }
  destruct (Htotal (spot * factor ^ n) forward) as [v Hv].
  assert (Hsim : forall path x,
            simulated payoff spot drift diffusion n path x -> path = forward /\ x = v).
  { intros path x (zs & Hzs & -> & Hx).
    pose proof (walk_compound drift diffusion factor zs spot Hfactor) as Hwalk.
    pose proof (last_walk drift diffusion spot zs) as Hend.
    rewrite Hwalk, Hzs in Hend, Hx |- *. fold forward in Hend, Hx |- *.
    rewrite Hlast in Hend. injection Hend as Hend. rewrite <- Hend in Hx.
    split; [reflexivity|congruence]. }
  assert (Hpaths_all : Forall (fun path => path = forward) (MonteCarlo.paths res)).
  { clear Hlen Hprice Hrun. induction Hall as [|path x ps xs Hpx _ IH]; constructor;
      [apply (Hsim path x Hpx)|exact IH]. }
  assert (Hpayoffs_all : Forall (fun x => x = v) (payoffs res)).
  { clear Hlen Hprice Hrun Hpaths_all.
    induction Hall as [|path x ps xs Hpx _ IH]; constructor;
      [apply (Hsim path x Hpx)|exact IH]. }
  exists st, res, (spot * factor ^ n), v. split; [exact Hrun|].
  split; [exact Hlast|]. split; [exact Hv|].
  split; [exact Hpaths_all|]. split; [exact Hpayoffs_all|].
  split; [exact Hprice|].
  split; [intros k Hk; now apply compound_lookup|].
  split; [exact Hterminal|].
  rewrite Hprice, (py_sum_constant v) by exact Hpayoffs_all.
  pose proof (Forall2_length _ _ _ Hall) as Hlen'.
  assert (Hne : INR (length (payoffs res)) <> 0) by (apply not_0_INR; lia).
  field. exact Hne.
Qed.

Lemma zero_volatility_forward_path_witness :
  _validate_inputs 100 1 0.05 0 2 3 = Returns tt
  /\ exists st res,
       run_monte_carlo (fun k => INR k) call_100 100 1 0.05 0 2 3 = (st, Returns res)
       /\ Forall (fun path =>
                    path = 100 :: compound (exp (0.05 * (1 / IZR 2))) 100 (Z.to_nat 2))
            (MonteCarlo.paths res).
Proof.
  assert (Hvalid : _validate_inputs 100 1 0.05 0 2 3 = Returns tt).
  { apply validate_inputs_returns. repeat split; try lra; lia. }
  split; [exact Hvalid|].
  destruct (zero_volatility_forward_path (fun k => INR k) call_100 100 1 0.05 2 3)
    as (st & res & terminal & v & Hrun & _ & _ & Hpaths & _).
  - exact Hvalid.
  - intros p path. eexists. reflexivity.
  - exists st, res. split; [exact Hrun|exact Hpaths].
Defined.

End MonteCarloExtras.

(** ** Payoff expressions *)

Module PayoffProofs.
Import Payoff.

Section Validator.
Variable ast_dump : ast.AST -> string.
Variable dir_math : list string.

#[local] Abbreviation visit := (visit ast_dump dir_math).
#[local] Abbreviation allowed_functions := (_allowed_functions dir_math).
#[local] Abbreviation visit_children := (visit_children ast_dump dir_math).

Lemma visit_eq (e : ast.expr) :
  visit e = if isinstance (ast.OfExpr e) _allowed_nodes
            then visit_children e
            else unsupported ast_dump (ast.OfExpr e).
Proof. destruct e; reflexivity. Qed.

Lemma visit_returns (e : ast.expr) :
  visit e = Returns tt ->
  isinstance (ast.OfExpr e) _allowed_nodes = true /\ visit_children e = Returns tt.
Proof.
  rewrite visit_eq.
  destruct (isinstance (ast.OfExpr e) _allowed_nodes); [auto|discriminate].
Qed.

Lemma helper_allowed (id : string) :
  id = "max" \/ id = "min" -> id ∈ allowed_functions.
Proof.
  intros H. unfold _allowed_functions, _helper_functions.
  apply elem_of_union_r. destruct H as [-> | ->]; set_solver.
Qed.

Lemma dunder_not_allowed (id : string) :
  String.prefix "__" id = true -> id ∉ allowed_functions.
Proof.
  intros Hp Hin. unfold _allowed_functions, _helper_functions in Hin.
  apply elem_of_union in Hin as [Hin|Hin].
  - apply elem_of_list_to_set, list_elem_of_filter in Hin as [Hf _]. congruence.
  - apply elem_of_list_to_set in Hin.
    repeat (apply elem_of_cons in Hin as [->|Hin]; [discriminate Hp|]).
    inversion Hin.
Qed.

Lemma visit_Name_allowed_name (id : string) :
  id ∈ _allowed_names -> visit_Name dir_math id = Returns tt.
Proof.
  intros H. unfold visit_Name.
  rewrite (bool_decide_eq_false_2 (id ∉ _allowed_names)) by auto. reflexivity.
Qed.

Lemma visit_Name_allowed_function (id : string) :
  id ∈ allowed_functions -> visit_Name dir_math id = Returns tt.
Proof.
  intros H. unfold visit_Name.
  rewrite (bool_decide_eq_false_2 (id ∉ allowed_functions)) by auto.
  now rewrite andb_false_r.
Qed.

Lemma visit_Name_returns (id : string) :
  visit_Name dir_math id = Returns tt ->
  id ∈ _allowed_names \/ id ∈ allowed_functions.
Proof.
  unfold visit_Name.
  destruct (decide (id ∈ _allowed_names)) as [H1|H1]; [auto|].
  destruct (decide (id ∈ allowed_functions)) as [H2|H2]; [auto|].
  rewrite !bool_decide_eq_true_2 by auto. discriminate.
Qed.

(** [__import__('os')] is refused: the callee is no registered function. *)
Lemma import_call_refused :
  visit_tree ast_dump dir_math tree_import
  = Raises (ValueError "Function __import__ is not allowed.").
Proof.
  unfold visit_tree, tree_import.
  change (isinstance _ _) with true. cbv iota.
  rewrite visit_eq. change (isinstance _ _) with true. cbv iota.
  unfold visit_children, check_callee.
  rewrite bool_decide_eq_false_2; [reflexivity|].
  now apply dunder_not_allowed.
Qed.

(** [price.__class__] passes: an attribute outside a call is only
    visited generically, and [price] is an allowed name. *)
Lemma class_attribute_passes :
  visit_tree ast_dump dir_math tree_class = Returns tt.
Proof.
  unfold visit_tree, tree_class.
  change (isinstance _ _) with true. cbv iota.
  rewrite visit_eq. change (isinstance _ _) with true. cbv iota.
  unfold visit_children.
  rewrite visit_eq. change (isinstance _ _) with true. cbv iota.
  unfold visit_children.
  rewrite visit_Name_allowed_name by set_solver.
  reflexivity.
Qed.

(** A call in the form [math.<name>(...)] is refused whenever [math] is
    no name of [dir(math)], as in CPython: the callee passes the test of
    [visit_Call], and the generic visit then reaches the name [math]. *)
Lemma math_call_refused (attr : string) (args : list ast.expr) :
  "math" ∉ dir_math ->
  exists message,
    visit_tree ast_dump dir_math
      (ast.Expression
         (ast.Call (ast.Attribute (ast.Name "math" ast.Load) attr ast.Load) args []))
    = Raises (ValueError message).
Proof.
  intros Hmath.
  assert (Hname : visit_Name dir_math "math"
                  = Raises (ValueError "Unknown name in payoff expression: math")).
  { unfold visit_Name. rewrite !bool_decide_eq_true_2; [reflexivity| |].
    - intros Hin. unfold _allowed_functions, _helper_functions in Hin.
      apply elem_of_union in Hin as [Hin|Hin].
      + apply elem_of_list_to_set, list_elem_of_filter in Hin as [_ Hin]. auto.
      + apply elem_of_list_to_set in Hin.
        repeat (apply elem_of_cons in Hin as [Hin|Hin]; [discriminate Hin|]).
        inversion Hin.
    - intros Hin. apply elem_of_union in Hin as [Hin|Hin];
        apply elem_of_singleton in Hin; discriminate Hin. }
  unfold visit_tree. change (isinstance _ _) with true. cbv iota.
  rewrite visit_eq. change (isinstance _ _) with true. cbv iota.
  unfold visit_children, check_callee.
  destruct (String.eqb "math" "math" && bool_decide (attr ∈ allowed_functions));
    [|eauto].
  unfold outcome_bind at 1.
  rewrite visit_eq. change (isinstance _ _) with true. cbv iota.
  unfold visit_children at 1.
  rewrite visit_eq. change (isinstance _ _) with true. cbv iota.
  unfold visit_children at 1. rewrite Hname. eauto.
Qed.

(** [max(price - 100, 0)] passes. *)
Lemma call_100_passes :
  visit_tree ast_dump dir_math tree_call_100 = Returns tt.
Proof.
  unfold visit_tree, tree_call_100.
  change (isinstance _ _) with true. cbv iota.
  rewrite visit_eq. change (isinstance _ _) with true. cbv iota.
  unfold visit_children, check_callee.
  rewrite bool_decide_eq_true_2 by (apply helper_allowed; now left).
  unfold outcome_bind at 1.
  rewrite visit_eq. change (isinstance _ _) with true. cbv iota.
  unfold visit_children at 1.
  rewrite visit_Name_allowed_function by (apply helper_allowed; now left).
  unfold outcome_bind at 1. unfold visit_all.
  rewrite visit_eq. change (isinstance _ _) with true. cbv iota.
  unfold visit_children at 1.
  rewrite visit_eq. change (isinstance _ _) with true. cbv iota.
  unfold visit_children at 1.
  rewrite visit_Name_allowed_name by set_solver.
  unfold outcome_bind at 1.
  reflexivity.
Qed.
End Validator.

Section Evaluator.
Variables (globals locals : gmap string value).

#[local] Abbreviation eval := (eval globals locals).
#[local] Abbreviation eval_node := (eval_node globals locals).

Lemma eval_eq (e : ast.expr) : eval e = eval_node e.
Proof. destruct e; reflexivity. Qed.
End Evaluator.

Section Compiled.
Variable dir_math : list string.

Lemma lookup_price price path :
  lookup_name (allowed_globals dir_math) (payoff_locals price path) "price"
  = Yields (VFloat price).
Proof.
  unfold lookup_name, payoff_locals. now rewrite lookup_insert_eq.
Qed.

Lemma lookup_helper price path (id : string) :
  id = "max" \/ id = "min" ->
  lookup_name (allowed_globals dir_math) (payoff_locals price path) id
  = Yields (VFunction "builtins" id).
Proof.
  intros H. unfold lookup_name, payoff_locals.
  rewrite !lookup_insert_ne by (destruct H as [-> | ->]; discriminate).
  rewrite lookup_empty.
  unfold allowed_globals, _helper_functions. cbn [foldl].
  rewrite !lookup_insert_ne by (destruct H as [-> | ->]; discriminate).
  destruct H as [-> | ->].
  - rewrite lookup_insert_ne by discriminate. now rewrite lookup_insert_eq.
  - now rewrite lookup_insert_eq.
Qed.

(** The payoff compiled from [price.__class__] raises on every call:
    [float] is handed a type. *)
Lemma class_payoff_raises price path :
  payoff dir_math (ast.Attribute (ast.Name "price" ast.Load) "__class__" ast.Load)
    price path
  = Throws TypeError.
Proof.
  unfold payoff. fold (payoff_locals price path).
  rewrite eval_eq. unfold eval_node. rewrite eval_eq. unfold eval_node.
  rewrite lookup_price. reflexivity.
Qed.

(** The payoff compiled from [max(price - 100, 0)]. *)
Lemma call_100_payoff price path :
  payoff dir_math
    (ast.Call (ast.Name "max" ast.Load)
       [ast.BinOp (ast.Name "price" ast.Load) ast.Sub (ast.Constant (ast.CInt 100));
        ast.Constant (ast.CInt 0)] [])
    price path
  = Yields (Rmax (price - 100) 0).
Proof.
  unfold payoff. fold (payoff_locals price path).
  rewrite eval_eq. unfold eval_node. rewrite eval_eq. unfold eval_node at 1.
  rewrite lookup_helper by now left.
  unfold ev_bind at 1. unfold eval_all.
  rewrite eval_eq. unfold eval_node at 1.
  rewrite eval_eq. unfold eval_node at 1. rewrite lookup_price.
  rewrite eval_eq. unfold eval_node at 1.
  rewrite eval_eq. unfold eval_node at 1.
  cbn [ev_bind constant_value binop number integer as_float].
  assert (Hc : int_to_float 100 = Yields 100) by (vm_compute; reflexivity).
  rewrite Hc. cbn [ev_bind call call_extremum number extremum].
  change (String.eqb "builtins" "builtins") with true.
  unfold Rltb.
  destruct (Rlt_dec (price - 100) (IZR 0)) as [Hlt|Hge].
  - rewrite Rmax_right by lra.
    cbn. assert (H0 : int_to_float 0 = Yields 0) by (vm_compute; reflexivity).
    now rewrite H0.
  - rewrite Rmax_left by lra. reflexivity.
Qed.
End Compiled.

Lemma safe_yields {A} (a : A) : safe (Yields a).
Proof. intros ex H. discriminate. Qed.

Lemma safe_beyond {A} : safe (@Beyond A).
Proof. intros ex H. discriminate. Qed.

Lemma safe_throws {A} (e : exn) : runtime_error e -> safe (@Throws A e).
Proof. intros He ex [= <-]. exact He. Qed.

Lemma safe_bind {A B} (m : evaluation A) (k : A -> evaluation B) :
  safe m -> (forall a, m = Yields a -> safe (k a)) -> safe (ev_bind m k).
Proof.
  intros Hm Hk ex. destruct m as [a|e|]; simpl.
  - now apply Hk.
  - intros [= <-]. now apply Hm.
  - discriminate.
Qed.

Create HintDb safe.
#[local] Hint Resolve safe_yields safe_beyond : safe.
#[local] Hint Extern 1 (safe (Throws _)) =>
  apply safe_throws; unfold runtime_error; tauto : safe.

Ltac safe_cases :=
  repeat first
    [ progress auto with safe
    | apply safe_bind; [|intros ? _]
    | match goal with
      | |- safe (match ?x with _ => _ end) => destruct x
      | |- safe (if ?c then _ else _) => destruct c
      end ].

Lemma int_to_float_safe z : safe (int_to_float z).
Proof. unfold int_to_float. safe_cases. Qed.

Lemma as_float_safe v : safe (as_float v).
Proof. unfold as_float. safe_cases; apply int_to_float_safe. Qed.

#[local] Hint Resolve int_to_float_safe as_float_safe : safe.

Lemma binop_safe op l r : safe (binop op l r).
Proof. unfold binop. safe_cases. Qed.

Lemma unaryop_safe op v : safe (unaryop op v).
Proof. unfold unaryop. safe_cases. Qed.

Lemma compare_safe op l r : safe (compare op l r).
Proof. unfold compare. safe_cases. Qed.

Lemma truthy_safe v : safe (truthy v).
Proof. unfold truthy. safe_cases. Qed.

Lemma extremum_safe larger items : forall best, safe (extremum larger best items).
Proof.
  induction items as [|item rest IH]; intros best; simpl; [auto with safe|].
  destruct (number item); [|auto with safe].
  destruct (number best); [|auto with safe]. apply IH.
Qed.

#[local] Hint Resolve binop_safe unaryop_safe compare_safe truthy_safe extremum_safe : safe.

Lemma call_extremum_safe larger args : safe (call_extremum larger args).
Proof. unfold call_extremum. safe_cases. Qed.

Lemma call_math_safe name args : safe (call_math name args).
Proof. unfold call_math. safe_cases. Qed.

#[local] Hint Resolve call_extremum_safe call_math_safe : safe.

Lemma call_safe callee args : safe (call callee args).
Proof. unfold call. safe_cases. Qed.

Lemma py_index_raises {A} (l : list A) i e : py_index l i = Raises e -> e = IndexError.
Proof.
  unfold py_index.
  repeat match goal with
         | |- context [if ?c then _ else _] => destruct c
         | |- context [match ?x with _ => _ end] => destruct x
         end; congruence.
Qed.

Lemma item_safe (items : list value) i :
  safe (match py_index items i with
        | Returns v => Yields v
        | Raises e => Throws e
        end).
Proof.
  destruct (py_index items i) eqn:E; [auto with safe|].
  apply py_index_raises in E. subst. auto with safe.
Qed.

#[local] Hint Resolve item_safe : safe.

Lemma subscript_safe container index : safe (subscript container index).
Proof. unfold subscript. safe_cases. Qed.

Lemma getattr_safe v attr : safe (getattr v attr).
Proof. unfold getattr. safe_cases. Qed.

Lemma constant_value_safe c : safe (constant_value c).
Proof. unfold constant_value. safe_cases. Qed.

Lemma to_float_safe v : safe (to_float v).
Proof. unfold to_float. safe_cases. Qed.

#[local] Hint Resolve call_safe subscript_safe getattr_safe constant_value_safe
  to_float_safe : safe.

Lemma then_returns (m k : outcome unit) :
  (m ;; k)%out = Returns tt -> m = Returns tt /\ k = Returns tt.
Proof. destruct m as [[]|e]; simpl; [auto|discriminate]. Qed.

Section Safety.
Variable ast_dump : ast.AST -> string.
Variable dir_math : list string.
Variables (price : R) (path : list R).

#[local] Abbreviation globals := (allowed_globals dir_math).
#[local] Abbreviation locals := (payoff_locals price path).
#[local] Abbreviation visit := (visit ast_dump dir_math).

Lemma registered_is_global (id : string) :
  id ∈ _allowed_functions dir_math -> is_Some (globals !! id).
Proof.
  intros Hin. unfold allowed_globals, _helper_functions. cbn [foldl].
  rewrite !lookup_insert_is_Some'. do 2 right.
  destruct (decide (id = "min")) as [->|Hmin]; [now left|right].
  destruct (decide (id = "max")) as [->|Hmax]; [now left|right].
  pose proof Hin as Hin'.
  unfold _allowed_functions, _helper_functions in Hin'.
  apply elem_of_union in Hin' as [Hm|Hh].
  2:{ apply elem_of_list_to_set in Hh.
      repeat (apply elem_of_cons in Hh as [->|Hh]; [congruence|]). inversion Hh. }
  apply elem_of_list_to_set, list_elem_of_filter in Hm as [_ Hdir].
  match goal with |- is_Some (?m !! id) => destruct (m !! id) eqn:E end; [eauto|].
  apply not_elem_of_list_to_map_2 in E. exfalso. apply E.
  rewrite <- list_fmap_compose.
  apply list_elem_of_fmap. exists id. split; [reflexivity|].
  apply list_elem_of_filter. auto.
Qed.

Lemma name_bound (id : string) :
  visit_Name dir_math id = Returns tt ->
  exists v, lookup_name globals locals id = Yields v.
Proof.
  intros H. unfold lookup_name.
  destruct (locals !! id) as [v|] eqn:El; [eauto|].
  apply visit_Name_returns in H as [Hn|Hf].
  - exfalso. unfold payoff_locals in El.
    apply elem_of_union in Hn as [Hn|Hn]; apply elem_of_singleton in Hn; subst id.
    + now rewrite lookup_insert_eq in El.
    + rewrite lookup_insert_ne in El by discriminate.
      now rewrite lookup_insert_eq in El.
  - destruct (registered_is_global id Hf) as [v ->]. eauto.
Qed.

Lemma eval_all_safe (es : list ast.expr) :
  Forall (fun e => visit e = Returns tt -> safe (eval globals locals e)) es ->
  visit_all ast_dump dir_math es = Returns tt ->
  safe (eval_all globals locals es).
Proof.
  induction 1 as [|x rest Hx _ IH]; intros Hv; simpl; [auto with safe|].
  simpl in Hv. apply then_returns in Hv as [Hvx Hvr].
  apply safe_bind; [auto|intros v _].
  apply safe_bind; [auto|intros vs _]. auto with safe.
Qed.

Lemma bool_chain_safe op (es : list ast.expr) :
  Forall (fun e => visit e = Returns tt -> safe (eval globals locals e)) es ->
  visit_all ast_dump dir_math es = Returns tt ->
  safe (bool_chain globals locals op es).
Proof.
  induction 1 as [|x rest Hx Hrest IH]; intros Hv; simpl; [auto with safe|].
  simpl in Hv. apply then_returns in Hv as [Hvx Hvr].
  destruct rest as [|y rest]; [auto|].
  apply safe_bind; [auto|intros v _].
  apply safe_bind; [auto with safe|intros t _].
  destruct (match op with ast.And => negb t | ast.Or => t end); auto with safe.
Qed.

Lemma compare_chain_safe (es : list ast.expr) :
  Forall (fun e => visit e = Returns tt -> safe (eval globals locals e)) es ->
  visit_all ast_dump dir_math es = Returns tt ->
  forall lhs ops, safe (compare_chain globals locals lhs ops es).
Proof.
  induction 1 as [|x rest Hx Hrest IH]; intros Hv lhs ops; simpl; [auto with safe|].
  simpl in Hv. apply then_returns in Hv as [Hvx Hvr].
  destruct ops as [|op ops]; [auto with safe|].
  apply safe_bind; [auto|intros v _].
  apply safe_bind; [auto with safe|intros b _].
  destruct b; [|auto with safe].
  destruct rest as [|y rest]; [auto with safe|]. now apply IH.
Qed.

(** An expression that the validator accepts evaluates without any
    error but those of its operations: every name it reads is bound. *)
Lemma eval_safe (e : ast.expr) :
  visit e = Returns tt -> safe (eval globals locals e).
Proof.
  induction e using expr_induction; intros Hv;
    apply visit_returns in Hv as [_ Hv]; rewrite eval_eq;
    unfold visit_children in Hv; unfold eval_node.
  - (* BoolOp *)
    apply then_returns in Hv as [_ Hv]. now apply bool_chain_safe.
  - (* BinOp *)
    apply then_returns in Hv as [Hl Hv]. apply then_returns in Hv as [_ Hr].
    apply safe_bind; [auto|intros vl _].
    apply safe_bind; [auto|intros vr _]. auto with safe.
  - (* UnaryOp *)
    apply then_returns in Hv as [_ Hv].
    apply safe_bind; [auto|intros v _]. auto with safe.
  - (* IfExp *)
    apply then_returns in Hv as [Ht Hv]. apply then_returns in Hv as [Hb Ho].
    apply safe_bind; [auto|intros c _].
    apply safe_bind; [auto with safe|intros t _]. destruct t; auto.
  - (* Compare *)
    apply then_returns in Hv as [Hl Hv]. apply then_returns in Hv as [_ Hc].
    apply safe_bind; [auto|intros vl _]. now apply compare_chain_safe.
  - (* Call *)
    apply then_returns in Hv as [_ Hv]. apply then_returns in Hv as [Hf Hv].
    apply then_returns in Hv as [Ha _].
    destruct keywords; [|auto with safe].
    apply safe_bind; [auto|intros callee _].
    apply safe_bind; [now apply eval_all_safe|intros vs _]. auto with safe.
  - (* Constant *) auto with safe.
  - (* Attribute *)
    apply then_returns in Hv as [Hv' _].
    apply safe_bind; [auto|intros o _]. auto with safe.
  - (* Subscript *)
    apply then_returns in Hv as [Hv' Hv]. apply then_returns in Hv as [Hi _].
    destruct e2; try (apply safe_bind; [auto|intros container _];
                      apply safe_bind; [auto|intros i _]; auto with safe).
    auto with safe.
  - (* Name *)
    destruct (name_bound id Hv) as [v ->]. auto with safe.
  - (* List *)
    apply then_returns in Hv as [Hv' _].
    apply safe_bind; [now apply eval_all_safe|intros vs _]. auto with safe.
  - (* Tuple *)
    apply then_returns in Hv as [Hv' _].
    apply safe_bind; [now apply eval_all_safe|intros vs _]. auto with safe.
  - (* Slice *) auto with safe.
  - (* Other *) auto with safe.
Qed.

Lemma payoff_safe (body : ast.expr) :
  visit_tree ast_dump dir_math (ast.Expression body) = Returns tt ->
  safe (payoff dir_math body price path).
Proof.
  intros Hv. unfold visit_tree in Hv.
  change (isinstance _ _) with true in Hv. cbv iota in Hv.
  unfold payoff. fold (payoff_locals price path).
  apply safe_bind; [now apply eval_safe|intros v _]. auto with safe.
Qed.
End Safety.




Section Globals.
Variable dir_math : list string.

End Globals.

Section Compiler.
Variable ast_parse : string -> string + ast.tree.
Variable ast_dump : ast.AST -> string.
Variable dir_math : list string.

(** The three expressions of the specification on which the code does
    what is specified. *)
Lemma specified_expressions (message : string) :
  ast_parse "import os" = inl message ->
  ast_parse "__import__('os')" = inr tree_import ->
  ast_parse "max(price - 100, 0)" = inr tree_call_100 ->
  payoff_from_expression ast_parse ast_dump dir_math "import os"
  = Raises (ValueError ("Invalid payoff expression: " ++ message))
  /\ payoff_from_expression ast_parse ast_dump dir_math "__import__('os')"
     = Raises (ValueError "Function __import__ is not allowed.")
  /\ exists compiled,
       payoff_from_expression ast_parse ast_dump dir_math "max(price - 100, 0)"
       = Returns compiled
       /\ forall price path, compiled price path = Yields (Rmax (price - 100) 0).
Proof.
  intros H1 H2 H3. unfold payoff_from_expression. rewrite H1, H2, H3.
  split; [reflexivity|]. split.
  - now rewrite import_call_refused.
  - rewrite call_100_passes. eexists. split; [reflexivity|].
    intros price path. apply call_100_payoff.
Qed.

(** C1, the part that fails.  [price.__class__] compiles: the validator
    tests the receiver of an attribute only in the callee of a call.  The
    compiled payoff then raises [TypeError] on every call. *)
Theorem class_attribute_compiles :
  ast_parse "price.__class__" = inr tree_class ->
  exists compiled,
    payoff_from_expression ast_parse ast_dump dir_math "price.__class__"
    = Returns compiled
    /\ forall price path, compiled price path = Throws TypeError.
Proof.
  intros H. unfold payoff_from_expression. rewrite H, class_attribute_passes.
  eexists. split; [reflexivity|].
  intros price path. apply class_payoff_raises.
Qed.

(** Where the evaluator of this file gives an answer, that is where it
    does not say [Beyond], the errors of a compiled payoff are those of
    the operations that the evaluator describes, and no name is
    unbound.  This says nothing of the operations left out, such as
    [max] of an empty sequence or an attribute that does not exist,
    which raise errors of their own. *)
Lemma modelled_payoff_errors (expression : string) compiled :
  payoff_from_expression ast_parse ast_dump dir_math expression = Returns compiled ->
  forall price path ex,
    compiled price path = Throws ex ->
    (ex = ZeroDivisionError \/ ex = ValueError "math domain error"
     \/ ex = IndexError \/ ex = TypeError \/ ex = OverflowError)
    /\ forall id, ex <> NameError id.
Proof.
  unfold payoff_from_expression.
  destruct (ast_parse expression) as [message|[body]]; [discriminate|].
  destruct (visit_tree ast_dump dir_math (ast.Expression body)) as [[]|e] eqn:Hv;
    [|discriminate].
  intros [= <-] price path ex Hex.
  pose proof (payoff_safe ast_dump dir_math price path body Hv ex Hex) as Hsafe.
  split; [exact Hsafe|].
  intros id ->. unfold runtime_error, domain_error in Hsafe.
  repeat destruct Hsafe as [Hsafe|Hsafe]; discriminate.
Qed.

End Compiler.

Lemma class_attribute_compiles_witness :
  cpython_parse "price.__class__" = inr tree_class
  /\ exists compiled,
       payoff_from_expression cpython_parse ast.class_name cpython_dir_math
         "price.__class__" = Returns compiled
       /\ compiled 100 [100; 100] = Throws TypeError.
Proof.
  split; [reflexivity|].
  destruct (class_attribute_compiles cpython_parse ast.class_name cpython_dir_math)
    as (compiled & Hc & Hraises); [reflexivity|].
  exists compiled. split; [exact Hc|apply Hraises].
Defined.



End PayoffProofs.

(** ** Payoff expressions: further properties *)

Module PayoffExtras.
Import Payoff.
Import PayoffProofs.
Import Trees.

Lemma nodes_eq (e : ast.expr) : nodes e = ast.OfExpr e :: nodes_below e.
Proof. destruct e; reflexivity. Qed.

Section Accepted.
Variable ast_dump : ast.AST -> string.
Variable dir_math : list string.

#[local] Abbreviation visit := (visit ast_dump dir_math).
#[local] Abbreviation accepted := (accepted_node dir_math).

Lemma leaf_accepted (node : ast.AST) :
  visit_leaf ast_dump node = Returns tt ->
  name_of node = None -> call_of node = None ->
  accepted node.
Proof.
  unfold visit_leaf, isinstance. intros Hv Hn Hc.
  destruct (bool_decide _) eqn:E; [|discriminate].
  apply bool_decide_eq_true in E.
  split; [exact E|]. split; intros; congruence.
Qed.

Lemma visit_all_accepted (es : list ast.expr) :
  Forall (fun e => visit e = Returns tt -> Forall accepted (nodes e)) es ->
  visit_all ast_dump dir_math es = Returns tt ->
  Forall accepted (nodes_all es).
Proof.
  induction 1 as [|x rest Hx _ IH]; intros Hv; simpl; [constructor|].
  simpl in Hv. apply then_returns in Hv as [Hvx Hvr].
  apply Forall_app. auto.
Qed.

Lemma visit_ops_accepted (ops : list ast.cmpop) :
  visit_ops ast_dump ops = Returns tt ->
  Forall accepted (map ast.OfCmpop ops).
Proof.
  induction ops as [|o rest IH]; intros Hv; simpl; [constructor|].
  simpl in Hv. apply then_returns in Hv as [Hvo Hvr].
  constructor; [|auto]. now apply leaf_accepted.
Qed.

Lemma visit_option_accepted (o : option ast.expr) :
  on_option (fun e => visit e = Returns tt -> Forall accepted (nodes e)) o ->
  visit_option ast_dump dir_math o = Returns tt ->
  Forall accepted (nodes_option o).
Proof. destruct o; simpl; [auto|constructor]. Qed.

Lemma visit_keywords_none (ks : list ast.keyword) :
  visit_keywords ast_dump dir_math ks = Returns tt -> ks = [].
Proof. destruct ks as [|k rest]; [reflexivity|]. simpl. discriminate. Qed.

Lemma check_callee_shape (func : ast.expr) :
  check_callee dir_math func = Returns tt ->
  (exists id ctx, func = ast.Name id ctx /\ id ∈ _allowed_functions dir_math)
  \/ (exists attr ctx ctx',
        func = ast.Attribute (ast.Name "math" ctx) attr ctx'
        /\ attr ∈ _allowed_functions dir_math).
Proof.
  unfold check_callee. destruct func; try discriminate.
  - destruct func; try discriminate.
    destruct (String.eqb id "math") eqn:Eid; [|discriminate].
    destruct (bool_decide _) eqn:E; [|discriminate].
    apply String.eqb_eq in Eid as ->. apply bool_decide_eq_true in E.
    intros _. right. eauto.
  - destruct (bool_decide _) eqn:E; [|discriminate].
    apply bool_decide_eq_true in E. intros _. left. eauto.
Qed.

Lemma visit_accepted (e : ast.expr) :
  visit e = Returns tt -> Forall accepted (nodes e).
Proof.
  induction e using deep_induction; intros Hv;
    apply visit_returns in Hv as [Hclass Hv];
    unfold isinstance in Hclass; apply bool_decide_eq_true in Hclass;
    rewrite nodes_eq; unfold visit_children in Hv; unfold nodes_below.
  - (* BoolOp *)
    apply then_returns in Hv as [Hop Hv].
    constructor; [split; [exact Hclass|split; intros ? ?; discriminate]|].
    constructor; [now apply leaf_accepted|]. now apply visit_all_accepted.
  - (* BinOp *)
    apply then_returns in Hv as [Hl Hv]. apply then_returns in Hv as [Hop Hr].
    constructor; [split; [exact Hclass|split; intros ? ?; discriminate]|].
    apply Forall_app. split; [auto|].
    constructor; [now apply leaf_accepted|auto].
  - (* UnaryOp *)
    apply then_returns in Hv as [Hop Hv].
    constructor; [split; [exact Hclass|split; intros ? ?; discriminate]|].
    constructor; [now apply leaf_accepted|auto].
  - (* IfExp *)
    apply then_returns in Hv as [Ht Hv]. apply then_returns in Hv as [Hb Ho].
    constructor; [split; [exact Hclass|split; intros ? ?; discriminate]|].
    rewrite !Forall_app. auto.
  - (* Compare *)
    apply then_returns in Hv as [Hl Hv]. apply then_returns in Hv as [Hops Hc].
    constructor; [split; [exact Hclass|split; intros ? ?; discriminate]|].
    rewrite !Forall_app. split; [auto|]. split; [now apply visit_ops_accepted|].
    now apply visit_all_accepted.
  - (* Call *)
    apply then_returns in Hv as [Hcallee Hv]. apply then_returns in Hv as [Hf Hv].
    apply then_returns in Hv as [Ha Hk].
    apply visit_keywords_none in Hk as ->.
    constructor.
    + split; [exact Hclass|]. split; [intros ? ?; discriminate|].
      intros func' k [= <- <-]. split; [reflexivity|].
      now apply check_callee_shape.
    + rewrite !Forall_app. split; [auto|]. split; [now apply visit_all_accepted|].
      constructor.
  - (* Constant *)
    constructor; [split; [exact Hclass|split; intros ? ?; discriminate]|constructor].
  - (* Attribute *)
    apply then_returns in Hv as [Hv' Hctx].
    constructor; [split; [exact Hclass|split; intros ? ?; discriminate]|].
    rewrite Forall_app. split; [auto|].
    constructor; [now apply leaf_accepted|constructor].
  - (* Subscript *)
    apply then_returns in Hv as [Hv' Hv]. apply then_returns in Hv as [Hi Hctx].
    constructor; [split; [exact Hclass|split; intros ? ?; discriminate]|].
    rewrite !Forall_app. split; [auto|]. split; [auto|].
    constructor; [now apply leaf_accepted|constructor].
  - (* Name *)
    constructor; [|constructor].
    split; [exact Hclass|]. split; [|intros ? ?; discriminate].
    intros id' [= <-]. now apply visit_Name_returns.
  - (* List *)
    apply then_returns in Hv as [Hv' Hctx].
    constructor; [split; [exact Hclass|split; intros ? ?; discriminate]|].
    rewrite Forall_app. split; [now apply visit_all_accepted|].
    constructor; [now apply leaf_accepted|constructor].
  - (* Tuple *)
    apply then_returns in Hv as [Hv' Hctx].
    constructor; [split; [exact Hclass|split; intros ? ?; discriminate]|].
    rewrite Forall_app. split; [now apply visit_all_accepted|].
    constructor; [now apply leaf_accepted|constructor].
  - (* Slice *)
    apply then_returns in Hv as [Hl Hv]. apply then_returns in Hv as [Hu Hs].
    constructor; [split; [exact Hclass|split; intros ? ?; discriminate]|].
    rewrite !Forall_app.
    split; [now apply visit_option_accepted|].
    split; now apply visit_option_accepted.
  - (* Other *)
    exfalso. unfold _allowed_nodes in Hclass.
    destruct class; cbn [ast.class_name] in Hclass;
      repeat (apply elem_of_cons in Hclass as [Hclass|Hclass]; [discriminate Hclass|]);
      inversion Hclass.
Qed.

(** Every node of a tree that passed has itself passed. *)
Lemma visit_all_visited (es : list ast.expr) :
  Forall (fun e => visit e = Returns tt -> Forall (visited ast_dump dir_math) (nodes e)) es ->
  visit_all ast_dump dir_math es = Returns tt ->
  Forall (visited ast_dump dir_math) (nodes_all es).
Proof.
  induction 1 as [|x rest Hx _ IH]; intros Hv; simpl; [constructor|].
  simpl in Hv. apply then_returns in Hv as [Hvx Hvr].
  apply Forall_app. auto.
Qed.

Lemma visit_ops_visited (ops : list ast.cmpop) :
  visit_ops ast_dump ops = Returns tt ->
  Forall (visited ast_dump dir_math) (map ast.OfCmpop ops).
Proof.
  induction ops as [|o rest IH]; intros Hv; simpl; [constructor|].
  simpl in Hv. apply then_returns in Hv as [Hvo Hvr].
  constructor; [exact Hvo|auto].
Qed.

Lemma visit_option_visited (o : option ast.expr) :
  on_option (fun e => visit e = Returns tt -> Forall (visited ast_dump dir_math) (nodes e)) o ->
  visit_option ast_dump dir_math o = Returns tt ->
  Forall (visited ast_dump dir_math) (nodes_option o).
Proof. destruct o; simpl; [auto|constructor]. Qed.

Lemma visit_visited (e : ast.expr) :
  visit e = Returns tt -> Forall (visited ast_dump dir_math) (nodes e).
Proof.
  induction e using deep_induction; intros Hv0;
    pose proof Hv0 as Hv; apply visit_returns in Hv as [_ Hv];
    rewrite nodes_eq; (constructor; [exact Hv0|]);
    unfold visit_children in Hv; unfold nodes_below;
    repeat match type of Hv with
           | (_ ;; _)%out = Returns tt =>
               let H := fresh "Hstep" in apply then_returns in Hv as [H Hv]
           end;
    rewrite ?Forall_app;
    repeat match goal with
           | |- _ /\ _ => split
           | |- Forall _ [] => constructor
           | |- Forall _ (_ :: _) => constructor
           | |- Forall _ (nodes_all _) => now apply visit_all_visited
           | |- Forall _ (map ast.OfCmpop _) => now apply visit_ops_visited
           | |- Forall _ (nodes_option _) => now apply visit_option_visited
           | |- Forall _ (nodes_keywords _) =>
               match goal with
               | H : visit_keywords _ _ _ = Returns tt |- _ =>
                   apply visit_keywords_none in H as ->; constructor
               end
           | |- Forall _ (nodes _) => auto
           | |- visited _ _ _ => assumption
           end.
Qed.

(** X11. What compilation guarantees about the tree: every node that the
    validator looks at has a whitelisted class; every name is [price],
    [path] or a registered function; every call has no keyword argument
    and a callee that is the bare name of a registered function or
    [math.<registered name>].  So no name starts with two underscores
    and no node is a keyword argument. *)
Theorem accepted_tree (body : ast.expr) :
  visit_tree ast_dump dir_math (ast.Expression body) = Returns tt ->
  Forall (accepted_node dir_math) (nodes body)
  /\ (forall id ctx,
        ast.OfExpr (ast.Name id ctx) ∈ nodes body -> String.prefix "__" id = false)
  /\ (forall k, ast.OfKeyword k ∉ nodes body).
Proof.
  intros Hv. unfold visit_tree in Hv.
  change (isinstance _ _) with true in Hv. cbv iota in Hv.
  pose proof (visit_accepted body Hv) as Hall.
  split; [exact Hall|]. rewrite Forall_forall in Hall. split.
  - intros id ctx Hin. destruct (Hall _ Hin) as (_ & Hname & _).
    destruct (Hname id eq_refl) as [Hn|Hf].
    + apply elem_of_union in Hn as [Hn|Hn]; apply elem_of_singleton in Hn;
        subst id; reflexivity.
    + destruct (String.prefix "__" id) eqn:E; [|reflexivity].
      exfalso. now apply (dunder_not_allowed dir_math id E).
  - intros k Hin. destruct (Hall _ Hin) as (Hclass & _).
    unfold _allowed_nodes in Hclass. cbn [ast.class_name] in Hclass.
    repeat (apply elem_of_cons in Hclass as [Hclass|Hclass]; [discriminate Hclass|]).
    inversion Hclass.
Qed.

(** Errors of the validator are [ValueError]s. *)
Lemma value_errors_then (m k : outcome unit) :
  value_errors m -> value_errors k -> value_errors (m ;; k)%out.
Proof.
  intros Hm Hk ex. destruct m as [[]|e]; simpl; [apply Hk|].
  intros [= <-]. now apply Hm.
Qed.

Lemma value_errors_returns : value_errors (Returns tt).
Proof. intros ex [=]. Qed.

Lemma value_errors_raises message : value_errors (Raises (ValueError message)).
Proof. intros ex [= <-]. eauto. Qed.

Lemma visit_leaf_value_errors node : value_errors (visit_leaf ast_dump node).
Proof.
  unfold visit_leaf, unsupported.
  destruct (isinstance _ _); [apply value_errors_returns|apply value_errors_raises].
Qed.

Lemma visit_Name_value_errors id : value_errors (visit_Name dir_math id).
Proof.
  unfold visit_Name.
  destruct (_ && _); [apply value_errors_raises|apply value_errors_returns].
Qed.

Lemma check_callee_value_errors func : value_errors (check_callee dir_math func).
Proof.
  unfold check_callee. destruct func; try apply value_errors_raises.
  - match goal with |- value_errors (if ?c then _ else _) => destruct c end;
      [apply value_errors_returns|apply value_errors_raises].
  - destruct (bool_decide _); [apply value_errors_returns|apply value_errors_raises].
Qed.

Lemma visit_all_value_errors (es : list ast.expr) :
  Forall (fun e => value_errors (visit e)) es ->
  value_errors (visit_all ast_dump dir_math es).
Proof.
  induction 1 as [|x rest Hx _ IH]; simpl; [apply value_errors_returns|].
  now apply value_errors_then.
Qed.

Lemma visit_ops_value_errors (ops : list ast.cmpop) :
  value_errors (visit_ops ast_dump ops).
Proof.
  induction ops as [|o rest IH]; simpl; [apply value_errors_returns|].
  apply value_errors_then; [apply visit_leaf_value_errors|exact IH].
Qed.

Lemma visit_keywords_value_errors (ks : list ast.keyword) :
  value_errors (visit_keywords ast_dump dir_math ks).
Proof.
  destruct ks as [|k rest]; simpl; [apply value_errors_returns|].
  apply value_errors_raises.
Qed.

Lemma visit_option_value_errors (o : option ast.expr) :
  on_option (fun e => value_errors (visit e)) o ->
  value_errors (visit_option ast_dump dir_math o).
Proof. destruct o; simpl; [auto|intros _; apply value_errors_returns]. Qed.

Lemma visit_value_errors (e : ast.expr) : value_errors (visit e).
Proof.
  induction e using deep_induction; rewrite visit_eq;
    (destruct (isinstance _ _); [|apply value_errors_raises]);
    unfold visit_children;
    repeat first
      [ apply value_errors_returns
      | apply value_errors_then
      | apply visit_leaf_value_errors
      | apply visit_Name_value_errors
      | apply check_callee_value_errors
      | apply visit_ops_value_errors
      | apply visit_keywords_value_errors
      | apply visit_all_value_errors
      | apply visit_option_value_errors
      | assumption ].
Qed.

(** X12. Where [dir(math)] has no name [math], as in CPython, the callee of
    every call of a tree that passed is the bare name of a registered
    function: the form [math.<name>(...)] passes the test of
    [visit_Call] and is then refused at the name [math], anywhere in
    the expression. *)
Theorem calls_are_bare_names (body : ast.expr) :
  "math" ∉ dir_math ->
  visit_tree ast_dump dir_math (ast.Expression body) = Returns tt ->
  forall func args keywords,
    ast.OfExpr (ast.Call func args keywords) ∈ nodes body ->
    keywords = []
    /\ exists id ctx, func = ast.Name id ctx /\ id ∈ _allowed_functions dir_math.
Proof.
  intros Hmath Hv func args keywords Hin. unfold visit_tree in Hv.
  change (isinstance _ _) with true in Hv. cbv iota in Hv.
  pose proof (visit_visited body Hv) as Hall.
  rewrite Forall_forall in Hall. specialize (Hall _ Hin).
  change (visit (ast.Call func args keywords) = Returns tt) in Hall.
  apply visit_returns in Hall as [_ Hc]. unfold visit_children in Hc.
  apply then_returns in Hc as [Hcallee Hc]. apply then_returns in Hc as [Hf Hc].
  apply then_returns in Hc as [_ Hk].
  split; [now apply visit_keywords_none in Hk|].
  apply check_callee_shape in Hcallee as [Hbare|(attr & ctx & ctx' & -> & _)];
    [exact Hbare|].
  exfalso. apply visit_returns in Hf as [_ Hf]. unfold visit_children in Hf.
  apply then_returns in Hf as [Hname _].
  apply visit_returns in Hname as [_ Hname]. unfold visit_children in Hname.
  apply visit_Name_returns in Hname as [Hn|Hn].
  - apply elem_of_union in Hn as [Hn|Hn]; apply elem_of_singleton in Hn;
      discriminate Hn.
  - unfold _allowed_functions, _helper_functions in Hn.
    apply elem_of_union in Hn as [Hn|Hn].
    + apply elem_of_list_to_set, list_elem_of_filter in Hn as [_ Hn]. auto.
    + apply elem_of_list_to_set in Hn.
      repeat (apply elem_of_cons in Hn as [Hn|Hn]; [discriminate Hn|]).
      inversion Hn.
Qed.
End Accepted.

(** X13. Every error that compilation raises by itself is a [ValueError]:
    the syntax error of the parser is converted, and each rejection of
    the validator is one.  (The interpreter's [RecursionError] on an
    expression nested some hundreds deep, in the parser or in the
    recursive visitor, is left out: [visit] is structural here.) *)
Theorem compile_errors_are_value_errors
    ast_parse ast_dump dir_math (expression : string) ex :
  payoff_from_expression ast_parse ast_dump dir_math expression = Raises ex ->
  exists message, ex = ValueError message.
Proof.
  unfold payoff_from_expression.
  destruct (ast_parse expression) as [text|[body]]; [intros [= <-]; eauto|].
  unfold visit_tree. change (isinstance _ _) with true. cbv iota.
  destruct (Payoff.visit ast_dump dir_math body) as [[]|e] eqn:Hv; simpl; [discriminate|].
  intros [= <-]. now apply (visit_value_errors ast_dump dir_math body).
Qed.

Lemma compile_errors_are_value_errors_witness :
  payoff_from_expression cpython_parse ast.class_name cpython_dir_math "__import__('os')"
  = Raises (ValueError "Function __import__ is not allowed.")
  /\ exists message, ValueError "Function __import__ is not allowed." = ValueError message.
Proof.
  assert (H : payoff_from_expression cpython_parse ast.class_name cpython_dir_math
                "__import__('os')"
              = Raises (ValueError "Function __import__ is not allowed.")).
  { unfold payoff_from_expression.
    change (cpython_parse "__import__('os')") with (@inr string _ tree_import).
    cbv beta iota. now rewrite import_call_refused. }
  split; [exact H|].
  apply (compile_errors_are_value_errors cpython_parse ast.class_name cpython_dir_math
           "__import__('os')" _ H).
Defined.

Lemma accepted_tree_witness :
  visit_tree ast.class_name cpython_dir_math tree_call_100 = Returns tt
  /\ forall k,
       ast.OfKeyword k
       ∉ nodes (match tree_call_100 with ast.Expression body => body end).
Proof.
  split; [apply call_100_passes|].
  apply (accepted_tree ast.class_name cpython_dir_math _
           (call_100_passes ast.class_name cpython_dir_math)).
Defined.

Lemma math_not_in_dir : "math" ∉ cpython_dir_math.
Proof.
  intros Hin. unfold cpython_dir_math in Hin.
  repeat (apply elem_of_cons in Hin as [Hin|Hin]; [discriminate Hin|]).
  inversion Hin.
Qed.

Lemma calls_are_bare_names_witness :
  ("math" ∉ cpython_dir_math)
  /\ visit_tree ast.class_name cpython_dir_math tree_call_100 = Returns tt
  /\ forall func args keywords,
       ast.OfExpr (ast.Call func args keywords)
       ∈ nodes (match tree_call_100 with ast.Expression body => body end) ->
       keywords = []
       /\ exists id ctx, func = ast.Name id ctx /\ id ∈ _allowed_functions cpython_dir_math.
Proof.
  split; [exact math_not_in_dir|]. split; [apply call_100_passes|].
  apply (calls_are_bare_names ast.class_name cpython_dir_math _ math_not_in_dir
           (call_100_passes ast.class_name cpython_dir_math)).
Defined.

(** X14. The globals of [eval] bind nothing but: [__builtins__], to the empty
    dictionary; [math], to the module; [max] and [min], to the builtins;
    and the names of [dir(math)] that do not start with two underscores,
    each to the attribute of [math] of that name. *)
Theorem globals_exposure (dir_math : list string) (name : string) (v : value) :
  allowed_globals dir_math !! name = Some v ->
  (name = "__builtins__" /\ v = VObject "empty dict")
  \/ (name = "math" /\ v = VObject "module math")
  \/ (name ∈ _helper_functions /\ v = VFunction "builtins" name)
  \/ (name ∈ dir_math /\ String.prefix "__" name = false /\ v = math_getattr name).
Proof.
  unfold allowed_globals, _helper_functions. cbn [foldl]. intros H.
  apply lookup_insert_Some in H as [[<- <-]|[_ H]]; [now left|].
  apply lookup_insert_Some in H as [[<- <-]|[_ H]]; [right; now left|].
  apply lookup_insert_Some in H as [[<- <-]|[Hmin H]].
  { do 2 right. left. split; [|reflexivity]. set_solver. }
  apply lookup_insert_Some in H as [[<- <-]|[Hmax H]].
  { do 2 right. left. split; [|reflexivity]. set_solver. }
  do 3 right.
  apply elem_of_list_to_map_2, list_elem_of_fmap in H as (id & [= -> ->] & Hin).
  apply list_elem_of_filter in Hin as [Hallowed Hdir].
  split; [exact Hdir|]. split; [|reflexivity].
  unfold _allowed_functions, _helper_functions in Hallowed.
  apply elem_of_union in Hallowed as [Hm|Hh].
  - now apply elem_of_list_to_set, list_elem_of_filter in Hm as [Hp _].
  - apply elem_of_list_to_set in Hh.
    repeat (apply elem_of_cons in Hh as [->|Hh]; [congruence|]). inversion Hh.
Qed.

Lemma globals_exposure_witness :
  allowed_globals cpython_dir_math !! "exp" = Some (VFunction "math" "exp")
  /\ ("exp" ∈ cpython_dir_math /\ String.prefix "__" "exp" = false
      /\ VFunction "math" "exp" = math_getattr "exp").
Proof.
  assert (H : allowed_globals cpython_dir_math !! "exp" = Some (VFunction "math" "exp"))
    by (vm_compute; reflexivity).
  split; [exact H|].
  destruct (globals_exposure cpython_dir_math "exp" _ H)
    as [[E _]|[[E _]|[[E _]|Hm]]]; [discriminate E|discriminate E| |exact Hm].
  exfalso. unfold _helper_functions in E.
  repeat (apply elem_of_cons in E as [E|E]; [discriminate E|]). inversion E.
Defined.

End PayoffExtras.

(** ** The two parameter validators and the rate *)

Module ValidationProofs.

(** C9, as the code has it.  Validation accepts exactly a positive spot,
    maturity and step count (and strike for the lattice, path count for
    the simulation) with a non-negative volatility; its outcome does not
    depend on the rate; and what it rejects makes the pricer fail with the
    same error before a lattice level is built or a sample drawn. *)
Theorem validation_ignores_rate
    (spot strike maturity rate volatility : R) (steps paths : Z) :
  (Binomial._validate_parameters spot strike maturity rate volatility steps = Returns tt
   <-> 0 < spot /\ 0 < strike /\ 0 < maturity /\ (0 < steps)%Z /\ 0 <= volatility)
  /\ (MonteCarlo._validate_inputs spot maturity rate volatility steps paths = Returns tt
      <-> 0 < spot /\ 0 < maturity /\ (0 < steps)%Z /\ (0 < paths)%Z /\ 0 <= volatility)
  /\ (forall rate',
        Binomial._validate_parameters spot strike maturity rate' volatility steps
        = Binomial._validate_parameters spot strike maturity rate volatility steps)
  /\ (forall rate',
        MonteCarlo._validate_inputs spot maturity rate' volatility steps paths
        = MonteCarlo._validate_inputs spot maturity rate volatility steps paths)
  /\ (forall e option_type american dividend,
        Binomial._validate_parameters spot strike maturity rate volatility steps = Raises e ->
        Binomial.run_binomial spot strike maturity rate volatility steps
          option_type american dividend
        = (Binomial.no_lattice, Raises e))
  /\ (forall e gauss payoff,
        MonteCarlo._validate_inputs spot maturity rate volatility steps paths = Raises e ->
        MonteCarlo.run_monte_carlo gauss payoff spot maturity rate volatility steps paths
        = (MonteCarlo.fresh, Raises e)).
Proof.
  split; [apply BinomialProofs.validate_returns|].
  split; [apply MonteCarloProofs.validate_inputs_returns|].
  split; [reflexivity|]. split; [reflexivity|]. split.
  - intros e option_type american dividend. apply BinomialProofs.binomial_invalid.
  - intros e gauss payoff. apply MonteCarloProofs.monte_carlo_invalid.
Qed.

(** C9, as stated, fails: with the rate -0.01 both pricers return. *)
Lemma negative_rate_accepted :
  -0.01 <= 0
  /\ (exists st res,
        Binomial.run_binomial 100 100 1 (-0.01) 0.2 2 "call" false 0 = (st, Returns res))
  /\ (exists st res,
        MonteCarlo.run_monte_carlo (fun k => INR k) MonteCarlo.call_100
          100 1 (-0.01) 0.2 2 3 = (st, Returns res)).
Proof.
  split; [lra|]. split.
  - assert (Hp : Binomial.priced 100 100 1 (-0.01) 0.2 2 "call" 0).
    { apply BinomialProofs.priced_intro; try lra; try lia; [now left|].
      assert (Hdt : Binomial.crr_dt 1 2 = 1 / 2) by (unfold Binomial.crr_dt; lra).
      rewrite Hdt.
      assert (Hhalf : 1 / 2 <= sqrt (1 / 2)).
      { rewrite <- (sqrt_square (1 / 2)) at 1 by lra.
        apply sqrt_le_1_alt. lra. }
      rewrite Rabs_left by lra. lra. }
    destruct (BinomialProofs.binomial_run 100 100 1 (-0.01) 0.2 2 "call" false 0 Hp)
      as (V & v & Hrun & _).
    eauto.
  - destruct (MonteCarloProofs.monte_carlo_run (fun k => INR k) MonteCarlo.call_100
                100 1 (-0.01) 0.2 2 3) as (st & res & Hrun & _).
    + apply MonteCarloProofs.validate_inputs_returns. repeat split; try lra; lia.
    + intros p path. eexists. reflexivity.
    + eauto.
Qed.

End ValidationProofs.

(** ** The web server's helpers *)

Module WebServerProofs.
Import WebServer.

Section Parsed.
Variable float_of_str : string -> option R.
Variable int_of_str : string -> option Z.
Variable strip : string -> string.
Variable data : gmap string datum.

Lemma as_float_cases (name : string) :
  (exists x, as_float float_of_str data name = Done x)
  \/ as_float float_of_str data name
     = Failed (Builtin (ValueError (name ++ " must be a number.")))
  \/ (as_float float_of_str data name = Failed (Builtin OverflowError)
      /\ exists z, data !! name = Some (DInt z)
                   /\ (Payoff.float_int_bound <= Z.abs z)%Z).
Proof.
  unfold as_float, get.
  destruct (data !! name) as [[| b | z | x | s | items | items]|] eqn:E;
    cbn [float]; eauto.
  - destruct (Z.abs z <? Payoff.float_int_bound)%Z eqn:Hz; [eauto|].
    right. right. split; [reflexivity|]. exists z. split; [reflexivity|]. lia.
  - destruct (float_of_str s); eauto.
  - destruct (float_of_str ""); eauto.
Qed.

Lemma as_int_cases (name : string) :
  (exists z, as_int int_of_str data name = Done z /\ (0 < z)%Z)
  \/ exists message, as_int int_of_str data name = Failed (Builtin (ValueError message)).
Proof.
  assert (Hpos : forall z : Z,
             (exists z', (if (z <=? 0)%Z
                          then Failed (Builtin (ValueError (name ++ " must be positive.")))
                          else Done z) = Done z' /\ (0 < z')%Z)
             \/ exists message,
                  (if (z <=? 0)%Z
                   then Failed (Builtin (ValueError (name ++ " must be positive.")))
                   else Done z) = Failed (Builtin (ValueError message))).
  { intros z. destruct (z <=? 0)%Z eqn:Hz; [eauto|]. left. exists z. split; [reflexivity|lia]. }
  unfold as_int, get.
  destruct (data !! name) as [[| b | z | x | s | items | items]|] eqn:E;
    cbn [int]; eauto.
  - destruct (int_of_str s); eauto.
  - destruct (int_of_str ""); eauto.
Qed.

(** The payoff expression, or the error of its extraction. *)
Lemma payoff_cases :
  let value := get data "payoff" DNone in
  let receiver := if truth value then value else DStr "" in
  (truth value = false /\ call_strip strip receiver = Done (strip ""))
  \/ (exists s, data !! "payoff" = Some (DStr s) /\ s <> ""
                /\ call_strip strip receiver = Done (strip s))
  \/ (exists v, data !! "payoff" = Some v /\ truth v = true
                /\ (forall s, v <> DStr s)
                /\ call_strip strip receiver
                   = Failed (AttributeError
                               ("'" ++ type_name v ++ "' object has no attribute 'strip'"))).
Proof.
  unfold get.
  destruct (data !! "payoff") as [v|] eqn:E; cbn zeta; [|left; split; reflexivity].
  destruct (truth v) eqn:Ht; [|left; split; reflexivity].
  right. destruct v as [| b | z | x | s | items | items];
    try (right; eexists; split; [reflexivity|]; split; [exact Ht|];
         split; [intros s'; discriminate|reflexivity]).
  left. exists s. split; [reflexivity|]. split; [|reflexivity].
  intros ->. discriminate Ht.
Qed.
End Parsed.

Lemma format_result_returns (result : MonteCarlo.MonteCarloResult) :
  _format_result result
  = Returns {| view_price := MonteCarlo.price result;
               sample_payoffs := take 5 (MonteCarlo.payoffs result);
               sample_paths := take 3 (MonteCarlo.paths result);
               path_count := Z.of_nat (length (MonteCarlo.paths result));
               view_steps := match MonteCarlo.paths result with
                             | first :: _ => Z.of_nat (length first) - 1
                             | [] => 0
                             end |}.
Proof.
  unfold _format_result. destruct (MonteCarlo.paths result) as [|first rest] eqn:E;
    [reflexivity|].
  unfold py_index. change (0 <? 0)%Z with false. cbv iota.
  replace ((0 <? 0)%Z || (Z.of_nat (length (first :: rest)) <=? 0)%Z) with false
    by (symmetry; apply orb_false_iff; split;
        [reflexivity|apply Z.leb_gt; rewrite length_cons; lia]).
  reflexivity.
Qed.

Lemma count_not_rejected spot maturity rate volatility steps paths :
  (0 < steps)%Z -> (0 < paths)%Z ->
  MonteCarlo._validate_inputs spot maturity rate volatility steps paths
  <> Raises (ValueError "steps must be positive.")
  /\ MonteCarlo._validate_inputs spot maturity rate volatility steps paths
     <> Raises (ValueError "paths must be positive.").
Proof.
  intros Hsteps Hpaths.
  unfold MonteCarlo._validate_inputs, MonteCarlo._validate_positive, outcome_bind.
  rewrite (proj2 (Rleb_false (IZR steps) 0)) by (apply IZR_lt; lia).
  rewrite (proj2 (Rleb_false (IZR paths) 0)) by (apply IZR_lt; lia).
  destruct (Rleb spot 0); [split; discriminate|].
  destruct (Rleb maturity 0); [split; discriminate|].
  destruct (Rltb volatility 0); split; discriminate.
Qed.

(** X15. What [_parse_inputs] returns has a payoff expression that is
    not empty, the stripped string of the field [payoff], and positive
    step and path counts: the engine's validation never rejects them for
    a count that is not positive.  Where both counts are within the float
    range, so that [float(steps)] and [float(paths)] do not overflow, the
    engine accepts the parameters exactly when spot and maturity are
    positive and the volatility is not negative (floats being real
    numbers here: no NaN). *)
Theorem parsed_inputs_validate
    float_of_str int_of_str strip (data : gmap string datum) (p : params)
    (expression : string) :
  strip "" = "" ->
  _parse_inputs float_of_str int_of_str strip data = Done (p, expression) ->
  expression <> ""
  /\ (exists s, data !! "payoff" = Some (DStr s) /\ expression = strip s)
  /\ (0 < steps p)%Z /\ (0 < paths p)%Z
  /\ MonteCarlo._validate_inputs
       (spot p) (maturity p) (rate p) (volatility p) (steps p) (paths p)
     <> Raises (ValueError "steps must be positive.")
  /\ MonteCarlo._validate_inputs
       (spot p) (maturity p) (rate p) (volatility p) (steps p) (paths p)
     <> Raises (ValueError "paths must be positive.")
  /\ ((steps p < Payoff.float_int_bound)%Z ->
      (paths p < Payoff.float_int_bound)%Z ->
      (MonteCarlo._validate_inputs
         (spot p) (maturity p) (rate p) (volatility p) (steps p) (paths p)
       = Returns tt
       <-> 0 < spot p /\ 0 < maturity p /\ 0 <= volatility p)).
Proof.
  intros Hstrip. unfold _parse_inputs.
  destruct (payoff_cases strip data)
    as [[_ ->]|[(s & Hs & Hne & ->)|(v & _ & _ & _ & ->)]];
    cbn [attempt_bind]; [rewrite Hstrip; discriminate| |discriminate].
  destruct (String.eqb (strip s) "") eqn:Hempty; [discriminate|].
  destruct (as_float_cases float_of_str data "spot") as [[x1 ->]|[->| [-> _]]];
    cbn [attempt_bind]; [|discriminate|discriminate].
  destruct (as_float_cases float_of_str data "maturity") as [[x2 ->]|[->| [-> _]]];
    cbn [attempt_bind]; [|discriminate|discriminate].
  destruct (as_float_cases float_of_str data "rate") as [[x3 ->]|[->| [-> _]]];
    cbn [attempt_bind]; [|discriminate|discriminate].
  destruct (as_float_cases float_of_str data "volatility") as [[x4 ->]|[->| [-> _]]];
    cbn [attempt_bind]; [|discriminate|discriminate].
  destruct (as_int_cases int_of_str data "steps") as [(z1 & -> & Hz1)|[m ->]];
    cbn [attempt_bind]; [|discriminate].
  destruct (as_int_cases int_of_str data "paths") as [(z2 & -> & Hz2)|[m ->]];
    cbn [attempt_bind]; [|discriminate].
  intros [= <- <-]. cbn [spot maturity rate volatility steps paths].
  split; [intros E; rewrite E in Hempty; discriminate|].
  split; [eauto|]. split; [exact Hz1|]. split; [exact Hz2|].
  split; [apply (count_not_rejected x1 x2 x3 x4 z1 z2 Hz1 Hz2)|].
  split; [apply (count_not_rejected x1 x2 x3 x4 z1 z2 Hz1 Hz2)|].
  intros _ _. rewrite MonteCarloProofs.validate_inputs_returns. tauto.
Qed.

(** X16. [_parse_inputs] fails with a [ValueError], with one exception
    for each conversion that it leaves unguarded: an [OverflowError] when
    one of the four float fields holds an integer too large for a float,
    and an [AttributeError] when the field [payoff] holds a true value
    that is not a string. *)
Theorem parse_failures
    float_of_str int_of_str strip (data : gmap string datum) (e : error) :
  _parse_inputs float_of_str int_of_str strip data = Failed e ->
  (exists message, e = Builtin (ValueError message))
  \/ (e = Builtin OverflowError
      /\ exists name z,
           name ∈ ["spot"; "maturity"; "rate"; "volatility"]
           /\ data !! name = Some (DInt z)
           /\ (Payoff.float_int_bound <= Z.abs z)%Z)
  \/ (exists v,
        data !! "payoff" = Some v /\ truth v = true /\ (forall s, v <> DStr s)
        /\ e = AttributeError ("'" ++ type_name v ++ "' object has no attribute 'strip'")).
Proof.
  unfold _parse_inputs.
  destruct (payoff_cases strip data)
    as [[_ ->]|[(s & Hs & Hne & ->)|(v & Hv & Ht & Hns & ->)]];
    cbn [attempt_bind].
  3:{ intros [= <-]. right. right. exists v. auto. }
  all: match goal with |- context [String.eqb ?a ""] => destruct (String.eqb a "") end;
    [intros [= <-]; eauto|].
  all: destruct (as_float_cases float_of_str data "spot")
         as [[x1 ->]|[->| [-> (z & Hz & Hbig)]]];
    cbn [attempt_bind];
    [|intros [= <-]; eauto
     |intros [= <-]; right; left; split; [reflexivity|];
      exists "spot", z; split; [set_solver|auto]].
  all: destruct (as_float_cases float_of_str data "maturity")
         as [[x2 ->]|[->| [-> (z & Hz & Hbig)]]];
    cbn [attempt_bind];
    [|intros [= <-]; eauto
     |intros [= <-]; right; left; split; [reflexivity|];
      exists "maturity", z; split; [set_solver|auto]].
  all: destruct (as_float_cases float_of_str data "rate")
         as [[x3 ->]|[->| [-> (z & Hz & Hbig)]]];
    cbn [attempt_bind];
    [|intros [= <-]; eauto
     |intros [= <-]; right; left; split; [reflexivity|];
      exists "rate", z; split; [set_solver|auto]].
  all: destruct (as_float_cases float_of_str data "volatility")
         as [[x4 ->]|[->| [-> (z & Hz & Hbig)]]];
    cbn [attempt_bind];
    [|intros [= <-]; eauto
     |intros [= <-]; right; left; split; [reflexivity|];
      exists "volatility", z; split; [set_solver|auto]].
  all: destruct (as_int_cases int_of_str data "steps") as [(z1 & -> & Hz1)|[m ->]];
    cbn [attempt_bind]; [|intros [= <-]; eauto].
  all: destruct (as_int_cases int_of_str data "paths") as [(z2 & -> & Hz2)|[m ->]];
    cbn [attempt_bind]; [discriminate|intros [= <-]; eauto].
Qed.

(** X17. The view of an engine result reports the requested numbers: with
    valid inputs and a payoff callable that returns, [_format_result]
    returns, [path_count] is [paths], [steps] is [steps], the samples are
    the first min(3, paths) paths and the first min(5, paths) payoffs,
    and the price is the engine's. *)
Theorem view_reports_request
    gauss payoff spot maturity rate volatility steps paths :
  MonteCarlo._validate_inputs spot maturity rate volatility steps paths = Returns tt ->
  (forall price path, exists v, payoff price path = Returns v) ->
  exists st res v,
    MonteCarlo.run_monte_carlo gauss payoff spot maturity rate volatility steps paths
    = (st, Returns res)
    /\ _format_result res = Returns v
    /\ view_price v = MonteCarlo.price res
    /\ path_count v = paths
    /\ view_steps v = steps
    /\ sample_paths v = take 3 (MonteCarlo.paths res)
    /\ sample_payoffs v = take 5 (MonteCarlo.payoffs res)
    /\ Z.of_nat (length (sample_paths v)) = Z.min 3 paths
    /\ Z.of_nat (length (sample_payoffs v)) = Z.min 5 paths.
Proof.
  intros Hvalid Htotal.
  destruct (MonteCarloProofs.monte_carlo_run
              gauss payoff spot maturity rate volatility steps paths Hvalid Htotal)
    as (st & res & Hrun & _ & Hlen & Hall & _).
  apply MonteCarloProofs.validate_inputs_returns in Hvalid
    as (_ & _ & Hsteps & Hpaths & _).
  pose proof (Forall2_length _ _ _ Hall) as Hlen'.
  exists st, res. eexists. split; [exact Hrun|].
  split; [apply format_result_returns|].
  cbn [view_price path_count view_steps sample_paths sample_payoffs].
  split; [reflexivity|]. split; [lia|]. split.
  { destruct Hall as [|path v ps vs (zs & Hzs & -> & _) _]; [simpl in Hlen; lia|].
    rewrite length_cons, MonteCarloProofs.walk_length, Hzs. lia. }
  split; [reflexivity|]. split; [reflexivity|].
  rewrite !length_take. lia.
Qed.

Lemma parsed_inputs_validate_witness :
  let data : gmap string datum :=
    <["payoff" := DStr "price"]>
      (<["spot" := DInt 100]>
         (<["maturity" := DFloat 1]>
            (<["rate" := DStr "5"]>
               (<["volatility" := DBool false]>
                  (<["steps" := DStr "2"]> (<["paths" := DInt 3]> ∅)))))) in
  let p := {| spot := 100; maturity := 1; rate := 5; volatility := 0;
              steps := 2; paths := 3 |} in
  _parse_inputs digits_float digits_value (fun s => s) data = Done (p, "price")
  /\ (0 < steps p)%Z /\ (0 < paths p)%Z.
Proof.
  cbn zeta.
  assert (H : _parse_inputs digits_float digits_value (fun s => s)
                (<["payoff" := DStr "price"]>
                   (<["spot" := DInt 100]>
                      (<["maturity" := DFloat 1]>
                         (<["rate" := DStr "5"]>
                            (<["volatility" := DBool false]>
                               (<["steps" := DStr "2"]> (<["paths" := DInt 3]> ∅)))))))
              = Done ({| spot := 100; maturity := 1; rate := 5; volatility := 0;
                         steps := 2; paths := 3 |}, "price")).
  { unfold _parse_inputs, as_float, as_int, get.
    repeat (rewrite lookup_insert_eq || (rewrite lookup_insert_ne by discriminate)).
    vm_compute. reflexivity. }
  split; [exact H|].
  destruct (parsed_inputs_validate digits_float digits_value (fun s => s) _ _ _
              eq_refl H) as (_ & _ & Hs & Hp & _).
  split; [exact Hs|exact Hp].
Defined.

Lemma parse_failures_witness :
  _parse_inputs digits_float digits_value (fun s => s) (<["payoff" := DInt 5]> ∅)
  = Failed (AttributeError "'int' object has no attribute 'strip'")
  /\ ((exists message,
         AttributeError "'int' object has no attribute 'strip'"
         = Builtin (ValueError message))
      \/ (AttributeError "'int' object has no attribute 'strip'" = Builtin OverflowError
          /\ exists name z,
               name ∈ ["spot"; "maturity"; "rate"; "volatility"]
               /\ (<["payoff" := DInt 5]> ∅ : gmap string datum) !! name = Some (DInt z)
               /\ (Payoff.float_int_bound <= Z.abs z)%Z)
      \/ (exists v,
            (<["payoff" := DInt 5]> ∅ : gmap string datum) !! "payoff" = Some v
            /\ truth v = true /\ (forall s, v <> DStr s)
            /\ AttributeError "'int' object has no attribute 'strip'"
               = AttributeError ("'" ++ type_name v ++ "' object has no attribute 'strip'"))).
Proof.
  assert (H : _parse_inputs digits_float digits_value (fun s => s)
                (<["payoff" := DInt 5]> ∅)
              = Failed (AttributeError "'int' object has no attribute 'strip'")).
  { unfold _parse_inputs, get. rewrite lookup_insert_eq. reflexivity. }
  split; [exact H|].
  apply (parse_failures digits_float digits_value (fun s => s) _ _ H).
Defined.

Lemma view_reports_request_witness :
  MonteCarlo._validate_inputs 100 1 0.05 0.2 2 3 = Returns tt
  /\ exists st res v,
       MonteCarlo.run_monte_carlo (fun k => INR k) MonteCarlo.call_100 100 1 0.05 0.2 2 3
       = (st, Returns res)
       /\ _format_result res = Returns v
       /\ path_count v = 3%Z
       /\ view_steps v = 2%Z.
Proof.
  assert (Hvalid : MonteCarlo._validate_inputs 100 1 0.05 0.2 2 3 = Returns tt).
  { apply MonteCarloProofs.validate_inputs_returns. repeat split; (lra || lia). }
  split; [exact Hvalid|].
  destruct (view_reports_request (fun k => INR k) MonteCarlo.call_100 100 1 0.05 0.2 2 3
              Hvalid)
    as (st & res & v & Hrun & Hf & _ & Hc & Hs & _).
  { intros price path. eexists. reflexivity. }
  exists st, res, v. auto.
Defined.

End WebServerProofs.
